(** * A badger-backed IPLD blockstore with a multihash journal and a moving GC

    Shallow embedding of [blockstore/badger/blockstore.go].

    Conventions of the embedding:
    - a Go [byte] is a [Z] in the range [0, 256); a [[]byte] is a [list Z];
      byte arithmetic that wraps in Go is wrapped explicitly with [u8];
    - the badger key-value engine is a finite map from keys to values
      ([gmap (list Z) (list Z)]); the points where the engine, the journal
      file or the file system may report an I/O error are parameters of the
      operations (records of faults), so every theorem quantifies over them;
    - a Go [error] result is an [option Err] ([None] is [nil]);
    - [defer]red statements are written out at every exit of a function. *)

From Stdlib Require Import ZArith List Lia Btauto Bool.
From stdpp Require Import base option list gmap strings pretty sorting.

Local Open Scope Z_scope.

(** ** Bytes *)

Definition u8 (x : Z) : Z := Z.land x 255.

Definition is_byte (x : Z) : Prop := 0 <= x < 256.

Definition bytes_ok (l : list Z) : Prop := Forall is_byte l.

(** A five-bit value, the unit of base32. *)
Definition is_val5 (v : Z) : Prop := 0 <= v < 32.

(** ** The base32 dependency (go-base32, [RawStdEncoding])

    The blockstore uses [base32.RawStdEncoding] of the go-base32 package:
    the RFC 4648 alphabet, no padding, a decode map that accepts both
    letter cases. The definitions below follow that package's [Encode],
    [Decode], [EncodedLen] and [DecodedLen]. *)

Module base32.

(** "ABCDEFGHIJKLMNOPQRSTUVWXYZ234567" as character codes. *)
Definition encodeStd : list Z :=
  [65;66;67;68;69;70;71;72;73;74;75;76;77;78;79;80;81;82;83;84;85;86;87;88;89;90;
   50;51;52;53;54;55].

(** [enc.encode[v & 31]] *)
Definition encode_char (v : Z) : Z :=
  nth (Z.to_nat (Z.land v 31)) encodeStd 0.

Definition asciiToUpper (c : Z) : Z :=
  if (97 <=? c) && (c <=? 122) then c - 32 else c.

Fixpoint index_of (c : Z) (l : list Z) (i : Z) : Z :=
  match l with
  | [] => 255
  | x :: l' => if Z.eqb x c then i else index_of c l' (i + 1)
  end.

(** [enc.decodeMap[c]]: the 5-bit value of a character, [0xFF] when the
    character is not in the alphabet. *)
Definition decodeMap (c : Z) : Z := index_of (asciiToUpper c) encodeStd 0.

(** [EncodedLen] and [DecodedLen] without padding. *)
Definition EncodedLen (n : nat) : nat := (n * 8 + 4) / 5.
Definition DecodedLen (n : nat) : nat := n * 5 / 8.

(** The 8 five-bit values of a quantum of up to five source bytes. Bytes
    that the quantum does not have contribute nothing, as the [switch]
    with fall-through of [Encode] leaves the corresponding bits zero. *)
Definition quantum (src : list Z) : list Z :=
  let s i := nth i src 0 in
  [ Z.shiftr (s 0%nat) 3;
    Z.lor (Z.land (Z.shiftr (s 1%nat) 6) 31) (Z.land (u8 (Z.shiftl (s 0%nat) 2)) 31);
    Z.land (Z.shiftr (s 1%nat) 1) 31;
    Z.lor (Z.land (Z.shiftr (s 2%nat) 4) 31) (Z.land (u8 (Z.shiftl (s 1%nat) 4)) 31);
    Z.lor (Z.shiftr (s 3%nat) 7) (Z.land (u8 (Z.shiftl (s 2%nat) 1)) 31);
    Z.land (Z.shiftr (s 3%nat) 2) 31;
    Z.lor (Z.shiftr (s 4%nat) 5) (Z.land (u8 (Z.shiftl (s 3%nat) 3)) 31);
    Z.land (s 4%nat) 31 ].

Fixpoint Encode (src : list Z) : list Z :=
  match src with
  | [] => []
  | s0 :: s1 :: s2 :: s3 :: s4 :: rest =>
      map encode_char (quantum [s0; s1; s2; s3; s4]) ++ Encode rest
  | _ => take (EncodedLen (length src)) (map encode_char (quantum src))
  end.

(** [CorruptInputError]: a position in the input. *)
Definition CorruptInputError := nat.

(** [NoPadding] is the rune -1; [byte(enc.padChar)] is then [0xFF]. *)
Definition padByte : Z := 255.

(** Looks the characters of one quantum up in the decode map. [olen] is
    the length of the whole input, [pos] the index of the first character
    of [cs] in it, [j] its index in the quantum and [rest] the number of
    characters that follow the quantum. A character equal to the pad byte
    from the third place of a quantum on, with fewer than eight characters
    after it, aborts with the length of the input; any other character
    outside the alphabet aborts with its own position. *)
Fixpoint lookup_quantum (olen pos j rest : nat) (cs : list Z)
  : list Z + CorruptInputError :=
  match cs with
  | [] => inl []
  | c :: cs' =>
      if (c =? padByte) && (2 <=? j)%nat && (length cs' + rest <? 8)%nat then inr olen
      else if Z.eqb (decodeMap c) 255 then inr pos
      else match lookup_quantum olen (S pos) (S j) rest cs' with
           | inl vs => inl (decodeMap c :: vs)
           | inr p => inr p
           end
  end.

(** Packs [dlen] five-bit values into destination bytes. *)
Definition pack (dlen : nat) (dbuf : list Z) : list Z :=
  let d i := nth i dbuf 0 in
  let dst :=
    [ u8 (Z.lor (Z.shiftl (d 0%nat) 3) (Z.shiftr (d 1%nat) 2));
      u8 (Z.lor (Z.lor (Z.shiftl (d 1%nat) 6) (Z.shiftl (d 2%nat) 1)) (Z.shiftr (d 3%nat) 4));
      u8 (Z.lor (Z.shiftl (d 3%nat) 4) (Z.shiftr (d 4%nat) 1));
      u8 (Z.lor (Z.lor (Z.shiftl (d 4%nat) 7) (Z.shiftl (d 5%nat) 2)) (Z.shiftr (d 6%nat) 3));
      u8 (Z.lor (Z.shiftl (d 6%nat) 5) (d 7%nat)) ] in
  let n := match dlen with
           | 8 => 5 | 7 => 4 | 5 => 3 | 4 => 2 | 2 => 1 | _ => 0
           end%nat in
  take n dst.

Fixpoint decode (olen pos : nat) (src : list Z) : list Z + CorruptInputError :=
  match src with
  | [] => inl []
  | c0 :: c1 :: c2 :: c3 :: c4 :: c5 :: c6 :: c7 :: rest =>
      match lookup_quantum olen pos 0 (length rest) [c0; c1; c2; c3; c4; c5; c6; c7] with
      | inr p => inr p
      | inl dbuf =>
          match decode olen (pos + 8) rest with
          | inl out => inl (pack 8 dbuf ++ out)
          | inr p => inr p
          end
      end
  | _ =>
      match lookup_quantum olen pos 0 0 src with
      | inr p => inr p
      | inl dbuf => inl (pack (length src) dbuf)
      end
  end.

(** [Decode] drops carriage returns and line feeds, then decodes. *)
Definition Decode (s : list Z) : list Z + CorruptInputError :=
  let stripped := filter (fun c => c ≠ 13 ∧ c ≠ 10) s in
  decode (length stripped) 0 stripped.

End base32.

(** ** The varint and multihash dependencies

    [multihash.Decode] of go-multihash reads two unsigned varints (hash
    code and digest length) with go-varint's [FromUvarint] and checks that
    the rest of the buffer is exactly a digest of the announced length. *)

Module varint.

Inductive Error := ErrOverflow | ErrNotMinimal | ErrUnderflow.

Definition MaxLenUvarint63 : nat := 9.

(** The loop of [FromUvarint]: [i] is the index of the byte being read,
    [x] the value accumulated so far and [s] the shift of the next group
    of seven bits. *)
Fixpoint FromUvarint_from (i : nat) (x s : Z) (buf : list Z) : (Z * nat) + Error :=
  match buf with
  | [] => inr ErrUnderflow
  | b :: rest =>
      if (Nat.eqb i 8 && (128 <=? b)) || (MaxLenUvarint63 <=? i)%nat then inr ErrOverflow
      else if b <? 128 then
        if (b =? 0) && (0 <? s) then inr ErrNotMinimal
        else inl (Z.lor x (Z.shiftl b s), S i)
      else FromUvarint_from (S i) (Z.lor x (Z.shiftl (Z.land b 127) s)) (s + 7) rest
  end.

Definition FromUvarint (buf : list Z) : (Z * nat) + Error :=
  FromUvarint_from 0 0 0 buf.

End varint.

Module multihash.

Record DecodedMultihash := {
  Code : Z;
  Length : nat;
  Digest : list Z
}.

Inductive Error :=
| ErrTooShort
| ErrVarint (e : varint.Error)
| ErrTooLong
| ErrLengthExceedsBuffer
| ErrInconsistentLen.

(** [uvarint]: the value and the rest of the buffer. *)
Definition uvarint (buf : list Z) : (Z * list Z) + Error :=
  match varint.FromUvarint buf with
  | inr e => inr (ErrVarint e)
  | inl (n, c) => inl (n, drop c buf)
  end.

(** [readMultihashFromBuf]: the announced total length, the code and the
    digest. *)
Definition readMultihashFromBuf (buf : list Z) : (nat * Z * list Z) + Error :=
  if (length buf <? 2)%nat then inr ErrTooShort
  else match uvarint buf with
       | inr e => inr e
       | inl (code, buf1) =>
           match uvarint buf1 with
           | inr e => inr e
           | inl (len, buf2) =>
               if 2147483647 <? len then inr ErrTooLong
               else if (length buf2 <? Z.to_nat len)%nat then inr ErrLengthExceedsBuffer
               else inl ((length buf - length buf2 + Z.to_nat len)%nat, code,
                         take (Z.to_nat len) buf2)
           end
       end.

Definition Decode (buf : list Z) : DecodedMultihash + Error :=
  match readMultihashFromBuf buf with
  | inr e => inr e
  | inl (rlen, code, hdig) =>
      if Nat.eqb (length buf) rlen
      then inl {| Code := code; Length := length hdig; Digest := hdig |}
      else inr ErrInconsistentLen
  end.

(** [DefaultLengths], the digest length of a hash function by its code:
    the entries of the two functions the store names, SHA2-256 ([0x12])
    and BLAKE2b-256 ([0xb220]). A code that is not in a Go map reads as 0. *)
Definition DefaultLengths : gmap Z Z := <[18 := 32]> (<[45600 := 32]> ∅).

End multihash.

(** ** Content identifiers and blocks (go-cid, go-block-format)

    The blockstore reads two things off a cid, whether it is defined and
    its multihash, and builds version 1 cids with the raw codec. *)

Module cid.

Inductive Cid :=
| Undef
| CidV0 (mh : list Z)
| CidV1 (codec : Z) (mh : list Z).

Definition Raw : Z := 85.

Definition Defined (c : Cid) : bool :=
  match c with Undef => false | _ => true end.

Definition Hash (c : Cid) : list Z :=
  match c with
  | Undef => []
  | CidV0 mh => mh
  | CidV1 _ mh => mh
  end.

Definition NewCidV1 (codecType : Z) (mhash : list Z) : Cid := CidV1 codecType mhash.

(** [cid.Prefix], the template a cid is made from. *)
Record Prefix := {
  Version : Z;
  Codec : Z;
  MhType : Z;
  MhLength : Z
}.

Definition NewPrefixV1 (codecType mhType : Z) : Prefix :=
  {| Version := 1; Codec := codecType; MhType := mhType;
     MhLength := default 0 (multihash.DefaultLengths !! mhType) |}.

End cid.

Module blocks.

Record Block := {
  Cid : cid.Cid;
  RawData : list Z
}.

Definition NewBlockWithCid (data : list Z) (c : cid.Cid) : Block :=
  {| Cid := c; RawData := data |}.

End blocks.

(** ** The blockstore *)

Module badgerbs.

(** File-system paths, as their components. *)
Definition path := list string.

(** *** Errors *)

Inductive Err :=
| ErrBlockstoreClosed                       (* "badger blockstore closed" *)
| ErrNotFound (c : cid.Cid)                 (* ipld.ErrNotFound *)
| ErrMultihashDecode (e : multihash.Error)  (* "unexpected error decoding multihash" *)
| ErrHashLength (bits : nat)                (* "unsupported hash length of %d bits" *)
| ErrHashPrefix (pfx : list Z)              (* "unsupported multihash prefix" *)
| ErrCorruptInput (pos : base32.CorruptInputError)
| ErrUndecodableKey (key : list Z) (pos : base32.CorruptInputError)
| ErrMoveInProgress                         (* "move in progress" *)
| ErrFullGCOnce                             (* "FullGC option specified for GCOnce ..." *)
| ErrNoRewrite                              (* badger.ErrNoRewrite *)
| ErrContext                                (* ctx.Err() *)
| ErrIO (code : nat)                        (* an error of badger or of the os *)
| ErrUser (code : nat)                      (* an error returned by a callback *)
| ErrCombined (e1 e2 : Err)                 (* multierr.Combine *)
| Wrap (msg : string) (e : Err).            (* fmt.Errorf("msg: %w", e) *)

(** How a call ends: it returns, it panics, it waits for ever on the
    move condition variable (there is one thread only in this model), or
    the process dies under it. A panic of the caller's own goroutine runs
    the deferred statements of the caller and goes on to its caller. A
    panic on another goroutine, which nobody recovers, ends the process:
    no deferred statement of the caller runs, and what is left of the
    store is what the file system holds. *)
Inductive Outcome (A : Type) :=
| Returned (a : A)
| Panicked (msg : string)
| Blocked
| Died (msg : string).
Arguments Returned {A} a.
Arguments Panicked {A} msg.
Arguments Blocked {A}.
Arguments Died {A} msg.

(** Observable effects outside the store: traffic on the buffer pool for
    storage keys and for journal slabs, and log lines. *)
Inductive Event :=
| KeyPoolGet (k : list Z)      (* a key buffer taken in PooledStorageKey *)
| KeyPoolPut (k : list Z)      (* KeyPool.Put(k) *)
| SlabGet (n : nat)            (* pool.Get(n) for a journal slab or a hash buffer *)
| SlabPut (n : nat)            (* pool.Put of that buffer *)
| LogWarn (msg : string)
| LogInfo (msg : string).

(** *** The digest policy *)

Record supportedMultihash := {
  cidMaker : cid.Prefix;
  journalShortCode : Z
}.

Definition Blake2b256 : Z := 45600.   (* 0xb220 *)
Definition Sha2_256 : Z := 18.        (* 0x12 *)

Definition supportedMultihashes : gmap (list Z) supportedMultihash :=
  <[ [160; 228; 2; 32] :=
       {| cidMaker := cid.NewPrefixV1 cid.Raw Blake2b256; journalShortCode := 1 |} ]>
  (<[ [18; 32] :=
       {| cidMaker := cid.NewPrefixV1 cid.Raw Sha2_256; journalShortCode := 0 |} ]> ∅).

Definition supportedHashLen : nat := 32.
Definition mhJournalFilename : string := "MultiHashes.bin".
Definition mhJournalRecordLen : nat := 1 + supportedHashLen.

Definition isMultihashSupported (mh : list Z) : supportedMultihash + Err :=
  match multihash.Decode mh with
  | inr e => inr (ErrMultihashDecode e)
  | inl mhDec =>
      if negb (Nat.eqb (multihash.Length mhDec) supportedHashLen)
      then inr (ErrHashLength (multihash.Length mhDec * 8))
      else match supportedMultihashes !! take (length mh - supportedHashLen) mh with
           | Some smh => inl smh
           | None => inr (ErrHashPrefix (take (length mh - supportedHashLen) mh))
           end
  end.

(** *** State *)

Inductive bsState := stateOpen | stateClosing | stateClosed.

Inductive bsMoveState :=
| moveStateNone | moveStateMoving | moveStateCleanup | moveStateLock.

(** A handle on a badger database: the directory it was opened at and
    its key-value content. *)
Record badgerDB := {
  db_dir : path;
  kv : gmap (list Z) (list Z)
}.

(** A handle on a multihash journal: the directory of the file and the
    bytes appended through the handle. *)
Record flushWriter := {
  fw_dir : path;
  written : list Z
}.

(** badger.Options, as far as the blockstore reads them, and the prefix. *)
Record Options := {
  Dir : path;
  ValueDir : path;
  ReadOnly : bool;
  Prefix : list Z
}.

Record Blockstore := {
  state : bsState;
  viewers : Z;
  moveState : bsMoveState;
  rlock : Z;
  db : badgerDB;
  mhJournal : option flushWriter;
  dbNext : option badgerDB;
  mhJournalNext : option flushWriter;
  opts : Options;
  prefixing : bool;
  prefix : list Z;
  prefixLen : nat
}.

Definition set_state (s : bsState) (b : Blockstore) : Blockstore :=
  {| state := s; viewers := viewers b; moveState := moveState b; rlock := rlock b;
     db := db b; mhJournal := mhJournal b; dbNext := dbNext b;
     mhJournalNext := mhJournalNext b; opts := opts b; prefixing := prefixing b;
     prefix := prefix b; prefixLen := prefixLen b |}.

Definition set_viewers (v : Z) (b : Blockstore) : Blockstore :=
  {| state := state b; viewers := v; moveState := moveState b; rlock := rlock b;
     db := db b; mhJournal := mhJournal b; dbNext := dbNext b;
     mhJournalNext := mhJournalNext b; opts := opts b; prefixing := prefixing b;
     prefix := prefix b; prefixLen := prefixLen b |}.

Definition set_moveState (m : bsMoveState) (b : Blockstore) : Blockstore :=
  {| state := state b; viewers := viewers b; moveState := m; rlock := rlock b;
     db := db b; mhJournal := mhJournal b; dbNext := dbNext b;
     mhJournalNext := mhJournalNext b; opts := opts b; prefixing := prefixing b;
     prefix := prefix b; prefixLen := prefixLen b |}.

Definition set_rlock (r : Z) (b : Blockstore) : Blockstore :=
  {| state := state b; viewers := viewers b; moveState := moveState b; rlock := r;
     db := db b; mhJournal := mhJournal b; dbNext := dbNext b;
     mhJournalNext := mhJournalNext b; opts := opts b; prefixing := prefixing b;
     prefix := prefix b; prefixLen := prefixLen b |}.

(** Assigns [b.db] and [b.mhJournal]. *)
Definition set_active (d : badgerDB) (j : option flushWriter) (b : Blockstore) : Blockstore :=
  {| state := state b; viewers := viewers b; moveState := moveState b; rlock := rlock b;
     db := d; mhJournal := j; dbNext := dbNext b;
     mhJournalNext := mhJournalNext b; opts := opts b; prefixing := prefixing b;
     prefix := prefix b; prefixLen := prefixLen b |}.

(** Assigns [b.dbNext] and [b.mhJournalNext]. *)
Definition set_next (d : option badgerDB) (j : option flushWriter) (b : Blockstore) : Blockstore :=
  {| state := state b; viewers := viewers b; moveState := moveState b; rlock := rlock b;
     db := db b; mhJournal := mhJournal b; dbNext := d;
     mhJournalNext := j; opts := opts b; prefixing := prefixing b;
     prefix := prefix b; prefixLen := prefixLen b |}.

(** What a public operation leaves behind. *)
Record Result (A : Type) := mkResult {
  r_store : Blockstore;
  r_trace : list Event;
  r_out : Outcome A
}.
Arguments mkResult {A} _ _ _.
Arguments r_store {A} _.
Arguments r_trace {A} _.
Arguments r_out {A} _.

(** *** The lifecycle gate *)

Definition access (b : Blockstore) : Blockstore * option Err :=
  match state b with
  | stateOpen => (set_viewers (viewers b + 1) b, None)
  | _ => (b, Some ErrBlockstoreClosed)
  end.

(** [b.viewers.Done()] *)
Definition viewers_Done (b : Blockstore) : Blockstore :=
  set_viewers (viewers b - 1) b.

Definition isOpen (b : Blockstore) : bool :=
  match state b with stateOpen => true | _ => false end.

(** *** The move lock *)

Definition is_moveStateLock (m : bsMoveState) : bool :=
  match m with moveStateLock => true | _ => false end.

(** [lockDB]: with no shared holder the caller waits while the state is
    [moveStateLock]; [None] is a caller that waits for ever. *)
Definition lockDB (b : Blockstore) : option Blockstore :=
  if (rlock b =? 0) && is_moveStateLock (moveState b) then None
  else Some (set_rlock (rlock b + 1) b).

Definition unlockDB (b : Blockstore) : Blockstore :=
  set_rlock (rlock b - 1) b.

(** [lockMove]: sets [moveStateLock] and waits until no shared holder is
    left. *)
Definition lockMove (b : Blockstore) : option Blockstore :=
  if 0 <? rlock b then None else Some (set_moveState moveStateLock b).

Definition unlockMove (st : bsMoveState) (b : Blockstore) : Blockstore :=
  set_moveState st b.

(** The two deferred statements every operation ends with:
    [b.unlockDB()] and then [b.viewers.Done()]. *)
Definition leave (b : Blockstore) : Blockstore := viewers_Done (unlockDB b).

(** *** The key codec *)

(** [pool.Get(n)]: a buffer of length [n]; the store overwrites all of it. *)
Definition pool_Get (n : nat) : list Z := replicate n 0.

(** [copy(dst, src)] *)
Definition copy (dst src : list Z) : list Z :=
  take (length dst) src ++ drop (length src) dst.

(** [base32.RawStdEncoding.Encode(dst[off:], h)] *)
Definition Encode_at (off : nat) (dst h : list Z) : list Z :=
  take off dst ++ base32.Encode h ++ drop (off + length (base32.Encode h)) dst.

Definition PooledStorageKey (b : Blockstore) (c : cid.Cid) : list Z * bool :=
  let h := cid.Hash c in
  let size := base32.EncodedLen (length h) in
  if negb (prefixing b) then
    let k := pool_Get size in
    (Encode_at 0 k h, true)
  else
    let size := (size + prefixLen b)%nat in
    let k := pool_Get size in
    let k := copy k (prefix b) in
    (Encode_at (prefixLen b) k h, true).

(** A Go slice: the backing array from the start of the slice (its length
    is the capacity) and the length of the slice. *)
Record slice := {
  backing : list Z;
  len : nat
}.

Definition cap (s : slice) : nat := length (backing s).

Definition StorageKey (b : Blockstore) (dst : slice) (c : cid.Cid) : list Z :=
  let h := cid.Hash c in
  let reqsize := (base32.EncodedLen (length h) + prefixLen b)%nat in
  let dst :=
    if (cap dst <? reqsize)%nat then {| backing := replicate reqsize 0; len := reqsize |}
    else if (len dst <? reqsize)%nat then {| backing := backing dst; len := cap dst |}
    else dst in
  let arr :=
    if prefixing b then Encode_at (prefixLen b) (copy (backing dst) (prefix b)) h
    else Encode_at 0 (backing dst) h in
  take reqsize arr.

(** *** Reads *)

(** [badgerGet], the tri-state of a lookup inside a transaction:
    value+nil, nil+nil, nil+err. [fault] is what [txn.Get] reports besides
    [ErrKeyNotFound]. *)
Definition badgerGet (fault : option Err) (d : badgerDB) (k : list Z)
  : option (list Z) * option Err :=
  match fault with
  | Some err => (None, Some err)
  | None => (kv d !! k, None)
  end.

Record ReadFaults := {
  rf_get : option Err;      (* txn.Get *)
  rf_value : option Err;    (* item.Value / item.ValueCopy *)
  rf_size : option Z        (* item.ValueSize() of a value that badger keeps in the
                               value log, where it is an estimate; [None] for a
                               value kept with its key, whose size is its length *)
}.

(** The engine reports no error, and the value is kept with its key. *)
Definition no_read_faults : ReadFaults :=
  {| rf_get := None; rf_value := None; rf_size := None |}.


(** [item.ValueSize()] *)
Definition ValueSize (fl : ReadFaults) (v : list Z) : Z :=
  match rf_size fl with
  | Some n => n
  | None => Z.of_nat (length v)
  end.

(** The pool events of an operation that takes one key and defers its
    return when the codec says it is pooled. *)
Definition key_events (k : list Z) (pooled : bool) : list Event :=
  KeyPoolGet k :: (if pooled then [KeyPoolPut k] else []).

Definition View (fl : ReadFaults) (b : Blockstore) (c : cid.Cid)
    (fn : list Z -> option Err) : Result (option Err) :=
  match access b with
  | (b, Some err) => mkResult b [] (Returned (Some err))
  | (b, None) =>
      match lockDB b with
      | None => mkResult b [] Blocked
      | Some b =>
          let '(k, pooled) := PooledStorageKey b c in
          let err :=
            match badgerGet (rf_get fl) (db b) k with
            | (_, Some err) =>
                Some (Wrap "failed to view block from badger blockstore" err)
            | (None, None) => Some (ErrNotFound c)
            | (Some v, None) =>
                match rf_value fl with
                | Some err => Some err
                | None => fn v
                end
            end in
          mkResult (leave b) (key_events k pooled) (Returned err)
      end
  end.

Definition Has (fl : ReadFaults) (b : Blockstore) (c : cid.Cid)
  : Result (bool * option Err) :=
  match access b with
  | (b, Some err) => mkResult b [] (Returned (false, Some err))
  | (b, None) =>
      match lockDB b with
      | None => mkResult b [] Blocked
      | Some b =>
          let '(k, pooled) := PooledStorageKey b c in
          let '(val, err) := badgerGet (rf_get fl) (db b) k in
          let canHaz := match val with Some _ => true | None => false end in
          let out :=
            match err with
            | Some err =>
                (false, Some (Wrap "failed to check if block exists in badger blockstore" err))
            | None => (canHaz, None)
            end in
          mkResult (leave b) (key_events k pooled) (Returned out)
      end
  end.

Definition Get (fl : ReadFaults) (b : Blockstore) (c : cid.Cid)
  : Result (option blocks.Block * option Err) :=
  if negb (cid.Defined c) then mkResult b [] (Returned (None, Some (ErrNotFound c)))
  else
  match access b with
  | (b, Some err) => mkResult b [] (Returned (None, Some err))
  | (b, None) =>
      match lockDB b with
      | None => mkResult b [] Blocked
      | Some b =>
          let '(k, pooled) := PooledStorageKey b c in
          let out :=
            match badgerGet (rf_get fl) (db b) k with
            | (_, Some err) =>
                (None, Some (Wrap "failed to get block from badger blockstore" err))
            | (None, None) => (None, Some (ErrNotFound c))
            | (Some v, None) =>
                match rf_value fl with
                | Some err => (None, Some err)
                | None => (Some (blocks.NewBlockWithCid v c), None)
                end
            end in
          mkResult (leave b) (key_events k pooled) (Returned out)
      end
  end.

Definition GetSize (fl : ReadFaults) (b : Blockstore) (c : cid.Cid)
  : Result (Z * option Err) :=
  match access b with
  | (b, Some err) => mkResult b [] (Returned (0, Some err))
  | (b, None) =>
      match lockDB b with
      | None => mkResult b [] Blocked
      | Some b =>
          let '(k, pooled) := PooledStorageKey b c in
          let out :=
            match badgerGet (rf_get fl) (db b) k with
            | (_, Some err) =>
                (-1, Some (Wrap "failed to get block size from badger blockstore" err))
            | (None, None) => (-1, Some (ErrNotFound c))
            | (Some v, None) => (ValueSize fl v, None)
            end in
          mkResult (leave b) (key_events k pooled) (Returned out)
      end
  end.

(** *** Writes *)

(** A badger write batch: the entries set or deleted so far, in order.
    [None] as a value is a deletion. *)
Definition WriteBatch := list (list Z * option (list Z)).

(** What the engine has when it acknowledges the entries of a batch. *)
Definition commit (pending : WriteBatch) (d : badgerDB) : badgerDB :=
  {| db_dir := db_dir d;
     kv := foldl (fun m e => match e.2 with
                             | Some v => <[e.1 := v]> m
                             | None => delete e.1 m
                             end) (kv d) pending |}.

(** [mhj.Write(buf)] *)
Definition fw_Write (buf : list Z) (j : flushWriter) : flushWriter :=
  {| fw_dir := fw_dir j; written := written j ++ buf |}.

Record BatchFaults := {
  bf_set : nat -> option Err;      (* batch.Set / batch.Delete for the entry of that index *)
  bf_flush : option Err;           (* batch.Flush *)
  bf_committed : nat;              (* entries the engine had committed on its own
                                      (a full transaction) when the batch failed *)
  bf_write : option (nat * Err)    (* journal Write: bytes written before the error *)
}.

Definition no_batch_faults : BatchFaults :=
  {| bf_set := fun _ => None; bf_flush := None; bf_committed := 0; bf_write := None |}.

Record PutFaults := {
  pf_get : nat -> option Err;      (* txn.Get for the key of that index *)
  pf_active : BatchFaults;
  pf_shadow : BatchFaults
}.

Definition no_put_faults : PutFaults :=
  {| pf_get := fun _ => None; pf_active := no_batch_faults; pf_shadow := no_batch_faults |}.

(** The read-only transaction of [PutMany]: probes every key, sets
    [keys[i] = nil] for the ones the store has, and for the others checks
    the multihash and adds a journal record. *)
Fixpoint probe (get : nat -> option Err) (d : badgerDB) (i : nat)
    (keys : list (list Z)) (blks : list blocks.Block) (jrnl : list Z)
  : (list (option (list Z)) * list Z) + Err :=
  match keys, blks with
  | k :: keys', blk :: blks' =>
      match badgerGet (get i) d k with
      | (_, Some err) => inr err
      | (Some _, None) =>
          match probe get d (S i) keys' blks' jrnl with
          | inl (ks, j) => inl (None :: ks, j)
          | inr err => inr err
          end
      | (None, None) =>
          let mh := cid.Hash (blocks.Cid blk) in
          match isMultihashSupported mh with
          | inr err => inr (Wrap "unsupported multihash for cid" err)
          | inl smh =>
              let jrnl := jrnl ++ journalShortCode smh
                               :: drop (length mh - supportedHashLen) mh in
              match probe get d (S i) keys' blks' jrnl with
              | inl (ks, j) => inl (Some k :: ks, j)
              | inr err => inr err
              end
          end
      end
  | _, _ => inl ([], jrnl)
  end.

(** The loop of the [put] closure: [batch.Set] for every key that is not
    [nil], up to the first error. *)
Fixpoint batch_sets (set : nat -> option Err) (i : nat)
    (keys : list (option (list Z))) (blks : list blocks.Block) (batch : WriteBatch)
  : WriteBatch * option Err :=
  match keys, blks with
  | None :: keys', _ :: blks' => batch_sets set (S i) keys' blks' batch
  | Some k :: keys', blk :: blks' =>
      match set i with
      | Some err => (batch, Some err)
      | None => batch_sets set (S i) keys' blks' (batch ++ [(k, Some (blocks.RawData blk))])
      end
  | _, _ => (batch, None)
  end.

(** The [put] closure of [PutMany], on one database and its journal. *)
Definition put (bf : BatchFaults) (keys : list (option (list Z)))
    (blks : list blocks.Block) (jrnl : list Z)
    (d : badgerDB) (mhj : option flushWriter)
  : badgerDB * option flushWriter * Outcome (option Err) :=
  match batch_sets (bf_set bf) 0 keys blks [] with
  | (batch, Some err) =>
      (commit (take (bf_committed bf) batch) d, mhj, Returned (Some err))
  | (batch, None) =>
      match bf_flush bf with
      | Some err =>
          (commit (take (bf_committed bf) batch) d, mhj,
           Returned (Some (Wrap "failed to put blocks in badger blockstore" err)))
      | None =>
          let d := commit batch d in
          match mhj with
          | None => (d, None, Panicked "invalid memory address or nil pointer dereference")
          | Some j =>
              match bf_write bf with
              | Some (n, err) =>
                  (d, Some (fw_Write (take n jrnl) j),
                   Returned (Some (Wrap "failed to write multihashes to journal" err)))
              | None => (d, Some (fw_Write jrnl j), Returned None)
              end
          end
      end
  end.

(** The deferred return of the key buffers, which [PutMany] and
    [DeleteMany] register only when the store uses a prefix. *)
Definition return_keys (b : Blockstore) (toReturn : list (list Z)) : list Event :=
  if prefixing b then map KeyPoolPut toReturn else [].

Definition is_nil {A} (o : option A) : bool :=
  match o with None => true | Some _ => false end.

Definition PutMany (fl : PutFaults) (b : Blockstore) (blks : list blocks.Block)
  : Result (option Err) :=
  match access b with
  | (b, Some err) => mkResult b [] (Returned (Some err))
  | (b, None) =>
      match lockDB b with
      | None => mkResult b [] Blocked
      | Some b =>
          let ks := map (fun blk => PooledStorageKey b (blocks.Cid blk)) blks in
          let toReturn := map fst (filter (fun kp => snd kp = true) ks) in
          let keys := map fst ks in
          let slab := (length blks * mhJournalRecordLen)%nat in
          let tr := map KeyPoolGet keys ++ [SlabGet slab; SlabPut slab]
                    ++ return_keys b toReturn in
          match probe (pf_get fl) (db b) 0 keys blks [] with
          | inr err => mkResult (leave b) tr (Returned (Some err))
          | inl (keys, jrnl) =>
              let '(d, j, out) := put (pf_active fl) keys blks jrnl (db b) (mhJournal b) in
              let b := set_active d j b in
              match out with
              | Returned None =>
                  match dbNext b with
                  | None => mkResult (leave b) tr (Returned None)
                  | Some dn =>
                      let '(dn, jn, out) :=
                        put (pf_shadow fl) keys blks jrnl dn (mhJournalNext b) in
                      mkResult (leave (set_next (Some dn) jn b)) tr out
                  end
              | _ => mkResult (leave b) tr out
              end
          end
      end
  end.

(** [Put] *)
Definition Put (fl : PutFaults) (b : Blockstore) (blk : blocks.Block) : Result (option Err) :=
  PutMany fl b [blk].

Record DeleteFaults := {
  df_delete : nat -> option Err;   (* batch.Delete for the cid of that index *)
  df_flush : option Err;           (* batch.Flush *)
  df_committed : nat               (* entries committed when the batch failed *)
}.

Definition no_delete_faults : DeleteFaults :=
  {| df_delete := fun _ => None; df_flush := None; df_committed := 0 |}.

(** The loop of [DeleteMany]: the keys taken from the pool so far, the
    batch, and the error of the first failing [batch.Delete]. *)
Fixpoint batch_deletes (del : nat -> option Err) (b : Blockstore) (i : nat)
    (cids : list cid.Cid) (taken : list (list Z * bool)) (batch : WriteBatch)
  : list (list Z * bool) * WriteBatch * option Err :=
  match cids with
  | [] => (taken, batch, None)
  | c :: cids' =>
      let kp := PooledStorageKey b c in
      match del i with
      | Some err => (taken ++ [kp], batch, Some err)
      | None => batch_deletes del b (S i) cids' (taken ++ [kp]) (batch ++ [(kp.1, None)])
      end
  end.

Definition DeleteMany (fl : DeleteFaults) (b : Blockstore) (cids : list cid.Cid)
  : Result (option Err) :=
  match access b with
  | (b, Some err) => mkResult b [] (Returned (Some err))
  | (b, None) =>
      match lockDB b with
      | None => mkResult b [] Blocked
      | Some b =>
          let '(taken, batch, err) := batch_deletes (df_delete fl) b 0 cids [] [] in
          let toReturn := map fst (filter (fun kp => snd kp = true) taken) in
          let tr := map KeyPoolGet (map fst taken) ++ return_keys b toReturn in
          match err with
          | Some err =>
              let d := commit (take (df_committed fl) batch) (db b) in
              mkResult (leave (set_active d (mhJournal b) b)) tr (Returned (Some err))
          | None =>
              match df_flush fl with
              | Some err =>
                  let d := commit (take (df_committed fl) batch) (db b) in
                  mkResult (leave (set_active d (mhJournal b) b)) tr
                    (Returned (Some (Wrap "failed to delete blocks from badger blockstore" err)))
              | None =>
                  mkResult (leave (set_active (commit batch (db b)) (mhJournal b) b)) tr
                    (Returned None)
              end
          end
      end
  end.

(** [DeleteBlock] *)
Definition DeleteBlock (fl : DeleteFaults) (b : Blockstore) (c : cid.Cid)
  : Result (option Err) :=
  DeleteMany fl b [c].

(** *** Iteration *)

(** Byte-wise lexicographic order, the order of a badger iterator. *)
Fixpoint bytes_leb (a b : list Z) : bool :=
  match a, b with
  | [], _ => true
  | _ :: _, [] => false
  | x :: a', y :: b' =>
      if x <? y then true else if y <? x then false else bytes_leb a' b'
  end.

Definition has_prefix (p k : list Z) : bool :=
  bool_decide (take (length p) k = p).

(** The keys a badger iterator visits: all keys in order, or the ones
    that start with [opts.Prefix] when the store uses a prefix. *)
Definition iterator_keys (b : Blockstore) : list (list Z) :=
  let ks := merge_sort (fun x y => bytes_leb x y) (map fst (map_to_list (kv (db b)))) in
  if prefixing b then filter (fun k => has_prefix (prefix b) k = true) ks else ks.

(** The schedule of an iteration: other threads may close the store or
    cancel the context while it runs. *)
Record IterEnv := {
  ie_close_at : option nat;     (* Close() is called before this item is visited *)
  ie_cancel_at : option nat;    (* the context is done before this item is visited *)
  ie_cancel_send : option nat   (* the context is done while this item waits on the channel *)
}.

Definition quiet : IterEnv :=
  {| ie_close_at := None; ie_cancel_at := None; ie_cancel_send := None |}.

Definition reached (at_ : option nat) (i : nat) : bool :=
  match at_ with Some n => (n <=? i)%nat | None => false end.

(** A concurrent [Close] takes the store out of [stateOpen]. *)
Definition closing (env : IterEnv) (i : nat) (b : Blockstore) : Blockstore :=
  if reached (ie_close_at env) i && isOpen b then set_state stateClosing b else b.

(** [k = k[b.prefixLen:]] when the store uses a prefix. *)
Definition strip_prefix (b : Blockstore) (k : list Z) : list Z :=
  if prefixing b then drop (prefixLen b) k else k.

(** The loop of [ForEachKey]: the cids [f] was called with, and the
    error the loop stopped with. *)
Fixpoint ForEachKey_loop (env : IterEnv) (f : cid.Cid -> option Err) (i : nat)
    (b : Blockstore) (ks : list (list Z)) : Blockstore * list cid.Cid * option Err :=
  match ks with
  | [] => (b, [], None)
  | k :: ks' =>
      let b := closing env i b in
      if negb (isOpen b) then (b, [], Some ErrBlockstoreClosed)
      else
        match base32.Decode (strip_prefix b k) with
        | inr p => (b, [], Some (ErrCorruptInput p))
        | inl mh =>
            let c := cid.NewCidV1 cid.Raw mh in
            match f c with
            | Some err => (b, [c], Some err)
            | None =>
                let '(b, cs, err) := ForEachKey_loop env f (S i) b ks' in
                (b, c :: cs, err)
            end
        end
  end.

Definition ForEachKey (env : IterEnv) (b : Blockstore) (f : cid.Cid -> option Err)
  : Result (list cid.Cid * option Err) :=
  match access b with
  | (b, Some err) => mkResult b [] (Returned ([], Some err))
  | (b, None) =>
      match lockDB b with
      | None => mkResult b [] Blocked
      | Some b =>
          let '(b', cs, err) := ForEachKey_loop env f 0 b (iterator_keys b) in
          mkResult (leave b') [] (Returned (cs, err))
      end
  end.

Definition warn_undecodable : string := "failed to decode key in badger AllKeysChan".

(** The producer of [AllKeysChan]: the cids sent on the channel and the
    warnings logged, until the iterator is exhausted, the context is done
    or the store is closing. *)
Fixpoint AllKeysChan_loop (env : IterEnv) (i : nat) (b : Blockstore)
    (ks : list (list Z)) : Blockstore * list cid.Cid * list Event :=
  match ks with
  | [] => (b, [], [])
  | k :: ks' =>
      if reached (ie_cancel_at env) i then (b, [], [])
      else
        let b := closing env i b in
        if negb (isOpen b) then (b, [], [])
        else
          match base32.Decode (strip_prefix b k) with
          | inl mh =>
              if reached (ie_cancel_send env) i then (b, [], [])
              else
                let '(b, cs, tr) := AllKeysChan_loop env (S i) b ks' in
                (b, cid.NewCidV1 cid.Raw mh :: cs, tr)
          | inr _ =>
              let '(b, cs, tr) := AllKeysChan_loop env (S i) b ks' in
              (b, cs, LogWarn warn_undecodable :: tr)
          end
  end.

(** [AllKeysChan]: the channel is given by what a consumer reads from it
    until it is closed; the state is the one after the producer is done. *)
Definition AllKeysChan (env : IterEnv) (b : Blockstore)
  : Result (option (list cid.Cid) * option Err) :=
  match access b with
  | (b, Some err) => mkResult b [] (Returned (None, Some err))
  | (b, None) =>
      match lockDB b with
      | None => mkResult b [] Blocked
      | Some b =>
          let ks := iterator_keys b in
          let b := unlockDB b in
          let '(b', cs, tr) := AllKeysChan_loop env 0 b ks in
          mkResult (viewers_Done b') tr (Returned (Some cs, None))
      end
  end.

(** *** Flush *)

(** [multierr.Combine] *)
Fixpoint Combine (errs : list (option Err)) : option Err :=
  match errs with
  | [] => None
  | None :: errs' => Combine errs'
  | Some e :: errs' =>
      match Combine errs' with
      | None => Some e
      | Some e' => Some (ErrCombined e e')
      end
  end.

Record FlushFaults := {
  ff_dbNext : option Err;          (* b.dbNext.Sync() *)
  ff_mhJournalNext : option Err;   (* b.mhJournalNext.Sync() *)
  ff_mhJournal : option Err;       (* b.mhJournal.Sync() *)
  ff_db : option Err               (* b.db.Sync() *)
}.

Definition Flush (fl : FlushFaults) (b : Blockstore) : Result (option Err) :=
  match access b with
  | (b, Some err) => mkResult b [] (Returned (Some err))
  | (b, None) =>
      match lockDB b with
      | None => mkResult b [] Blocked
      | Some b =>
          let multiErr :=
            if is_nil (dbNext b) then None
            else Combine [ff_dbNext fl; ff_mhJournalNext fl] in
          let multiErr :=
            if is_nil (mhJournal b) then multiErr
            else Combine [multiErr; ff_mhJournal fl] in
          mkResult (leave b) [] (Returned (Combine [multiErr; ff_db fl]))
      end
  end.

(** *** The file system and the open handles *)

Inductive node :=
| DirNode
| LinkNode (relative : bool) (target : path).

(** The world outside the store: directories and symbolic links by path,
    and the directories on which a badger handle or a journal file is
    open. Symbolic links are followed on the last component of a path. *)
Record Sys := {
  fs : gmap path node;
  dbs : gset path;
  journals : gset path
}.

Definition set_fs (f : gmap path node) (w : Sys) : Sys :=
  {| fs := f; dbs := dbs w; journals := journals w |}.
Definition set_dbs (d : gset path) (w : Sys) : Sys :=
  {| fs := fs w; dbs := d; journals := journals w |}.
Definition set_journals (j : gset path) (w : Sys) : Sys :=
  {| fs := fs w; dbs := dbs w; journals := j |}.

Definition filepath_Base (p : path) : string := List.last p "/".
Definition filepath_Dir (p : path) : path := removelast p.
Definition filepath_Join (dir : path) (name : string) : path := dir ++ [name].

(** [fmt.Sprintf("%s%s", p, suffix)] *)
Definition with_suffix (p : path) (suffix : string) : path :=
  removelast p ++ [List.last p "" +:+ suffix].

Definition ENOENT : Err := ErrIO 2.
Definition ELOOP : Err := ErrIO 40.
Definition EEXIST : Err := ErrIO 17.

Fixpoint EvalSymlinks_fuel (fuel : nat) (f : gmap path node) (p : path) : path + Err :=
  match f !! p with
  | None => inr ENOENT
  | Some DirNode => inl p
  | Some (LinkNode rel t) =>
      match fuel with
      | O => inr ELOOP
      | S fuel' =>
          EvalSymlinks_fuel fuel' f (if rel then filepath_Dir p ++ t else t)
      end
  end.

(** [filepath.EvalSymlinks]; the os gives up after 255 links. *)
Definition EvalSymlinks (f : gmap path node) (p : path) : path + Err :=
  EvalSymlinks_fuel 255 f p.

Definition is_below (root p : path) : bool :=
  bool_decide (take (length root) p = root).

(** [os.RemoveAll] *)
Definition RemoveAll (p : path) (f : gmap path node) : gmap path node :=
  filter (fun e => is_below p e.1 = false) f.

Record FsFaults := {
  fsf_removeall : option Err;      (* os.RemoveAll *)
  fsf_remove : option Err;         (* os.Remove *)
  fsf_rename : option Err;         (* os.Rename *)
  fsf_symlink : option Err         (* os.Symlink *)
}.

Definition no_fs_faults : FsFaults :=
  {| fsf_removeall := None; fsf_remove := None; fsf_rename := None; fsf_symlink := None |}.

(** [deleteDB]: follows the link, removes the data directory and then the
    link; every failure is logged and ends the attempt. *)
Definition deleteDB (fl : FsFaults) (p : path) (w : Sys) : Sys * list Event :=
  match EvalSymlinks (fs w) p with
  | inr _ => (w, [LogWarn "error resolving symlinks"])
  | inl linkPath =>
      match fsf_removeall fl with
      | Some _ => (w, [LogInfo "removing data directory"; LogWarn "error deleting db"])
      | None =>
          let w := set_fs (RemoveAll linkPath (fs w)) w in
          if bool_decide (p = linkPath) then (w, [LogInfo "removing data directory"])
          else
            match fsf_remove fl with
            | Some _ =>
                (w, [LogInfo "removing data directory"; LogInfo "removing link";
                     LogWarn "error removing symbolic link"])
            | None =>
                (set_fs (delete p (fs w)) w,
                 [LogInfo "removing data directory"; LogInfo "removing link"])
            end
      end
  end.

(** [os.Rename] *)
Definition Rename (fl : FsFaults) (old new : path) (w : Sys) : Sys * option Err :=
  match fsf_rename fl with
  | Some err => (w, Some err)
  | None =>
      match fs w !! old with
      | None => (w, Some ENOENT)
      | Some n => (set_fs (<[new := n]> (delete old (fs w))) w, None)
      end
  end.

(** [symlink]: a link at [linkTo] to [p], relative when the two are in
    the same directory. *)
Definition symlink (fl : FsFaults) (p linkTo : path) (w : Sys) : Sys * option Err :=
  match EvalSymlinks (fs w) (filepath_Dir p) with
  | inr err => (w, Some (Wrap "error resolving links" err))
  | inl resolvedPathDir =>
      match EvalSymlinks (fs w) (filepath_Dir linkTo) with
      | inr err => (w, Some (Wrap "error resolving links" err))
      | inl resolvedLinkDir =>
          let rel := bool_decide (resolvedPathDir = resolvedLinkDir) in
          let target := if rel then [filepath_Base p] else p in
          match fsf_symlink fl with
          | Some err => (w, Some err)
          | None =>
              match fs w !! linkTo with
              | Some _ => (w, Some EEXIST)
              | None => (set_fs (<[linkTo := LinkNode rel target]> (fs w)) w, None)
              end
          end
      end
  end.

(** *** Open and Close *)

(** [badger.Open]: creates the directory when it is missing and hands out
    what the directory holds ([found], for a directory that was there). *)
Definition badger_Open (fault : option Err) (found : gmap (list Z) (list Z))
    (dir : path) (w : Sys) : Sys * (badgerDB + Err) :=
  match fault with
  | Some err => (w, inr err)
  | None =>
      match fs w !! dir with
      | None =>
          (set_dbs ({[dir]} ∪ dbs w) (set_fs (<[dir := DirNode]> (fs w)) w),
           inl {| db_dir := dir; kv := ∅ |})
      | Some _ =>
          (set_dbs ({[dir]} ∪ dbs w) w, inl {| db_dir := dir; kv := found |})
      end
  end.

(** [openJournal]: opens [dir/MultiHashes.bin] for appending. *)
Definition openJournal (fault : option Err) (dir : path) (w : Sys)
  : Sys * (flushWriter + Err) :=
  match fault with
  | Some err => (w, inr err)
  | None => (set_journals ({[dir]} ∪ journals w) w, inl {| fw_dir := dir; written := [] |})
  end.

Record OpenEnv := {
  oe_badger : option Err;                  (* badger.Open *)
  oe_found : gmap (list Z) (list Z);       (* the content of an existing directory *)
  oe_journal : option Err                  (* openJournal *)
}.

Definition Open (env : OpenEnv) (w : Sys) (o : Options) : Sys * (Blockstore + Err) :=
  match badger_Open (oe_badger env) (oe_found env) (Dir o) w with
  | (w, inr err) => (w, inr (Wrap "failed to open badger blockstore" err))
  | (w, inl d) =>
      let bs := {| state := stateOpen; viewers := 0; moveState := moveStateNone; rlock := 0;
                   db := d; mhJournal := None; dbNext := None; mhJournalNext := None;
                   opts := o;
                   prefixing := negb (bool_decide (Prefix o = []));
                   prefix := Prefix o;
                   prefixLen := length (Prefix o) |} in
      if ReadOnly o then (w, inl bs)
      else
        match openJournal (oe_journal env) (Dir o) w with
        | (w, inr err) => (w, inr err)
        | (w, inl j) => (w, inl (set_active d (Some j) bs))
        end
  end.

Record CloseFaults := {
  cf_db : option Err;           (* b.db.Close() *)
  cf_mhJournal : option Err     (* b.mhJournal.Close() *)
}.

(** [db.Close()] and [file.Close()] give the handle up whatever they
    return. *)
Definition close_db (d : badgerDB) (w : Sys) : Sys := set_dbs (dbs w ∖ {[db_dir d]}) w.
Definition close_journal (j : flushWriter) (w : Sys) : Sys :=
  set_journals (journals w ∖ {[fw_dir j]}) w.

Definition Close (fl : CloseFaults) (w : Sys) (b : Blockstore) : Sys * Result (option Err) :=
  match state b with
  | stateOpen =>
      let b := set_state stateClosing b in
      (* b.viewers.Wait() *)
      if negb (viewers b =? 0) then (w, mkResult b [] Blocked)
      else
        let w := close_db (db b) w in
        let err := option_map (Wrap "failure closing the badger blockstore") (cf_db fl) in
        let tr := if is_nil err then [] else [LogWarn "failure closing the badger blockstore"] in
        match mhJournal b with
        | None => (w, mkResult (set_state stateClosed b) tr (Returned err))
        | Some j =>
            let w := close_journal j w in
            match cf_mhJournal fl with
            | None => (w, mkResult (set_state stateClosed b) tr (Returned err))
            | Some errMj =>
                let errMj := Wrap "failure closing the multihash journal" errMj in
                (w, mkResult (set_state stateClosed b)
                      (tr ++ [LogWarn "failure closing the multihash journal"])
                      (Returned (if is_nil err then Some errMj else err)))
            end
        end
  | _ => (w, mkResult b [] (Returned None))
  end.

(** *** The copy of the moving GC *)

(** [badgerstruct.KV], with [nil] keys and values. *)
Record KV := {
  Key : option (list Z);
  Value : option (list Z)
}.

Record CopyEnv := {
  ce_groups : list (list KV);            (* the KV lists the stream of the source sends *)
  ce_ctx : nat -> option Err;            (* ctx.Err() at the list of that index *)
  ce_set : nat -> nat -> option Err;     (* batch.Set for list n, entry i *)
  ce_write : nat -> option (nat * Err);  (* journal Write for list n *)
  ce_stream : option Err;                (* stream.Orchestrate, when every Send was fine *)
  ce_flush : option Err;                 (* the final batch.Flush *)
  ce_committed : nat                     (* entries committed when the batch failed *)
}.

(** [varint.MaxLenUvarint63 + supportedHashLen], the size of [mhBuf]. *)
Definition mhBufLen : nat := varint.MaxLenUvarint63 + supportedHashLen.

(** The entries of one KV list. [stream.Orchestrate] calls the function
    on a goroutine of its own, so its two panics, on a key shorter than
    the prefix and on a key that decodes to more bytes than [mhBuf] has,
    are recovered by nobody and end the process. *)
Fixpoint copy_kvs (set : nat -> option Err) (b : Blockstore) (i : nat)
    (kvs : list (list Z * list Z)) (batch : WriteBatch) (jrnl : list Z)
  : WriteBatch * list Z * Outcome (option Err) :=
  match kvs with
  | [] => (batch, jrnl, Returned None)
  | (key, val) :: kvs' =>
      if (length key <? prefixLen b)%nat
      then (batch, jrnl, Died "slice bounds out of range")
      else
        match base32.Decode (drop (prefixLen b) key) with
        | inr p =>
            (batch, jrnl, Returned (Some (ErrUndecodableKey (drop (prefixLen b) key) p)))
        | inl mh =>
            if (mhBufLen <? length mh)%nat
            then (batch, jrnl, Died "index out of range")
            else
              match isMultihashSupported mh with
              | inr err =>
                  (batch, jrnl, Returned (Some (Wrap "unsupported multihash for key" err)))
              | inl smh =>
                  match set i with
                  | Some err => (batch, jrnl, Returned (Some err))
                  | None =>
                      copy_kvs set b (S i) kvs' (batch ++ [(key, Some val)])
                        (jrnl ++ journalShortCode smh
                              :: drop (length mh - supportedHashLen) mh)
                  end
              end
        end
  end.

(** The filter of [iterateBadger]: entries with a key and a value. *)
Definition sendable (kvl : list KV) : list (list Z * list Z) :=
  omap (fun e => match Key e, Value e with
                 | Some k, Some v => Some (k, v)
                 | _, _ => None
                 end) kvl.

Fixpoint copy_groups (env : CopyEnv) (b : Blockstore) (g : nat) (groups : list (list KV))
    (batch : WriteBatch) (jrnlFh : flushWriter)
  : WriteBatch * flushWriter * list Event * Outcome (option Err) :=
  match groups with
  | [] => (batch, jrnlFh, [], Returned None)
  | kvl :: groups' =>
      match sendable kvl with
      | [] => copy_groups env b (S g) groups' batch jrnlFh
      | kvs =>
          match ce_ctx env g with
          | Some err => (batch, jrnlFh, [], Returned (Some err))
          | None =>
              let slab := (length kvs * mhJournalRecordLen)%nat in
              let tr := [SlabGet slab; SlabGet mhBufLen; SlabPut mhBufLen; SlabPut slab] in
              match copy_kvs (ce_set env g) b 0 kvs batch [] with
              | (batch, jrnl, Returned None) =>
                  match ce_write env g with
                  | Some (n, err) =>
                      (batch, fw_Write (take n jrnl) jrnlFh, tr,
                       Returned (Some (Wrap "failed to write multihashes to journal" err)))
                  | None =>
                      let '(batch, jrnlFh, tr', out) :=
                        copy_groups env b (S g) groups' batch (fw_Write jrnl jrnlFh) in
                      (batch, jrnlFh, tr ++ tr', out)
                  end
              | (batch, _, out) => (batch, jrnlFh, tr, out)
              end
          end
      end
  end.

(** [doCopy]: the deferred function flushes the batch when no error was
    returned and cancels it otherwise. When the process dies in the
    callback the deferred function does not run: the target holds what
    the engine had committed on its own. *)
Definition doCopy (env : CopyEnv) (b : Blockstore) (to : badgerDB) (jrnlFh : flushWriter)
  : badgerDB * flushWriter * list Event * Outcome (option Err) :=
  let '(batch, jrnlFh, tr, out) := copy_groups env b 0 (ce_groups env) [] jrnlFh in
  match out with
  | Died msg => (commit (take (ce_committed env) batch) to, jrnlFh, tr, Died msg)
  | _ =>
      let out := match out with
                 | Returned None => Returned (ce_stream env)
                 | _ => out
                 end in
      match out with
      | Returned (Some err) =>
          (commit (take (ce_committed env) batch) to, jrnlFh, tr, Returned (Some err))
      | _ =>
          match ce_flush env with
          | None => (commit batch to, jrnlFh, tr, out)
          | Some err =>
              (commit (take (ce_committed env) batch) to, jrnlFh, tr,
               match out with
               | Returned _ => Returned (Some err)
               | _ => out
               end)
          end
      end
  end.

(** *** The moving GC *)

Record MoveEnv := {
  me_nanos : Z;                          (* time.Now().UnixNano() *)
  me_secs : Z;                           (* time.Now().Unix() *)
  me_open : option Err;                  (* badger.Open of the new directory *)
  me_found : gmap (list Z) (list Z);     (* its content, had it been there *)
  me_journal : option Err;               (* openJournal of the new directory *)
  me_copy : CopyEnv;
  me_close_next : option Err;            (* dbNext.Close() of the clean-up *)
  me_close_journal_next : option Err;    (* mhJournalNext.Close() of the clean-up *)
  me_close_old : option Err;             (* dbOld.Close() *)
  me_close_journal_old : option Err;     (* mhjOld.Close() *)
  me_fs : FsFaults
}.

Definition warn_if (fault : option Err) (msg : string) : list Event :=
  if is_nil fault then [] else [LogWarn msg].

(** The deferred function of [movingGC]. [None] is a clean-up that waits
    for ever in [lockMove]. *)
Definition movingGC_cleanup (env : MoveEnv) (newPath : path) (w : Sys) (b : Blockstore)
  : option (Sys * Blockstore * list Event) :=
  match lockMove b with
  | None => None
  | Some b =>
      let dbNext' := dbNext b in
      let mhJournalNext' := mhJournalNext b in
      let b := set_next None None b in
      match dbNext' with
      | None => Some (w, unlockMove moveStateNone b, [])
      | Some dn =>
          let b := unlockMove moveStateCleanup b in
          (* the move failed and we have a left-over db; delete it. *)
          let w := close_db dn w in
          (* both fields are assigned together, so the journal is there *)
          let w := match mhJournalNext' with
                   | Some jn => close_journal jn w
                   | None => w
                   end in
          let '(w, tr) := deleteDB (me_fs env) newPath w in
          match lockMove b with
          | None => None
          | Some b =>
              Some (w, unlockMove moveStateNone b,
                    warn_if (me_close_next env) "error closing badger db"
                    ++ warn_if (me_close_journal_next env) "error closing multihash journal"
                    ++ tr)
          end
      end
  end.

(** The new path: next to the store, or next to what the store directory
    links to, with the store's own name and a time stamp. *)
Definition new_path (basePath linkPath : path) (nanos : Z) : path :=
  let p := if bool_decide (basePath = linkPath) then basePath
           else filepath_Join (filepath_Dir linkPath) (filepath_Base basePath) in
  with_suffix p ("." +:+ pretty nanos).

(** [movingGC] between the first fence and the deferred clean-up: the
    world, the store, the log, the value of [newPath] and the result. *)
Definition movingGC_body (env : MoveEnv) (w : Sys) (b : Blockstore)
  : Sys * Blockstore * list Event * path * Outcome (option Err) :=
  let basePath := Dir (opts b) in
  match EvalSymlinks (fs w) basePath with
  | inr err => (w, b, [], [], Returned (Some (Wrap "error resolving symlink" err)))
  | inl linkPath =>
      let newPath := new_path basePath linkPath (me_nanos env) in
      let tr := [LogInfo "moving blockstore"] in
      match badger_Open (me_open env) (me_found env) newPath w with
      | (w, inr err) =>
          (w, b, tr, newPath, Returned (Some (Wrap "failed to open badger blockstore" err)))
      | (w, inl dbNew) =>
          match openJournal (me_journal env) newPath w with
          | (w, inr err) => (w, b, tr, newPath, Returned (Some err))
          | (w, inl mhjNew) =>
              match lockMove b with
              | None => (w, b, tr, newPath, Blocked)
              | Some b =>
                  let b := unlockMove moveStateMoving (set_next (Some dbNew) (Some mhjNew) b) in
                  let tr := tr ++ [LogInfo "copying blockstore"] in
                  let '(dn, jn, tr', out) := doCopy (me_copy env) b dbNew mhjNew in
                  let b := set_next (Some dn) (Some jn) b in
                  let tr := tr ++ tr' in
                  match out with
                  | Returned None =>
                      match lockMove b with
                      | None => (w, b, tr, newPath, Blocked)
                      | Some b =>
                          let dbOld := db b in
                          let mhjOld := mhJournal b in
                          let b := unlockMove moveStateCleanup
                                     (set_next None None (set_active dn (Some jn) b)) in
                          let w := close_db dbOld w in
                          let tr := tr ++ warn_if (me_close_old env)
                                              "error closing old badger db" in
                          let '(w, tr) :=
                            match mhjOld with
                            | Some j =>
                                (close_journal j w,
                                 tr ++ warn_if (me_close_journal_old env)
                                         "error closing old multihash journal")
                            | None => (w, tr)
                            end in
                          let dbPath := Dir (opts b) in
                          let backupPath := with_suffix dbPath (".old." +:+ pretty (me_secs env)) in
                          match Rename (me_fs env) dbPath backupPath w with
                          | (w, Some _) =>
                              (w, b, tr, newPath,
                               Panicked "error renaming old badger db dir; USER ACTION REQUIRED")
                          | (w, None) =>
                              match symlink (me_fs env) newPath dbPath w with
                              | (w, Some _) =>
                                  (w, b, tr, newPath,
                                   Panicked "error symlinking new badger db dir; USER ACTION REQUIRED")
                              | (w, None) =>
                                  let '(w, tr') := deleteDB (me_fs env) backupPath w in
                                  (w, b, tr ++ tr' ++ [LogInfo "moving blockstore done"],
                                   newPath, Returned None)
                              end
                          end
                      end
                  | Returned (Some err) =>
                      (w, b, tr, newPath,
                       Returned (Some (Wrap "error moving badger blockstore" err)))
                  | _ => (w, b, tr, newPath, out)
                  end
              end
          end
      end
  end.

Definition is_moveStateNone (m : bsMoveState) : bool :=
  match m with moveStateNone => true | _ => false end.

(** The operating system closes every handle of a process that dies. *)
Definition dead (w : Sys) : Sys := set_journals ∅ (set_dbs ∅ w).

Definition movingGC (env : MoveEnv) (w : Sys) (b : Blockstore) : Sys * Result (option Err) :=
  if negb (is_moveStateNone (moveState b))
  then (w, mkResult b [] (Returned (Some ErrMoveInProgress)))
  else
    let b := set_moveState moveStateLock b in
    if 0 <? rlock b then (w, mkResult b [] Blocked)
    else
      let b := set_moveState moveStateMoving b in
      let '(w, b, tr, newPath, out) := movingGC_body env w b in
      match out with
      | Blocked => (w, mkResult b tr Blocked)
      | Died msg => (dead w, mkResult b tr (Died msg))
      | _ =>
          match movingGC_cleanup env newPath w b with
          | None => (w, mkResult b tr Blocked)
          | Some (w, b, tr') => (w, mkResult b (tr ++ tr') out)
          end
      end.

(** *** The online GC and the GC entry points *)

(** [blockstore.BlockstoreGCOptions]. [Check] gives the result of its
    n-th call. The threshold and the check frequency only parameterise the
    engine and the timer, whose behaviour is the schedule below. *)
Record BlockstoreGCOptions := {
  FullGC : bool;
  Check : option (nat -> option Err)
}.

Definition BlockstoreGCOption := BlockstoreGCOptions -> BlockstoreGCOptions * option Err.

(** What the [select] of the online GC loop picks at each round. *)
Inductive GCStep :=
| StepCtxDone                     (* <-ctx.Done() *)
| StepTick                        (* <-checkTick.C *)
| StepValueLogGC (err : option Err).  (* default: b.db.RunValueLogGC(threshold) *)

Record GCEnv := {
  ge_flatten : option Err;        (* b.db.Flatten(nworkers) *)
  ge_steps : list GCStep;         (* the rounds of the online GC loop *)
  ge_once : option Err;           (* b.db.RunValueLogGC(threshold) of GCOnce *)
  ge_move : MoveEnv
}.

Fixpoint onlineGC_loop (check : nat -> option Err) (ticks : nat) (steps : list GCStep)
  : Outcome (option Err) :=
  match steps with
  | [] => Blocked
  | StepCtxDone :: _ => Returned (Some ErrContext)
  | StepTick :: steps' =>
      match check ticks with
      | Some err => Returned (Some err)
      | None => onlineGC_loop check (S ticks) steps'
      end
  | StepValueLogGC (Some err) :: _ => Returned (Some err)
  | StepValueLogGC None :: steps' => onlineGC_loop check ticks steps'
  end.

(** [badger.ErrNoRewrite] signals the end of GC. *)
Definition end_of_gc (out : Outcome (option Err)) : Outcome (option Err) :=
  match out with
  | Returned (Some ErrNoRewrite) => Returned None
  | _ => out
  end.

Definition onlineGC (env : GCEnv) (b : Blockstore) (check : nat -> option Err)
  : Blockstore * Outcome (option Err) :=
  match lockDB b with
  | None => (b, Blocked)
  | Some b =>
      match ge_flatten env with
      | Some err => (unlockDB b, Returned (Some err))
      | None => (unlockDB b, end_of_gc (onlineGC_loop check 0 (ge_steps env)))
      end
  end.

(** Applies the options in order, up to the first one that fails. *)
Fixpoint apply_options (os : list BlockstoreGCOption) (options : BlockstoreGCOptions)
  : BlockstoreGCOptions * option Err :=
  match os with
  | [] => (options, None)
  | opt :: os' =>
      match opt options with
      | (options, Some err) => (options, Some err)
      | (options, None) => apply_options os' options
      end
  end.

Definition no_options : BlockstoreGCOptions := {| FullGC := false; Check := None |}.

Definition CollectGarbage (env : GCEnv) (w : Sys) (b : Blockstore)
    (os : list BlockstoreGCOption) : Sys * Result (option Err) :=
  match access b with
  | (b, Some err) => (w, mkResult b [] (Returned (Some err)))
  | (b, None) =>
      match apply_options os no_options with
      | (_, Some err) => (w, mkResult (viewers_Done b) [] (Returned (Some err)))
      | (options, None) =>
          if FullGC options then
            let '(w, r) := movingGC (ge_move env) w b in
            match r_out r with
            | Died msg => (w, r)
            | _ => (w, mkResult (viewers_Done (r_store r)) (r_trace r) (r_out r))
            end
          else
            let check := match Check options with
                         | Some f => f
                         | None => fun _ => None
                         end in
            let '(b, out) := onlineGC env b check in
            (w, mkResult (viewers_Done b) [] out)
      end
  end.

Definition GCOnce (env : GCEnv) (b : Blockstore) (os : list BlockstoreGCOption)
  : Result (option Err) :=
  match access b with
  | (b, Some err) => mkResult b [] (Returned (Some err))
  | (b, None) =>
      match apply_options os no_options with
      | (_, Some err) => mkResult (viewers_Done b) [] (Returned (Some err))
      | (options, None) =>
          if FullGC options then mkResult (viewers_Done b) [] (Returned (Some ErrFullGCOnce))
          else
            match lockDB b with
            | None => mkResult b [] Blocked
            | Some b =>
                mkResult (leave b) [] (end_of_gc (Returned (ge_once env)))
            end
      end
  end.

(** *** Worker counts and the size of the store *)

(** [between] *)
Definition between (min max val : Z) : Z :=
  let val := if max <? val then max else val in
  if val <? min then min else val.

(** The workers of [iterateBadger]: [IterateLSMWorkers], and when that
    is zero, half the CPUs between 2 and 8. *)
Definition iterate_workers (IterateLSMWorkers NumCPU : Z) : Z :=
  if IterateLSMWorkers =? 0 then between 2 8 (Z.quot NumCPU 2) else IterateLSMWorkers.

(** The workers [onlineGC] flattens with: half the CPUs, at least 2 and
    at most 7. *)
Definition flatten_workers (NumCPU : Z) : Z :=
  let nworkers := Z.quot NumCPU 2 in
  let nworkers := if nworkers <? 2 then 2 else nworkers in
  if 7 <? nworkers then 7 else nworkers.

(** What the os answers to [Size]: the entries of a directory, and the
    size of a file when [os.Stat] finds it. *)
Record SizeEnv := {
  se_ReadDir : path -> list string + Err;
  se_Stat : path -> option Z
}.

(** Addition on [int64]. *)
Definition wrap64 (x : Z) : Z := (x + 2 ^ 63) mod 2 ^ 64 - 2 ^ 63.

(** The loop of [Size]. The error of [os.Stat] is dropped, so a file
    that is gone leaves a nil [FileInfo] whose [Size()] panics. *)
Fixpoint Size_loop (stat : path -> option Z) (dir : path) (entries : list string)
    (size : Z) : Outcome Z :=
  match entries with
  | [] => Returned size
  | e :: entries' =>
      match stat (filepath_Join dir e) with
      | None => Panicked "invalid memory address or nil pointer dereference"
      | Some n => Size_loop stat dir entries' (wrap64 (size + n))
      end
  end.

(** [Size]: the sum of the sizes of the entries of the store directory;
    the store is neither entered nor locked. *)
Definition Size (env : SizeEnv) (b : Blockstore) : Outcome (Z * option Err) :=
  match se_ReadDir env (Dir (opts b)) with
  | inr err => Returned (0, Some err)
  | inl entries =>
      match Size_loop (se_Stat env) (Dir (opts b)) entries 0 with
      | Returned size => Returned (size, None)
      | Panicked msg => Panicked msg
      | Blocked => Blocked
      | Died msg => Died msg
      end
  end.

End badgerbs.

(** ** Vocabulary of the properties *)

Module spec.
Import badgerbs.

(** What [Open] establishes for the key codec and no operation changes:
    [prefixLen] is the length of the prefix, and the store uses the
    prefix exactly when it is not empty. *)
Definition codec_inv (b : Blockstore) : Prop :=
  prefixLen b = length (prefix b) ∧
  prefixing b = negb (bool_decide (prefix b = [])).

(** The storage key of a cid. *)
Definition key_of (b : Blockstore) (c : cid.Cid) : list Z := (PooledStorageKey b c).1.

(** The store is open and no exclusive holder of the move lock keeps
    shared holders out: an operation gets past the gate and [lockDB]. *)
Definition enterable (b : Blockstore) : Prop :=
  state b = stateOpen ∧ (rlock b =? 0) && is_moveStateLock (moveState b) = false.

(** [b'] differs from [b] at most in the two databases and journals. *)
Definition frame (b b' : Blockstore) : Prop :=
  state b' = state b ∧ viewers b' = viewers b ∧ rlock b' = rlock b ∧
  moveState b' = moveState b ∧ opts b' = opts b ∧
  prefixing b' = prefixing b ∧ prefix b' = prefix b ∧ prefixLen b' = prefixLen b.

(** The keys of a batch of blocks, in order. *)
Definition keys_of (b : Blockstore) (blks : list blocks.Block) : list (list Z) :=
  map (fun blk => key_of b (blocks.Cid blk)) blks.

(** A multihash the digest policy knows: a prefix of the table followed
    by a digest of 32 bytes. *)
Definition supported (mh : list Z) : Prop :=
  exists pfx d, mh = pfx ++ d ∧ is_Some (supportedMultihashes !! pfx) ∧
                length d = supportedHashLen.

(** The cid an iteration makes of a key, when the key decodes. *)
Definition decoded (b : Blockstore) (k : list Z) : option cid.Cid :=
  match base32.Decode (strip_prefix b k) with
  | inl mh => Some (cid.NewCidV1 cid.Raw mh)
  | inr _ => None
  end.

(** The key buffers a trace took from the pool and did not return. *)
Fixpoint remove_first (k : list Z) (l : list (list Z)) : list (list Z) :=
  match l with
  | [] => []
  | x :: l' => if bool_decide (x = k) then l' else x :: remove_first k l'
  end.

Fixpoint outstanding_from (held : list (list Z)) (tr : list Event) : list (list Z) :=
  match tr with
  | [] => held
  | KeyPoolGet k :: tr' => outstanding_from (held ++ [k]) tr'
  | KeyPoolPut k :: tr' => outstanding_from (remove_first k held) tr'
  | _ :: tr' => outstanding_from held tr'
  end.

Definition outstanding (tr : list Event) : list (list Z) := outstanding_from [] tr.

(** An entry of a write batch that sets a value. *)
Definition is_insert (e : list Z * option (list Z)) : Prop := is_Some e.2.

(** The write batch [put] builds when no [batch.Set] fails. *)
Definition batch_of (keys : list (option (list Z))) (blks : list blocks.Block) : WriteBatch :=
  (batch_sets (fun _ => None) 0 keys blks []).1.

(** The journal record of a multihash: the short code of its family and
    the last 32 bytes, the digest. *)
Definition journal_record (mh : list Z) : list Z :=
  match isMultihashSupported mh with
  | inl smh => journalShortCode smh :: drop (length mh - supportedHashLen) mh
  | inr _ => []
  end.

(** The blocks of a batch whose key is not in the database. *)
Definition fresh_blocks (b : Blockstore) (blks : list blocks.Block) : list blocks.Block :=
  filter (fun blk => kv (db b) !! key_of b (blocks.Cid blk) = None) blks.

(** Every key of the database is the prefix followed by the base32 text
    of a multihash of the digest policy. *)
Definition keys_wellformed (b : Blockstore) : Prop :=
  forall k, is_Some (kv (db b) !! k) ->
    exists mh, k = prefix b ++ base32.Encode mh ∧ supported mh.

(** Everything a stream sends on, in order. *)
Definition sent (groups : list (list KV)) : list (list Z * list Z) :=
  concat (map sendable groups).

(** The multihash the copy reads off a key and accepts. *)
Definition copied_mh (b : Blockstore) (key : list Z) : option (list Z) :=
  match base32.Decode (drop (prefixLen b) key) with
  | inl mh =>
      match isMultihashSupported mh with
      | inl _ => Some mh
      | inr _ => None
      end
  | inr _ => None
  end.

(** The journal record the copy writes for a key. *)
Definition key_record (b : Blockstore) (key : list Z) : list Z :=
  match copied_mh b key with
  | Some mh => journal_record mh
  | None => []
  end.

(** The database [badger.Open] hands out for a directory. *)
Definition opened (found : gmap (list Z) (list Z)) (dir : path) (w : Sys) : badgerDB :=
  {| db_dir := dir; kv := match fs w !! dir with None => ∅ | Some _ => found end |}.

(** The entries of a batch that set the pairs of a list. *)
Definition inserts (kvs : list (list Z * list Z)) : WriteBatch :=
  map (fun e => (e.1, Some e.2)) kvs.

(** The sum of the sizes [os.Stat] reports for the entries of a
    directory; a missing file counts as nothing. *)
Definition total_size (stat : path -> option Z) (dir : path) (entries : list string) : Z :=
  foldr (fun e acc => default 0 (stat (filepath_Join dir e)) + acc) 0 entries.

(** Every key of the database is the prefix followed by the base32 text
    of a string of bytes. *)
Definition keys_encoded (b : Blockstore) : Prop :=
  forall k, is_Some (kv (db b) !! k) ->
    exists mh, k = prefix b ++ base32.Encode mh ∧ bytes_ok mh.

(** The warnings a listing logs for the keys that do not decode. *)
Definition warnings (b : Blockstore) (ks : list (list Z)) : list Event :=
  map (fun _ => LogWarn warn_undecodable) (filter (fun k => decoded b k = None) ks).

(** The wait group and the shared lock count are as they were. *)
Definition balanced (b b' : Blockstore) : Prop :=
  viewers b' = viewers b ∧ rlock b' = rlock b.

(** An operation that has come to an end has left the gate balanced, and
    a [Close] that follows it on a store nothing else uses does not wait. *)
Definition gate_kept {A} (b : Blockstore) (r : Result A) : Prop :=
  r_out r <> Blocked ->
  balanced b (r_store r) ∧
  (viewers b = 0 -> forall cfl w, r_out (Close cfl w (r_store r)).2 <> Blocked).


(** The call has not ended with the death of the process. *)
Definition alive {A} (o : Outcome A) : Prop := forall msg, o <> Died msg.

(** The copy dies at a key that is shorter than the prefix, or that
    decodes to more bytes than [mhBuf] has. *)
Definition deadly (b : Blockstore) (key : list Z) : Prop :=
  (length key < prefixLen b)%nat ∨
  exists mh, base32.Decode (drop (prefixLen b) key) = inl mh ∧ (mhBufLen < length mh)%nat.

(** What the stream of badger hands out for an entry of the database: the
    key, and the value, which is [nil] when the entry has no bytes. *)
Definition streamed (e : list Z * list Z) : KV :=
  {| Key := Some e.1; Value := if bool_decide (e.2 = []) then None else Some e.2 |}.

(** The stream delivers every entry of the store once, in any order and
    any grouping. *)
Definition streams (groups : list (list KV)) (b : Blockstore) : Prop :=
  concat groups ≡ₚ map streamed (map_to_list (kv (db b))).

(** The entries of a database that have bytes. *)
Definition with_bytes (m : gmap (list Z) (list Z)) : gmap (list Z) (list Z) :=
  filter (fun e => e.2 ≠ []) m.

(** The exclusive move lock is held and no shared holder is inside. *)
Definition fenced (b : Blockstore) : Prop :=
  state b = stateOpen ∧ rlock b = 0 ∧ moveState b = moveStateLock.

End spec.

(** ** Concrete stores for the scenarios *)

Module scenarios.
Import badgerbs spec.

Definition store_dir : path := ["tmp"; "bs"].

(** BLAKE2b-256 multihash [A0 E4 02 20 || 32*0x11] and its cid. *)
Definition blake_mh : list Z := [160; 228; 2; 32] ++ replicate 32 17.
Definition blake_cid : cid.Cid := cid.NewCidV1 cid.Raw blake_mh.

(** A multihash with the unknown code [F0 01] and a 32-byte digest. *)
Definition unknown_mh : list Z := [240; 1; 32] ++ replicate 32 7.
Definition unknown_cid : cid.Cid := cid.NewCidV1 cid.Raw unknown_mh.

(** SHA2-256 multihash [12 20 || 32*0x22] and its cid. *)
Definition sha2_mh : list Z := [18; 32] ++ replicate 32 34.
Definition sha2_cid : cid.Cid := cid.NewCidV1 cid.Raw sha2_mh.

(** "hello" and "HELLO" *)
Definition hello : list Z := [104; 101; 108; 108; 111].
Definition HELLO : list Z := [72; 69; 76; 76; 79].

Definition store_opts (pfx : list Z) : Options :=
  {| Dir := store_dir; ValueDir := store_dir; ReadOnly := false; Prefix := pfx |}.

(** An open, writable store with the given content and prefix, as [Open]
    builds it. *)
Definition store_with (pfx : list Z) (content : gmap (list Z) (list Z)) : Blockstore :=
  {| state := stateOpen; viewers := 0; moveState := moveStateNone; rlock := 0;
     db := {| db_dir := store_dir; kv := content |};
     mhJournal := Some {| fw_dir := store_dir; written := [] |};
     dbNext := None; mhJournalNext := None;
     opts := store_opts pfx;
     prefixing := negb (bool_decide (pfx = []));
     prefix := pfx;
     prefixLen := length pfx |}.

Definition empty_store : Blockstore := store_with [] ∅.

(** "ns/" *)
Definition ns : list Z := [110; 115; 47].

(** A store that holds "hello" under the BLAKE2b cid. *)
Definition hello_store : Blockstore :=
  store_with [] {[ key_of empty_store blake_cid := hello ]}.

(** A store that holds a block under the cid with the unknown prefix, as
    a directory written by another program may. *)
Definition foreign_store : Blockstore :=
  store_with [] {[ key_of empty_store unknown_cid := hello ]}.

(** The shadow directory and a store in the middle of a move, both
    stores holding "hello". *)
Definition shadow_dir : path := ["tmp"; "bs.1"].

Definition moving_store : Blockstore :=
  set_moveState moveStateMoving
    (set_next (Some {| db_dir := shadow_dir; kv := kv (db hello_store) |})
              (Some {| fw_dir := shadow_dir; written := [] |}) hello_store).

(** A store with one key that is not base32: "!" *)
Definition corrupt_store : Blockstore :=
  store_with [] (<[ [33] := hello ]> (kv (db hello_store))).

(** The world of [empty_store]: "/tmp" and "/tmp/bs" are directories,
    and the store has its handles open. *)
Definition world0 : Sys :=
  {| fs := <[ ["tmp"] := DirNode ]> (<[ store_dir := DirNode ]> ∅);
     dbs := {[ store_dir ]};
     journals := {[ store_dir ]} |}.

Definition no_copy_faults (groups : list (list KV)) : CopyEnv :=
  {| ce_groups := groups; ce_ctx := fun _ => None; ce_set := fun _ _ => None;
     ce_write := fun _ => None; ce_stream := None; ce_flush := None;
     ce_committed := 0 |}.

Definition quiet_move (groups : list (list KV)) : MoveEnv :=
  {| me_nanos := 1000; me_secs := 1;
     me_open := None; me_found := ∅; me_journal := None;
     me_copy := no_copy_faults groups;
     me_close_next := None; me_close_journal_next := None;
     me_close_old := None; me_close_journal_old := None;
     me_fs := no_fs_faults |}.

(** The same directories with no handle open, and a store directory
    that another program filled with the block of [foreign_store]. *)
Definition cold_world : Sys :=
  {| fs := fs world0; dbs := ∅; journals := ∅ |}.

Definition foreign_dir : OpenEnv :=
  {| oe_badger := None; oe_found := kv (db foreign_store); oe_journal := None |}.

(** [hello_store] while the moving GC holds the exclusive lock. *)
Definition fenced_store : Blockstore := set_moveState moveStateLock hello_store.

Definition no_close_faults : CloseFaults := {| cf_db := None; cf_mhJournal := None |}.

(** The stream of a store: one list with all its entries, as badger
    hands them out. *)
Definition one_group (b : Blockstore) : list (list KV) :=
  [map streamed (map_to_list (kv (db b)))].

(** A move during which the journal of the new directory cannot be
    opened (permission denied). *)
Definition journal_fails : MoveEnv :=
  {| me_nanos := 1000; me_secs := 1;
     me_open := None; me_found := ∅; me_journal := Some (ErrIO 13);
     me_copy := no_copy_faults (one_group hello_store);
     me_close_next := None; me_close_journal_next := None;
     me_close_old := None; me_close_journal_old := None;
     me_fs := no_fs_faults |}.

(** A move whose context is cancelled during the copy. *)
Definition cancelled_copy : CopyEnv :=
  {| ce_groups := one_group hello_store; ce_ctx := fun _ => Some ErrContext;
     ce_set := fun _ _ => None; ce_write := fun _ => None; ce_stream := None;
     ce_flush := None; ce_committed := 0 |}.

Definition cancelled_move : MoveEnv :=
  {| me_nanos := 1000; me_secs := 1;
     me_open := None; me_found := ∅; me_journal := None;
     me_copy := cancelled_copy;
     me_close_next := None; me_close_journal_next := None;
     me_close_old := None; me_close_journal_old := None;
     me_fs := no_fs_faults |}.

(** A directory that holds the block of [hello_store], the same
    directory when the journal file cannot be opened, and the options of
    a read-only store on it. *)
Definition hello_dir : OpenEnv :=
  {| oe_badger := None; oe_found := kv (db hello_store); oe_journal := None |}.

Definition journal_denied : OpenEnv :=
  {| oe_badger := None; oe_found := kv (db hello_store); oe_journal := Some (ErrIO 13) |}.

Definition read_only_opts : Options :=
  {| Dir := store_dir; ValueDir := store_dir; ReadOnly := true; Prefix := [] |}.

(** What [Open] gives for that directory with these options. *)
Definition read_only_store : Blockstore :=
  {| state := stateOpen; viewers := 0; moveState := moveStateNone; rlock := 0;
     db := {| db_dir := store_dir; kv := kv (db hello_store) |};
     mhJournal := None; dbNext := None; mhJournalNext := None;
     opts := read_only_opts;
     prefixing := false; prefix := []; prefixLen := 0 |}.

(** A flush in which the sync of the journal fails. *)
Definition journal_sync_fails : FlushFaults :=
  {| ff_dbNext := None; ff_mhJournalNext := None; ff_mhJournal := Some (ErrIO 5);
     ff_db := None |}.

(** [hello_store] with one operation inside. *)
Definition busy_store : Blockstore :=
  set_rlock 1 (set_viewers 1 hello_store).

(** A store directory with three files, and the same directory when the
    table file is gone by the time it is looked at. *)
Definition three_files : SizeEnv :=
  {| se_ReadDir := fun _ => inl ["000001.sst"; "MANIFEST"; "MultiHashes.bin"];
     se_Stat := fun p =>
       if bool_decide (p = store_dir ++ ["000001.sst"]) then Some 4096
       else if bool_decide (p = store_dir ++ ["MANIFEST"]) then Some 28
       else if bool_decide (p = store_dir ++ ["MultiHashes.bin"]) then Some 33
       else None |}.

Definition table_gone : SizeEnv :=
  {| se_ReadDir := fun _ => inl ["000001.sst"; "MANIFEST"; "MultiHashes.bin"];
     se_Stat := fun p =>
       if bool_decide (p = store_dir ++ ["MANIFEST"]) then Some 28
       else if bool_decide (p = store_dir ++ ["MultiHashes.bin"]) then Some 33
       else None |}.

(** A store that holds "hello" and, under the SHA2-256 cid, a block with
    no bytes. *)
Definition hollow_store : Blockstore :=
  store_with [] (<[ key_of empty_store sha2_cid := [] ]> (kv (db hello_store))).

(** A store with the prefix "ns/" on a directory in which another program
    has left the key "A". *)
Definition short_key_store : Blockstore := store_with ns {[ [65] := hello ]}.

(** The world of [hello_store]. *)
Definition new_dir : path := ["tmp"; "bs.1000"].

End scenarios.

(** * Properties *)

(** ** The base32 codec: decoding undoes encoding *)

Module base32_facts.
Import base32.

Lemma testbit_byte_high x i : is_byte x -> 8 <= i -> Z.testbit x i = false.
Proof.
  intros [H0 H1] Hi.
  destruct (Z.eq_dec x 0) as [->|Hx]; [apply Z.bits_0|].
  apply Z.bits_above_log2; [lia|].
  assert (Z.log2 x < 8); [|lia].
  apply Z.log2_lt_pow2; lia.
Qed.

Lemma u8_high x i : 8 <= i -> Z.testbit (u8 x) i = false.
Proof.
  intros Hi. unfold u8. rewrite Z.land_spec.
  rewrite (testbit_byte_high 255 i); [apply andb_false_r| unfold is_byte; lia | lia].
Qed.

Ltac bit_cases i :=
  let H := fresh in
  assert (H : i = 0 \/ i = 1 \/ i = 2 \/ i = 3 \/ i = 4 \/ i = 5 \/ i = 6 \/ i = 7 \/ 8 <= i) by lia;
  repeat (destruct H as [H|H]); [subst i .. | ].

Ltac idx_norm :=
  repeat match goal with
  | |- context [Z.testbit _ ?i] =>
      let v := eval vm_compute in i in progress change i with v
  end.

Ltac const_bits :=
  repeat match goal with
  | |- context [Z.testbit (Zpos ?p) ?i] =>
      let v := eval vm_compute in (Z.testbit (Zpos p) i) in
      change (Z.testbit (Zpos p) i) with v
  end.

Ltac bits_step :=
  first
    [ rewrite Z.lor_spec | rewrite Z.land_spec
    | rewrite Z.shiftl_spec by lia | rewrite Z.shiftr_spec by lia
    | match goal with
      | |- context [Z.testbit ?a (Zneg ?p)] =>
          rewrite (Z.testbit_neg_r a (Zneg p)) by lia
      end ].

Ltac bits_norm := unfold u8; repeat (bits_step; idx_norm); const_bits; rewrite ?Z.bits_0.

Lemma pack_quantum s0 s1 s2 s3 s4 :
  is_byte s0 -> is_byte s1 -> is_byte s2 -> is_byte s3 -> is_byte s4 ->
  pack 8 (quantum [s0; s1; s2; s3; s4]) = [s0; s1; s2; s3; s4].
Proof.
  intros B0 B1 B2 B3 B4.
  unfold pack, quantum. cbn [nth take].
  repeat f_equal.
  all: apply Z.bits_inj'; intros i Hi; bit_cases i.
  all: try (rewrite u8_high by lia; symmetry; apply testbit_byte_high; [assumption|lia]).
  all: bits_norm.
  all: rewrite ?(testbit_byte_high _ _ B0), ?(testbit_byte_high _ _ B1), ?(testbit_byte_high _ _ B2), ?(testbit_byte_high _ _ B3), ?(testbit_byte_high _ _ B4) by lia.
  all: try btauto.
Qed.

Lemma testbit_small x n i : 0 <= x < 2 ^ n -> 0 <= n <= i -> Z.testbit x i = false.
Proof.
  intros [H0 H1] Hi.
  destruct (Z.eq_dec x 0) as [->|Hx]; [apply Z.bits_0|].
  apply Z.bits_above_log2; [lia|].
  assert (Z.log2 x < n); [|lia].
  apply Z.log2_lt_pow2; lia.
Qed.

Lemma land31_range v : is_val5 (Z.land v 31).
Proof.
  unfold is_val5. change 31 with (Z.ones 5). rewrite Z.land_ones by lia.
  apply Z.mod_pos_bound. lia.
Qed.

Lemma land31_id v : is_val5 v -> Z.land v 31 = v.
Proof.
  intros Hv. change 31 with (Z.ones 5). rewrite Z.land_ones by lia.
  apply Z.mod_small. exact Hv.
Qed.

Lemma val5_cases v : is_val5 v ->
  In v [0;1;2;3;4;5;6;7;8;9;10;11;12;13;14;15;16;17;18;19;20;21;22;23;24;25;26;27;28;29;30;31].
Proof.
  unfold is_val5. intros Hv.
  assert (Hn : v = Z.of_nat (Z.to_nat v)) by lia.
  rewrite Hn.
  assert (Hlt : (Z.to_nat v < 32)%nat) by lia.
  revert Hlt. generalize (Z.to_nat v). intros n Hlt.
  do 32 (destruct n as [|n]; [cbn; tauto|]). lia.
Qed.

Lemma decodeMap_encode_char v : is_val5 v -> decodeMap (encode_char v) = v.
Proof.
  intros Hv. unfold encode_char. rewrite land31_id by exact Hv.
  apply val5_cases in Hv. cbn [In] in Hv.
  repeat (destruct Hv as [<-|Hv]; [vm_compute; reflexivity|]). contradiction.
Qed.

Lemma encode_char_not_newline v : encode_char v ≠ 13 ∧ encode_char v ≠ 10.
Proof.
  unfold encode_char. pose proof (land31_range v) as Hv.
  apply val5_cases in Hv. cbn [In] in Hv.
  repeat (destruct Hv as [<-|Hv]; [vm_compute; split; discriminate|]). contradiction.
Qed.


Lemma lor_val5 a b : is_val5 a -> is_val5 b -> is_val5 (Z.lor a b).
Proof.
  intros Ha Hb. rewrite <- (land31_id a Ha), <- (land31_id b Hb).
  rewrite <- Z.land_lor_distr_l. apply land31_range.
Qed.

Lemma shiftr_val5 s k : is_byte s -> 3 <= k -> is_val5 (Z.shiftr s k).
Proof.
  intros [H0 H1] Hk. unfold is_val5. rewrite Z.shiftr_div_pow2 by lia.
  assert (8 <= 2 ^ k).
  { change 8 with (2 ^ 3). apply Z.pow_le_mono_r; lia. }
  split; [apply Z.div_pos; lia | apply Z.div_lt_upper_bound; nia].
Qed.

Lemma nth_byte i src : bytes_ok src -> is_byte (nth i src 0).
Proof.
  intros Hs. destruct (nth_in_or_default i src 0) as [Hin|Heq].
  - unfold bytes_ok in Hs. rewrite Forall_forall in Hs. apply Hs.
    apply list_elem_of_In. exact Hin.
  - rewrite Heq. unfold is_byte; lia.
Qed.

Lemma quantum_val5 src : bytes_ok src -> Forall is_val5 (quantum src).
Proof.
  intros Hs. unfold quantum.
  repeat apply Forall_cons_2; try apply Forall_nil_2.
  all: repeat apply lor_val5.
  all: try apply land31_range.
  all: apply shiftr_val5; [apply nth_byte; exact Hs | lia].
Qed.

Lemma encode_char_not_pad v : is_val5 v -> encode_char v ≠ padByte.
Proof.
  intros Hv He. pose proof (decodeMap_encode_char v Hv) as Hd.
  rewrite He in Hd. vm_compute in Hd. unfold is_val5 in Hv. lia.
Qed.

Lemma lookup_quantum_encode vs olen pos j rest :
  Forall is_val5 vs -> lookup_quantum olen pos j rest (map encode_char vs) = inl vs.
Proof.
  intros Hvs. revert pos j. induction Hvs as [|v vs Hv _ IH]; intros pos j; [reflexivity|].
  cbn [map lookup_quantum].
  destruct (Z.eqb_spec (encode_char v) padByte) as [He|_];
    [destruct (encode_char_not_pad v Hv He)|].
  cbn [andb]. rewrite decodeMap_encode_char by exact Hv.
  destruct (Z.eqb_spec v 255) as [->|_]; [unfold is_val5 in Hv; lia|].
  rewrite IH. reflexivity.
Qed.

Lemma list_ind5 (P : list Z -> Prop) :
  P [] -> (forall a, P [a]) -> (forall a b, P [a; b]) -> (forall a b c, P [a; b; c]) ->
  (forall a b c d, P [a; b; c; d]) ->
  (forall a b c d e rest, P rest -> P (a :: b :: c :: d :: e :: rest)) ->
  forall l, P l.
Proof.
  intros H0 H1 H2 H3 H4 H5.
  fix IH 1. intros l.
  destruct l as [|a [|b [|c [|d [|e rest]]]]];
    [apply H0 | apply H1 | apply H2 | apply H3 | apply H4 | apply H5, IH].
Qed.

Lemma Encode_chars src : Forall (fun c => c ≠ 13 ∧ c ≠ 10) (Encode src).
Proof.
  induction src using list_ind5.
  all: cbn [Encode].
  1: constructor.
  1-4: apply Forall_take, Forall_map, Forall_forall; intros; apply encode_char_not_newline.
  apply Forall_app. split; [|assumption].
  apply Forall_map, Forall_forall; intros; apply encode_char_not_newline.
Qed.

Lemma filter_all {A} (P : A -> Prop) `{!forall x, Decision (P x)} (l : list A) :
  Forall P l -> filter P l = l.
Proof.
  induction 1 as [|x l Hx _ IH]; [reflexivity|].
  rewrite filter_cons_True by exact Hx. f_equal. exact IH.
Qed.


Lemma decode_quantum8 vs rest olen pos :
  length vs = 8%nat -> Forall is_val5 vs ->
  decode olen pos (map encode_char vs ++ rest) =
  match decode olen (pos + 8) rest with
  | inl out => inl (pack 8 vs ++ out)
  | inr p => inr p
  end.
Proof.
  intros Hlen Hvs.
  do 8 (destruct vs as [|? vs]; [discriminate Hlen|]).
  destruct vs; [|discriminate Hlen].
  pose proof (lookup_quantum_encode _ olen pos 0%nat (length rest) Hvs) as Hl.
  cbn [map app] in Hl |- *. cbn [decode]. rewrite Hl. reflexivity.
Qed.

Lemma decode_partial vs n olen pos :
  (n < 8)%nat -> length vs = 8%nat -> Forall is_val5 vs ->
  decode olen pos (take n (map encode_char vs)) = inl (pack n (take n vs)).
Proof.
  intros Hn Hlen Hvs.
  rewrite <- fmap_take.
  assert (Ht : Forall is_val5 (take n vs)) by (apply Forall_take; exact Hvs).
  assert (Hl : length (take n vs) = n) by (rewrite length_take; lia).
  pose proof (lookup_quantum_encode _ olen pos 0%nat 0%nat Ht) as Hq.
  revert Hl Hq. generalize (take n vs). intros l Hl Hq.
  do 8 (destruct n as [|n];
        [repeat (destruct l as [|? l]; try discriminate Hl);
         cbn [fmap list_fmap map decode] in Hq |- *;
         try rewrite Hq; reflexivity|]).
  lia.
Qed.

Lemma quantum_length src : length (quantum src) = 8%nat.
Proof. reflexivity. Qed.

Ltac pack_bits B :=
  unfold pack, quantum; cbn [nth take length EncodedLen];
  repeat f_equal;
  (apply Z.bits_inj'; intros i Hi; bit_cases i);
  try (rewrite u8_high by lia; symmetry; apply testbit_byte_high; [assumption|lia]);
  bits_norm; B; try btauto.

Lemma pack_quantum1 a : is_byte a -> pack 2 (take 2 (quantum [a])) = [a].
Proof.
  intros B0.
  pack_bits ltac:(rewrite ?(testbit_byte_high _ _ B0) by lia).
Qed.

Lemma pack_quantum2 a b : is_byte a -> is_byte b -> pack 4 (take 4 (quantum [a; b])) = [a; b].
Proof.
  intros B0 B1.
  pack_bits ltac:(rewrite ?(testbit_byte_high _ _ B0), ?(testbit_byte_high _ _ B1) by lia).
Qed.

Lemma pack_quantum3 a b c :
  is_byte a -> is_byte b -> is_byte c -> pack 5 (take 5 (quantum [a; b; c])) = [a; b; c].
Proof.
  intros B0 B1 B2.
  pack_bits ltac:(rewrite ?(testbit_byte_high _ _ B0), ?(testbit_byte_high _ _ B1),
                          ?(testbit_byte_high _ _ B2) by lia).
Qed.

Lemma pack_quantum4 a b c d :
  is_byte a -> is_byte b -> is_byte c -> is_byte d ->
  pack 7 (take 7 (quantum [a; b; c; d])) = [a; b; c; d].
Proof.
  intros B0 B1 B2 B3.
  pack_bits ltac:(rewrite ?(testbit_byte_high _ _ B0), ?(testbit_byte_high _ _ B1),
                          ?(testbit_byte_high _ _ B2), ?(testbit_byte_high _ _ B3) by lia).
Qed.

Lemma decode_Encode src olen pos : bytes_ok src -> decode olen pos (Encode src) = inl src.
Proof.
  revert pos. induction src as [|a|a b|a b c|a b c d|a b c d e rest IH] using list_ind5;
    intros pos Hs.
  1: reflexivity.
  1-4: unfold bytes_ok in Hs; repeat (apply Forall_cons_1 in Hs as [? Hs]).
  - change (Encode [a]) with (take 2 (map encode_char (quantum [a]))).
    rewrite decode_partial; [|lia|reflexivity|apply quantum_val5; repeat (apply Forall_cons_2; [assumption|]); apply Forall_nil_2].
    f_equal. apply pack_quantum1; assumption.
  - change (Encode [a; b]) with (take 4 (map encode_char (quantum [a; b]))).
    rewrite decode_partial; [|lia|reflexivity|apply quantum_val5; repeat (apply Forall_cons_2; [assumption|]); apply Forall_nil_2].
    f_equal. apply pack_quantum2; assumption.
  - change (Encode [a; b; c]) with (take 5 (map encode_char (quantum [a; b; c]))).
    rewrite decode_partial; [|lia|reflexivity|apply quantum_val5; repeat (apply Forall_cons_2; [assumption|]); apply Forall_nil_2].
    f_equal. apply pack_quantum3; assumption.
  - change (Encode [a; b; c; d]) with (take 7 (map encode_char (quantum [a; b; c; d]))).
    rewrite decode_partial; [|lia|reflexivity|apply quantum_val5; repeat (apply Forall_cons_2; [assumption|]); apply Forall_nil_2].
    f_equal. apply pack_quantum4; assumption.
  - change (Encode (a :: b :: c :: d :: e :: rest))
      with (map encode_char (quantum [a; b; c; d; e]) ++ Encode rest).
    unfold bytes_ok in Hs.
    apply Forall_cons_1 in Hs as [Ha Hs]. apply Forall_cons_1 in Hs as [Hb Hs].
    apply Forall_cons_1 in Hs as [Hc Hs]. apply Forall_cons_1 in Hs as [Hd Hs].
    apply Forall_cons_1 in Hs as [He Hs].
    rewrite decode_quantum8;
      [|reflexivity|apply quantum_val5; repeat (apply Forall_cons_2; [assumption|]); apply Forall_nil_2].
    rewrite (IH _ Hs). rewrite pack_quantum by assumption. reflexivity.
Qed.

Theorem Decode_Encode src : bytes_ok src -> Decode (Encode src) = inl src.
Proof.
  intros Hs. unfold Decode. cbv zeta. rewrite filter_all by apply Encode_chars.
  apply decode_Encode. exact Hs.
Qed.

Lemma Encode_length src : length (Encode src) = EncodedLen (length src).
Proof.
  induction src as [|a|a b|a b c|a b c d|a b c d e rest IH] using list_ind5.
  1-5: reflexivity.
  change (Encode (a :: b :: c :: d :: e :: rest))
      with (map encode_char (quantum [a; b; c; d; e]) ++ Encode rest).
  rewrite length_app, IH. cbn [length map quantum]. unfold EncodedLen.
  replace ((S (S (S (S (S (length rest))))) * 8 + 4)%nat) with ((length rest * 8 + 4) + 8 * 5)%nat by lia.
  rewrite Nat.div_add by lia. lia.
Qed.

End base32_facts.

(** ** The key codec *)

Module codec_facts.
Import badgerbs spec scenarios base32_facts.

Lemma codec_inv_no_prefix b : codec_inv b -> prefixing b = false -> prefix b = [] ∧ prefixLen b = 0%nat.
Proof.
  intros [Hlen Hp] Hf. rewrite Hf in Hp.
  destruct (decide (prefix b = [])) as [He|Hne].
  - rewrite Hlen, He. split; reflexivity.
  - rewrite bool_decide_eq_false_2 in Hp by exact Hne. discriminate Hp.
Qed.

Lemma Encode_at_fresh off pfx h rest :
  length pfx = off -> length rest = length (base32.Encode h) ->
  Encode_at off (pfx ++ rest) h = pfx ++ base32.Encode h.
Proof.
  intros <- Hr. unfold Encode_at.
  rewrite take_app_length.
  rewrite drop_ge; [rewrite app_nil_r; reflexivity|].
  rewrite length_app. lia.
Qed.

Lemma copy_fresh pfx n :
  (length pfx <= n)%nat ->
  copy (replicate n 0) pfx = pfx ++ replicate (n - length pfx) 0.
Proof.
  intros Hn. unfold copy. rewrite length_replicate.
  rewrite take_ge by exact Hn. rewrite drop_replicate. reflexivity.
Qed.

Lemma PooledStorageKey_eq b c :
  codec_inv b ->
  PooledStorageKey b c = (prefix b ++ base32.Encode (cid.Hash c), true).
Proof.
  intros Hinv. unfold PooledStorageKey, pool_Get.
  destruct (prefixing b) eqn:Hp; cbn [negb].
  - destruct Hinv as [Hlen _]. f_equal.
    rewrite copy_fresh by lia.
    apply Encode_at_fresh; [symmetry; exact Hlen|].
    rewrite length_replicate, Encode_length. lia.
  - destruct (codec_inv_no_prefix b Hinv Hp) as [-> _]. f_equal.
    apply (Encode_at_fresh 0 []); [reflexivity|].
    rewrite length_replicate, Encode_length. reflexivity.
Qed.

Lemma Encode_at_take off pfx h rest :
  length pfx = off -> (length (base32.Encode h) <= length rest)%nat ->
  take (length (base32.Encode h) + off) (Encode_at off (pfx ++ rest) h)
  = pfx ++ base32.Encode h.
Proof.
  intros <- Hr. unfold Encode_at.
  rewrite take_app_length.
  rewrite app_assoc.
  rewrite take_app_length'; [reflexivity|].
  rewrite length_app. lia.
Qed.

Lemma copy_split dst pfx :
  (length pfx <= length dst)%nat ->
  copy dst pfx = pfx ++ drop (length pfx) dst.
Proof. intros Hn. unfold copy. rewrite take_ge by exact Hn. reflexivity. Qed.

Lemma StorageKey_eq b dst c :
  codec_inv b ->
  StorageKey b dst c = prefix b ++ base32.Encode (cid.Hash c).
Proof.
  intros Hinv. unfold StorageKey.
  set (h := cid.Hash c).
  set (reqsize := (base32.EncodedLen (length h) + prefixLen b)%nat).
  assert (Hreq : reqsize = (length (base32.Encode h) + prefixLen b)%nat).
  { unfold reqsize. rewrite Encode_length. reflexivity. }
  set (dst' := if (cap dst <? reqsize)%nat then _ else _).
  assert (Hcap : (reqsize <= length (backing dst'))%nat).
  { unfold dst', cap. destruct (Nat.ltb_spec (length (backing dst)) reqsize).
    - cbn [backing]. rewrite length_replicate. lia.
    - destruct (len dst <? reqsize)%nat; cbn [backing]; lia. }
  generalize dependent dst'. intros dst' Hcap. clear dst.
  destruct (prefixing b) eqn:Hp.
  - destruct Hinv as [Hlen _].
    rewrite copy_split by lia.
    rewrite Hreq. apply Encode_at_take; [symmetry; exact Hlen|].
    rewrite length_drop. lia.
  - destruct (codec_inv_no_prefix b Hinv Hp) as [Hnil Hzero].
    rewrite Hnil. rewrite Hreq, Hzero.
    apply (Encode_at_take 0 [] h (backing dst')); [reflexivity|lia].
Qed.

(** [Open] establishes the invariant of the codec. *)
Lemma Open_codec_inv env w o w' b : Open env w o = (w', inl b) -> codec_inv b.
Proof.
  unfold Open. destruct (badger_Open _ _ _ _) as [w1 [d|e]]; [|discriminate].
  destruct (ReadOnly o).
  - intros H. injection H as _ <-. split; reflexivity.
  - destruct (openJournal _ _ _) as [w2 [j|e]]; [|discriminate].
    intros H. injection H as _ <-. split; reflexivity.
Qed.

(** Claim C8. The storage key of a cid is exactly the prefix followed by
    the unpadded base32 text of its multihash, from [PooledStorageKey] and
    from [StorageKey] alike, and what the iterations decode from the key
    after dropping [prefixLen] bytes is the multihash again. *)
Theorem storage_key_round_trip (b : Blockstore) (c : cid.Cid) :
  codec_inv b -> bytes_ok (cid.Hash c) ->
  PooledStorageKey b c = (prefix b ++ base32.Encode (cid.Hash c), true) ∧
  (forall dst, StorageKey b dst c = prefix b ++ base32.Encode (cid.Hash c)) ∧
  base32.Decode (drop (prefixLen b) (key_of b c)) = inl (cid.Hash c) ∧
  base32.Decode (strip_prefix b (key_of b c)) = inl (cid.Hash c).
Proof.
  intros Hinv Hh.
  assert (Hdrop : drop (prefixLen b) (key_of b c) = base32.Encode (cid.Hash c)).
  { unfold key_of. rewrite PooledStorageKey_eq by exact Hinv. cbn [fst].
    destruct Hinv as [-> _]. apply drop_app_length. }
  repeat split.
  - apply PooledStorageKey_eq, Hinv.
  - intros dst. apply StorageKey_eq, Hinv.
  - rewrite Hdrop. apply Decode_Encode, Hh.
  - unfold strip_prefix. destruct (prefixing b) eqn:Hp.
    + rewrite Hdrop. apply Decode_Encode, Hh.
    + destruct (codec_inv_no_prefix b Hinv Hp) as [_ Hz].
      rewrite Hz in Hdrop. rewrite drop_0 in Hdrop. rewrite Hdrop.
      apply Decode_Encode, Hh.
Qed.

Lemma bytes_ok_forallb l :
  forallb (fun x => (0 <=? x) && (x <? 256)) l = true -> bytes_ok l.
Proof.
  intros H. unfold bytes_ok. rewrite forallb_forall in H.
  apply Forall_forall. intros x Hx. apply list_elem_of_In in Hx. apply H in Hx.
  unfold is_byte. lia.
Defined.

(** The theorem at the store with prefix "ns/" and the BLAKE2b cid. *)
Lemma storage_key_round_trip_witness :
  codec_inv (store_with ns ∅) ∧ bytes_ok (cid.Hash blake_cid) ∧
  base32.Decode (drop (prefixLen (store_with ns ∅)) (key_of (store_with ns ∅) blake_cid))
  = inl (cid.Hash blake_cid).
Proof.
  assert (Hi : codec_inv (store_with ns ∅)) by (split; reflexivity).
  assert (Hb : bytes_ok (cid.Hash blake_cid)) by (apply bytes_ok_forallb; reflexivity).
  split; [exact Hi|]. split; [exact Hb|].
  apply (storage_key_round_trip (store_with ns ∅) blake_cid Hi Hb).
Defined.

End codec_facts.

(** ** The gate, the lock and the reads *)

Module store_facts.
Import badgerbs spec base32_facts codec_facts.

Lemma access_open b :
  state b = stateOpen -> access b = (set_viewers (viewers b + 1) b, None).
Proof. intros Hs. unfold access. rewrite Hs. reflexivity. Qed.

Lemma access_closed b :
  state b <> stateOpen -> access b = (b, Some ErrBlockstoreClosed).
Proof. intros Hs. unfold access. destruct (state b); [contradiction|reflexivity..]. Qed.

Lemma lockDB_enterable b v :
  enterable b ->
  lockDB (set_viewers v b) = Some (set_rlock (rlock b + 1) (set_viewers v b)).
Proof. intros [_ Hl]. unfold lockDB. cbn. rewrite Hl. reflexivity. Qed.

Lemma frame_refl b : frame b b.
Proof. repeat split. Qed.

(** Leaving after entering restores the counters. *)
Lemma leave_entered b d j dn jn :
  frame b (leave (set_next dn jn (set_active d j
             (set_rlock (rlock b + 1) (set_viewers (viewers b + 1) b))))).
Proof. unfold frame. cbn. repeat split; lia. Qed.

Lemma leave_entered_id b :
  leave (set_rlock (rlock b + 1) (set_viewers (viewers b + 1) b)) = b.
Proof.
  destruct b. unfold leave, viewers_Done, unlockDB, set_rlock, set_viewers. cbn.
  f_equal; lia.
Qed.

Lemma PooledStorageKey_same b b' c :
  prefixing b' = prefixing b -> prefix b' = prefix b -> prefixLen b' = prefixLen b ->
  PooledStorageKey b' c = PooledStorageKey b c.
Proof.
  intros Hp Hx Hl. unfold PooledStorageKey. rewrite Hp, Hx, Hl. reflexivity.
Qed.

Lemma PooledStorageKey_frame b b' c :
  frame b b' -> PooledStorageKey b' c = PooledStorageKey b c.
Proof.
  intros (_ & _ & _ & _ & _ & Hp & Hx & Hl). apply PooledStorageKey_same; assumption.
Qed.

Lemma key_of_frame b b' c : frame b b' -> key_of b' c = key_of b c.
Proof. intros H. unfold key_of. rewrite (PooledStorageKey_frame b b' c H). reflexivity. Qed.

Lemma enterable_frame b b' : frame b b' -> enterable b -> enterable b'.
Proof.
  intros (Hs & _ & Hr & Hm & _) [H1 H2]. unfold enterable. rewrite Hs, Hr, Hm. auto.
Qed.

Lemma PooledStorageKey_pooled b c : (PooledStorageKey b c).2 = true.
Proof. unfold PooledStorageKey. destruct (prefixing b); reflexivity. Qed.

Lemma PooledStorageKey_pair b c : PooledStorageKey b c = (key_of b c, true).
Proof.
  unfold key_of. rewrite <- (PooledStorageKey_pooled b c).
  destruct (PooledStorageKey b c); reflexivity.
Qed.


Lemma Has_entered b c :
  enterable b ->
  r_out (Has no_read_faults b c) =
  Returned (bool_decide (is_Some (kv (db b) !! key_of b c)), None).
Proof.
  intros Ha. unfold Has.
  rewrite access_open by apply Ha. rewrite lockDB_enterable by exact Ha.
  rewrite (PooledStorageKey_same b) by reflexivity.
  rewrite PooledStorageKey_pair. cbn.
  destruct (kv (db b) !! key_of b c); reflexivity.
Qed.


(** *** What [PutMany] does once it is past the gate *)

Lemma keys_of_entered b v r blks :
  map fst (map (fun blk => PooledStorageKey (set_rlock r (set_viewers v b)) (blocks.Cid blk)) blks)
  = keys_of b blks.
Proof.
  unfold keys_of, key_of. rewrite map_map. apply map_ext. intros blk.
  rewrite (PooledStorageKey_same b) by reflexivity. reflexivity.
Qed.

Lemma PutMany_run fl b blks :
  enterable b ->
  let r := PutMany fl b blks in
  frame b (r_store r) ∧
  match probe (pf_get fl) (db b) 0 (keys_of b blks) blks [] with
  | inr err => r_out r = Returned (Some err) ∧ r_store r = b
  | inl (keys, jrnl) =>
      let a := put (pf_active fl) keys blks jrnl (db b) (mhJournal b) in
      db (r_store r) = a.1.1 ∧ mhJournal (r_store r) = a.1.2 ∧
      match a.2, dbNext b with
      | Returned None, Some dn =>
          let s := put (pf_shadow fl) keys blks jrnl dn (mhJournalNext b) in
          dbNext (r_store r) = Some s.1.1 ∧ mhJournalNext (r_store r) = s.1.2 ∧
          r_out r = s.2
      | out, _ =>
          dbNext (r_store r) = dbNext b ∧ mhJournalNext (r_store r) = mhJournalNext b ∧
          r_out r = out
      end
  end.
Proof.
  intros Ha r. subst r. unfold PutMany.
  rewrite access_open by apply Ha. rewrite lockDB_enterable by exact Ha.
  cbv zeta. rewrite keys_of_entered.
  change (db (set_rlock (rlock b + 1) (set_viewers (viewers b + 1) b))) with (db b).
  change (mhJournal (set_rlock (rlock b + 1) (set_viewers (viewers b + 1) b)))
    with (mhJournal b).
  destruct (probe (pf_get fl) (db b) 0 (keys_of b blks) blks []) as [[keys jrnl]|err].
  2:{ cbn [r_store r_out]. rewrite leave_entered_id. split; [apply frame_refl|]. auto. }
  destruct (put (pf_active fl) keys blks jrnl (db b) (mhJournal b)) as [[d j] out] eqn:Hput.
  cbn [fst snd].
  assert (Hframe : forall dn jn, frame b (leave (set_next dn jn (set_active d j
             (set_rlock (rlock b + 1) (set_viewers (viewers b + 1) b)))))).
  { intros. apply leave_entered. }
  assert (Hframe' : frame b (leave (set_active d j
             (set_rlock (rlock b + 1) (set_viewers (viewers b + 1) b))))).
  { unfold frame. cbn. repeat split; lia. }
  destruct out as [[e|]| | |].
  - cbn [r_store r_out]. split; [exact Hframe'|]. cbn. destruct (dbNext b); auto.
  - change (dbNext (set_active d j (set_rlock (rlock b + 1)
              (set_viewers (viewers b + 1) b)))) with (dbNext b).
    change (mhJournalNext (set_active d j (set_rlock (rlock b + 1)
              (set_viewers (viewers b + 1) b)))) with (mhJournalNext b).
    destruct (dbNext b) as [dn|] eqn:Hn.
    + destruct (put (pf_shadow fl) keys blks jrnl dn (mhJournalNext b)) as [[dn' jn'] out'].
      cbn [r_store r_out fst snd]. split; [apply Hframe|]. cbn. auto.
    + cbn [r_store r_out]. split; [exact Hframe'|]. cbn. auto.
  - cbn [r_store r_out]. split; [exact Hframe'|]. cbn. destruct (dbNext b); auto.
  - cbn [r_store r_out]. split; [exact Hframe'|]. cbn. destruct (dbNext b); auto.
  - cbn [r_store r_out]. split; [exact Hframe'|]. cbn. destruct (dbNext b); auto.
Qed.

(** *** Write batches *)

Lemma commit_nil d : commit [] d = d.
Proof. destruct d. reflexivity. Qed.

Lemma commit_app b1 b2 d : commit (b1 ++ b2) d = commit b2 (commit b1 d).
Proof. unfold commit. cbn. rewrite foldl_app. reflexivity. Qed.

Lemma commit_dir batch d : db_dir (commit batch d) = db_dir d.
Proof. reflexivity. Qed.

Lemma commit_snoc_insert batch k v d :
  kv (commit (batch ++ [(k, Some v)]) d) = <[k := v]> (kv (commit batch d)).
Proof. rewrite commit_app. reflexivity. Qed.

Lemma commit_keeps batch d k :
  Forall is_insert batch -> is_Some (kv d !! k) -> is_Some (kv (commit batch d) !! k).
Proof.
  intros Hb. revert d. induction Hb as [|[k' [v'|]] batch He _ IH]; intros d Hk.
  - rewrite commit_nil. exact Hk.
  - change ((k', Some v') :: batch) with ([(k', Some v')] ++ batch).
    rewrite commit_app. apply IH. cbn.
    destruct (decide (k' = k)) as [->|Hne].
    + rewrite lookup_insert_eq. eauto.
    + rewrite lookup_insert_ne by exact Hne. exact Hk.
  - destruct He as [? He]. discriminate He.
Qed.

Lemma commit_has batch d k v :
  Forall is_insert batch -> (k, Some v) ∈ batch -> is_Some (kv (commit batch d) !! k).
Proof.
  intros Hb Hin. apply list_elem_of_split in Hin as (b1 & b2 & ->).
  apply Forall_app in Hb as [_ Hb2]. apply Forall_cons_1 in Hb2 as [_ Hb2].
  rewrite commit_app.
  change ((k, Some v) :: b2) with ([(k, Some v)] ++ b2). rewrite commit_app.
  apply commit_keeps; [exact Hb2|]. cbn. rewrite lookup_insert_eq. eauto.
Qed.

(** Two stores that take the same batch agree on every key of it. *)
Lemma commit_agree batch d1 d2 k :
  k ∈ batch.*1 -> kv (commit batch d1) !! k = kv (commit batch d2) !! k.
Proof.
  revert d1 d2. induction batch as [|[k' v'] batch IH] using rev_ind; intros d1 d2 Hin.
  - inversion Hin.
  - rewrite !commit_app. rewrite fmap_app in Hin. cbn in Hin.
    destruct (decide (k' = k)) as [->|Hne].
    + cbn. destruct v'; [rewrite !lookup_insert_eq|rewrite !lookup_delete_eq]; reflexivity.
    + apply elem_of_app in Hin as [Hin|Hin].
      * cbn. destruct v';
          [rewrite !lookup_insert_ne by exact Hne|rewrite !lookup_delete_ne by exact Hne];
          apply IH, Hin.
      * apply list_elem_of_singleton in Hin. congruence.
Qed.

(** [batch_sets]: the accumulator is a prefix of the result, and a run
    without a failing [Set] builds the batch of a run that cannot fail. *)
Lemma batch_sets_acc set i keys blks acc :
  (batch_sets set i keys blks acc).1 = acc ++ (batch_sets set i keys blks []).1 ∧
  (batch_sets set i keys blks acc).2 = (batch_sets set i keys blks []).2.
Proof.
  revert i blks acc. induction keys as [|[k|] keys IH]; intros i blks acc.
  - cbn. rewrite app_nil_r. auto.
  - destruct blks as [|blk blks]; [cbn; rewrite app_nil_r; auto|].
    cbn [batch_sets]. destruct (set i); [cbn; rewrite app_nil_r; auto|].
    destruct (IH (S i) blks (acc ++ [(k, Some (blocks.RawData blk))])) as [H1 H2].
    destruct (IH (S i) blks ([] ++ [(k, Some (blocks.RawData blk))])) as [H3 H4].
    rewrite H1, H2, H3, H4. rewrite app_assoc. auto.
  - destruct blks as [|blk blks]; [cbn; rewrite app_nil_r; auto|].
    cbn [batch_sets]. apply IH.
Qed.

Lemma batch_sets_ok set i j keys blks acc batch :
  batch_sets set i keys blks acc = (batch, None) ->
  batch = (batch_sets (fun _ => None) j keys blks acc).1.
Proof.
  revert i j blks acc. induction keys as [|[k|] keys IH]; intros i j blks acc H.
  - cbn in *. congruence.
  - destruct blks as [|blk blks]; [cbn in *; congruence|].
    cbn [batch_sets] in *. destruct (set i); [discriminate H|].
    eapply IH, H.
  - destruct blks as [|blk blks]; [cbn in *; congruence|].
    cbn [batch_sets] in *. eapply IH, H.
Qed.

Lemma batch_of_inserts keys blks : Forall is_insert (batch_of keys blks).
Proof.
  unfold batch_of. generalize 0%nat.
  revert blks. induction keys as [|[k|] keys IH]; intros blks i.
  - constructor.
  - destruct blks as [|blk blks]; [constructor|]. cbn [batch_sets].
    destruct (batch_sets_acc (fun _ => None) (S i) keys blks
                ([] ++ [(k, Some (blocks.RawData blk))])) as [-> _].
    apply Forall_app. split; [|apply IH].
    apply Forall_cons_2; [|constructor]. unfold is_insert. cbn. eauto.
  - destruct blks as [|blk blks]; [constructor|]. cbn [batch_sets]. apply IH.
Qed.

(** The batch sets every key the probe left in place to the bytes of its
    block. *)
Lemma batch_of_has keys blks n k blk :
  keys !! n = Some (Some k) -> blks !! n = Some blk ->
  (k, Some (blocks.RawData blk)) ∈ batch_of keys blks.
Proof.
  unfold batch_of. generalize 0%nat.
  revert blks n. induction keys as [|ko keys IH]; intros blks n i Hk Hb.
  - destruct n; discriminate Hk.
  - destruct blks as [|blk' blks]; [destruct n; discriminate Hb|].
    destruct n as [|n].
    + cbn in Hk, Hb. injection Hk as ->. injection Hb as ->. cbn [batch_sets].
      destruct (batch_sets_acc (fun _ => None) (S i) keys blks
                  ([] ++ [(k, Some (blocks.RawData blk))])) as [-> _].
      apply elem_of_app. left. cbn. apply list_elem_of_here.
    + cbn in Hk, Hb. destruct ko as [k'|]; cbn [batch_sets].
      * destruct (batch_sets_acc (fun _ => None) (S i) keys blks
                    ([] ++ [(k', Some (blocks.RawData blk'))])) as [-> _].
        apply elem_of_app. right. eapply IH; eassumption.
      * eapply IH; eassumption.
Qed.

(** Every entry of the batch comes from a key the probe left in place. *)
Lemma batch_of_from keys blks k v :
  (k, v) ∈ batch_of keys blks -> Some k ∈ keys.
Proof.
  unfold batch_of. generalize 0%nat.
  revert blks. induction keys as [|ko keys IH]; intros blks i Hin.
  - cbn in Hin. inversion Hin.
  - destruct blks as [|blk' blks]; [destruct ko; cbn in Hin; inversion Hin|].
    destruct ko as [k'|]; cbn [batch_sets] in Hin.
    + destruct (batch_sets_acc (fun _ => None) (S i) keys blks
                  ([] ++ [(k', Some (blocks.RawData blk'))])) as [Heq _].
      rewrite Heq in Hin. apply elem_of_app in Hin as [Hin|Hin].
      * cbn in Hin. apply list_elem_of_singleton in Hin. injection Hin as -> _.
        apply list_elem_of_here.
      * apply list_elem_of_further. eapply IH, Hin.
    + apply list_elem_of_further. eapply IH, Hin.
Qed.

(** *** The [put] closure *)

(** Either the journal is untouched, or every [Set] and the [Flush] went
    through, the database has the whole batch, and the journal got the
    buffer (or, when the write failed, the first bytes of it). *)
Lemma put_cases bf keys blks jrnl d mhj :
  let '(d', mhj', out) := put bf keys blks jrnl d mhj in
  (mhj' = mhj ∧ out <> Returned None) ∨
  (bf_flush bf = None ∧ d' = commit (batch_of keys blks) d ∧
   exists j, mhj = Some j ∧
     ((bf_write bf = None ∧ mhj' = Some (fw_Write jrnl j) ∧ out = Returned None) ∨
      (exists n e, bf_write bf = Some (n, e) ∧ mhj' = Some (fw_Write (take n jrnl) j) ∧
                   out <> Returned None))).
Proof.
  unfold put.
  destruct (batch_sets (bf_set bf) 0 keys blks []) as [batch [e|]] eqn:Hb.
  { lazy beta iota zeta. left. split; [reflexivity|discriminate]. }
  apply (batch_sets_ok _ _ 0%nat) in Hb. fold (batch_of keys blks) in Hb. subst batch.
  destruct (bf_flush bf) as [e|] eqn:Hf.
  { lazy beta iota zeta. left. split; [reflexivity|discriminate]. }
  destruct mhj as [j|].
  2:{ lazy beta iota zeta. left. split; [reflexivity|discriminate]. }
  destruct (bf_write bf) as [[n e]|]; lazy beta iota zeta.
  - right. split; [reflexivity|]. split; [reflexivity|]. exists j. split; [reflexivity|].
    right. exists n, e. repeat split. discriminate.
  - right. split; [reflexivity|]. split; [reflexivity|]. exists j. split; [reflexivity|].
    left. repeat split.
Qed.

(** *** The probe *)

Lemma probe_keys get d i ks blks j keys jrnl :
  probe get d i ks blks j = inl (keys, jrnl) ->
  length ks = length blks ->
  Forall2 (fun k ko => (ko = None ∧ is_Some (kv d !! k)) ∨ (ko = Some k ∧ kv d !! k = None))
          ks keys.
Proof.
  revert i blks j keys jrnl. induction ks as [|k ks IH]; intros i blks j keys jrnl H Hlen.
  - cbn in H. injection H as <- _. constructor.
  - destruct blks as [|blk blks]; [discriminate Hlen|]. injection Hlen as Hlen.
    cbn [probe] in H. unfold badgerGet in H.
    destruct (get i); [discriminate H|].
    destruct (kv d !! k) as [v|] eqn:Hk.
    + destruct (probe get d (S i) ks blks j) as [[keys' j']|] eqn:Hp; [|discriminate H].
      injection H as <- _. constructor; [left; eauto|]. eapply IH; eassumption.
    + destruct (isMultihashSupported _); [|discriminate H].
      destruct (probe get d (S i) ks blks _) as [[keys' j']|] eqn:Hp; [|discriminate H].
      injection H as <- _. constructor; [right; eauto|]. eapply IH; eassumption.
Qed.

(** A probe that meets no I/O error rejects the batch as soon as a block
    whose key is not in the store has an unsupported multihash. *)
Lemma probe_rejects get d i ks blks j n k blk e :
  (forall m, get m = None) -> length ks = length blks ->
  ks !! n = Some k -> blks !! n = Some blk ->
  kv d !! k = None -> isMultihashSupported (cid.Hash (blocks.Cid blk)) = inr e ->
  exists blk' e', blk' ∈ blks ∧
    isMultihashSupported (cid.Hash (blocks.Cid blk')) = inr e' ∧
    probe get d i ks blks j = inr (Wrap "unsupported multihash for cid" e').
Proof.
  intros Hget. revert i blks j n.
  induction ks as [|k0 ks IH]; intros i blks j n Hlen Hk Hb Hnone He.
  - destruct n; discriminate Hk.
  - destruct blks as [|blk0 blks]; [discriminate Hlen|]. injection Hlen as Hlen.
    cbn [probe]. unfold badgerGet. rewrite Hget.
    destruct n as [|n].
    + cbn in Hk, Hb. injection Hk as ->. injection Hb as ->.
      rewrite Hnone, He. exists blk, e. split; [apply list_elem_of_here|]. auto.
    + cbn in Hk, Hb.
      destruct (kv d !! k0) as [v|].
      * destruct (IH (S i) blks j n Hlen Hk Hb Hnone He) as (blk' & e' & Hin & He' & ->).
        exists blk', e'. split; [apply list_elem_of_further, Hin|]. auto.
      * destruct (isMultihashSupported (cid.Hash (blocks.Cid blk0))) as [smh|e0] eqn:H0.
        -- destruct (IH (S i) blks
                       (j ++ journalShortCode smh
                          :: drop (length (cid.Hash (blocks.Cid blk0)) - supportedHashLen)
                               (cid.Hash (blocks.Cid blk0)))
                       n Hlen Hk Hb Hnone He) as (blk' & e' & Hin & He' & ->).
           exists blk', e'. split; [apply list_elem_of_further, Hin|]. auto.
        -- exists blk0, e0. split; [apply list_elem_of_here|]. auto.
Qed.

Lemma keys_of_length b blks : length (keys_of b blks) = length blks.
Proof. unfold keys_of. apply length_map. Qed.

Lemma keys_of_lookup b blks n blk :
  blks !! n = Some blk -> keys_of b blks !! n = Some (key_of b (blocks.Cid blk)).
Proof. intros H. unfold keys_of. rewrite list_lookup_fmap, H. reflexivity. Qed.

(** A call that is turned away or kept waiting touches neither database nor journal. *)
Lemma PutMany_refused fl b blks :
  ~ enterable b ->
  let r := PutMany fl b blks in
  db (r_store r) = db b ∧ mhJournal (r_store r) = mhJournal b ∧
  dbNext (r_store r) = dbNext b ∧ mhJournalNext (r_store r) = mhJournalNext b ∧
  r_out r <> Returned None.
Proof.
  intros Hn. unfold PutMany, access, enterable in *.
  destruct (state b) eqn:Hs.
  - unfold lockDB. cbn.
    destruct ((rlock b =? 0) && is_moveStateLock (moveState b)) eqn:Hl.
    + cbn. repeat split. discriminate.
    + exfalso. apply Hn. auto.
  - cbn. repeat split. discriminate.
  - cbn. repeat split. discriminate.
Qed.

Lemma enterable_dec b : enterable b ∨ ~ enterable b.
Proof.
  unfold enterable. destruct (state b);
    destruct ((rlock b =? 0) && is_moveStateLock (moveState b));
    (left; split; [reflexivity|reflexivity]) || (right; intros [? ?]; discriminate).
Qed.

End store_facts.

(** ** The digest policy *)

Module digest_facts.
Import badgerbs spec.

Lemma uvarint_suffix buf n rest :
  multihash.uvarint buf = inl (n, rest) -> (length rest <= length buf)%nat.
Proof.
  unfold multihash.uvarint. destruct (varint.FromUvarint buf) as [[v c]|]; [|discriminate].
  intros H. injection H as _ <-. rewrite length_drop. lia.
Qed.

(** What [isMultihashSupported] accepts is a table prefix followed by 32
    bytes of digest. *)
Lemma isMultihashSupported_sound mh smh :
  isMultihashSupported mh = inl smh -> supported mh.
Proof.
  unfold isMultihashSupported.
  destruct (multihash.Decode mh) as [mhDec|] eqn:Hdec; [|discriminate].
  destruct (Nat.eqb_spec (multihash.Length mhDec) supportedHashLen) as [Hlen|]; [|discriminate].
  cbn [negb].
  destruct (supportedMultihashes !! take (length mh - supportedHashLen) mh) eqn:Hl;
    [|discriminate].
  intros _.
  assert (Hge : (supportedHashLen <= length mh)%nat).
  { unfold multihash.Decode, multihash.readMultihashFromBuf in Hdec.
    destruct (length mh <? 2)%nat; [discriminate|].
    destruct (multihash.uvarint mh) as [[code buf1]|] eqn:H1; [|discriminate].
    destruct (multihash.uvarint buf1) as [[len buf2]|] eqn:H2; [|discriminate].
    destruct (2147483647 <? len); [discriminate|].
    destruct (length buf2 <? Z.to_nat len)%nat; [discriminate|].
    destruct (Nat.eqb _ _); [|discriminate].
    injection Hdec as <-. cbn in Hlen.
    apply uvarint_suffix in H1. apply uvarint_suffix in H2.
    rewrite length_take in Hlen. lia. }
  exists (take (length mh - supportedHashLen) mh), (drop (length mh - supportedHashLen) mh).
  split; [symmetry; apply take_drop|]. split; [eauto|].
  rewrite length_drop. lia.
Qed.

Lemma table_prefixes pfx :
  is_Some (supportedMultihashes !! pfx) -> pfx = [160; 228; 2; 32] ∨ pfx = [18; 32].
Proof.
  unfold supportedMultihashes. intros [smh H].
  destruct (decide ([160; 228; 2; 32] = pfx)) as [<-|Hne]; [left; reflexivity|].
  rewrite lookup_insert_ne in H by exact Hne.
  destruct (decide ([18; 32] = pfx)) as [<-|Hne']; [right; reflexivity|].
  rewrite lookup_insert_ne in H by exact Hne'.
  rewrite lookup_empty in H. discriminate H.
Qed.

(** And everything of that shape is accepted. *)
Lemma isMultihashSupported_complete mh :
  supported mh -> exists smh, isMultihashSupported mh = inl smh.
Proof.
  intros (pfx & d & -> & Hp & Hd).
  do 32 (destruct d as [|? d]; [discriminate Hd|]).
  destruct d; [|discriminate Hd].
  destruct (table_prefixes pfx Hp) as [->| ->]; eexists; vm_compute; reflexivity.
Qed.

Lemma unsupported_rejected mh :
  ~ supported mh -> exists e, isMultihashSupported mh = inr e.
Proof.
  intros Hn. destruct (isMultihashSupported mh) as [smh|e] eqn:H; [|eauto].
  exfalso. apply Hn. eapply isMultihashSupported_sound, H.
Qed.

End digest_facts.

(** ** The write path *)

Module write_facts.
Import badgerbs spec scenarios base32_facts codec_facts store_facts digest_facts.

(** Claim C6. In a [PutMany], on the active store and then on the shadow
    store, a journal is written only after the write batch of the same
    blocks was flushed: a failing flush leaves the journal as it was, and
    whenever the journal changed the flush had succeeded and the database
    holds an entry for every block the journal buffer has a record of. *)
Theorem journal_follows_flush (fl : PutFaults) (b : Blockstore) (blks : list blocks.Block) :
  let r := PutMany fl b blks in
  (bf_flush (pf_active fl) <> None -> mhJournal (r_store r) = mhJournal b) ∧
  (mhJournal (r_store r) <> mhJournal b ->
     bf_flush (pf_active fl) = None ∧
     forall blk, blk ∈ blks ->
       is_Some (kv (db (r_store r)) !! key_of b (blocks.Cid blk))) ∧
  (bf_flush (pf_shadow fl) <> None -> mhJournalNext (r_store r) = mhJournalNext b) ∧
  (mhJournalNext (r_store r) <> mhJournalNext b ->
     bf_flush (pf_shadow fl) = None ∧
     exists dn, dbNext (r_store r) = Some dn ∧
       forall blk, blk ∈ blks -> kv (db b) !! key_of b (blocks.Cid blk) = None ->
         is_Some (kv dn !! key_of b (blocks.Cid blk))).
Proof.
  intros r. subst r.
  destruct (enterable_dec b) as [Ha|Hn].
  2:{ destruct (PutMany_refused fl b blks Hn) as (_ & Hj & _ & Hjn & _).
      cbv zeta in Hj, Hjn. rewrite Hj, Hjn.
      repeat split; intros; try reflexivity; contradiction. }
  destruct (PutMany_run fl b blks Ha) as [_ Hrun]. cbv zeta in Hrun.
  destruct (probe (pf_get fl) (db b) 0 (keys_of b blks) blks []) as [[keys jrnl]|err] eqn:Hp.
  2:{ destruct Hrun as [_ ->]. repeat split; intros; try reflexivity; contradiction. }
  pose proof (probe_keys _ _ _ _ _ _ _ _ Hp (keys_of_length b blks)) as Hkeys.
  destruct Hrun as (Hd & Hj & Hrest).
  pose proof (put_cases (pf_active fl) keys blks jrnl (db b) (mhJournal b)) as Hact.
  destruct (put (pf_active fl) keys blks jrnl (db b) (mhJournal b)) as [[d j] out].
  cbn [fst snd] in Hd, Hj, Hrest.
  assert (Hactive :
    (bf_flush (pf_active fl) <> None -> j = mhJournal b) ∧
    (j <> mhJournal b ->
       bf_flush (pf_active fl) = None ∧
       forall blk, blk ∈ blks -> is_Some (kv d !! key_of b (blocks.Cid blk)))).
  { destruct Hact as [[-> _]|(Hf & -> & _)].
    - split; [reflexivity|contradiction].
    - split; [intros; contradiction|]. intros _. split; [exact Hf|].
      intros blk Hin. apply list_elem_of_lookup in Hin as [n Hn].
      pose proof (keys_of_lookup b blks n blk Hn) as Hkn.
      destruct (Forall2_lookup_l _ _ _ _ _ Hkeys Hkn) as (ko & Hko & [[-> Hsome]|[-> Hnone]]).
      + apply commit_keeps; [apply batch_of_inserts|exact Hsome].
      + eapply commit_has; [apply batch_of_inserts|].
        eapply batch_of_has; eassumption. }
  rewrite Hd, Hj. destruct Hactive as [A1 A2].
  split; [exact A1|]. split; [exact A2|].
  destruct out as [[e|]| | |];
    try (destruct Hrest as (_ & -> & _);
         split; [reflexivity|intros; contradiction]).
  destruct (dbNext b) as [dn|] eqn:Hn.
  2:{ destruct Hrest as (_ & -> & _). split; [reflexivity|intros; contradiction]. }
  pose proof (put_cases (pf_shadow fl) keys blks jrnl dn (mhJournalNext b)) as Hsh.
  destruct (put (pf_shadow fl) keys blks jrnl dn (mhJournalNext b)) as [[dn' jn'] out'].
  cbn [fst snd] in Hrest. destruct Hrest as (-> & -> & _).
  destruct Hsh as [[-> _]|(Hf & -> & _)].
  - split; [reflexivity|contradiction].
  - split; [intros; contradiction|]. intros _. split; [exact Hf|].
    eexists. split; [reflexivity|].
    intros blk Hin Hnone. apply list_elem_of_lookup in Hin as [n Hbn].
    pose proof (keys_of_lookup b blks n blk Hbn) as Hkn.
    destruct (Forall2_lookup_l _ _ _ _ _ Hkeys Hkn) as (ko & Hko & [[-> Hsome]|[-> _]]).
    + rewrite Hnone in Hsome. destruct Hsome as [? Hsome]. discriminate Hsome.
    + eapply commit_has; [apply batch_of_inserts|].
      eapply batch_of_has; eassumption.
Qed.

Lemma PutMany_success_enterable fl b blks :
  r_out (PutMany fl b blks) = Returned None -> enterable b.
Proof.
  intros H. destruct (enterable_dec b) as [Ha|Hn]; [exact Ha|].
  destruct (PutMany_refused fl b blks Hn) as (_ & _ & _ & _ & Hne). contradiction.
Qed.

(** What a successful [PutMany] has done: both stores, when there is a
    shadow store, took the same batch and the same journal buffer. *)
Lemma PutMany_success fl b blks :
  r_out (PutMany fl b blks) = Returned None ->
  let r := PutMany fl b blks in
  frame b (r_store r) ∧
  exists keys jrnl j,
    probe (pf_get fl) (db b) 0 (keys_of b blks) blks [] = inl (keys, jrnl) ∧
    mhJournal b = Some j ∧
    db (r_store r) = commit (batch_of keys blks) (db b) ∧
    mhJournal (r_store r) = Some (fw_Write jrnl j) ∧
    match dbNext b with
    | None => dbNext (r_store r) = None ∧ mhJournalNext (r_store r) = mhJournalNext b
    | Some dn =>
        exists jn, mhJournalNext b = Some jn ∧
          dbNext (r_store r) = Some (commit (batch_of keys blks) dn) ∧
          mhJournalNext (r_store r) = Some (fw_Write jrnl jn)
    end.
Proof.
  intros Hok r. subst r.
  pose proof (PutMany_success_enterable fl b blks Hok) as Ha.
  destruct (PutMany_run fl b blks Ha) as [Hframe Hrun]. cbv zeta in Hrun.
  split; [exact Hframe|].
  destruct (probe (pf_get fl) (db b) 0 (keys_of b blks) blks []) as [[keys jrnl]|err] eqn:Hp.
  2:{ destruct Hrun as [Hout _]. rewrite Hout in Hok. discriminate Hok. }
  destruct Hrun as (Hd & Hj & Hrest).
  pose proof (put_cases (pf_active fl) keys blks jrnl (db b) (mhJournal b)) as Hact.
  destruct (put (pf_active fl) keys blks jrnl (db b) (mhJournal b)) as [[d j] out].
  cbn [fst snd] in Hd, Hj, Hrest.
  assert (Hout : out = Returned None).
  { destruct out as [[e|]| | |]; try reflexivity;
      destruct Hrest as (_ & _ & Hout); rewrite Hout in Hok; discriminate Hok. }
  subst out.
  destruct Hact as [[_ Hne]|(_ & -> & j0 & Hj0 & Hw)]; [contradiction|].
  destruct Hw as [(_ & -> & _)|(n & e & _ & _ & Hne)]; [|contradiction].
  exists keys, jrnl, j0. split; [reflexivity|]. split; [exact Hj0|].
  split; [exact Hd|]. split; [exact Hj|].
  destruct (dbNext b) as [dn|]; [|destruct Hrest as (-> & -> & _); auto].
  pose proof (put_cases (pf_shadow fl) keys blks jrnl dn (mhJournalNext b)) as Hsh.
  destruct (put (pf_shadow fl) keys blks jrnl dn (mhJournalNext b)) as [[dn' jn'] out'].
  cbn [fst snd] in Hrest. destruct Hrest as (Hdn & Hjn & Hout').
  rewrite Hout' in Hok. subst out'.
  destruct Hsh as [[_ Hne]|(_ & -> & jn0 & Hjn0 & Hw)]; [contradiction|].
  destruct Hw as [(_ & -> & _)|(n & e & _ & _ & Hne)]; [|contradiction].
  exists jn0. auto.
Qed.

Lemma DeleteMany_shadow fl b cids :
  dbNext (r_store (DeleteMany fl b cids)) = dbNext b ∧
  mhJournalNext (r_store (DeleteMany fl b cids)) = mhJournalNext b ∧
  mhJournal (r_store (DeleteMany fl b cids)) = mhJournal b.
Proof.
  unfold DeleteMany, access.
  destruct (state b); [|cbn; auto..].
  unfold lockDB. cbn [rlock moveState set_viewers].
  destruct ((rlock b =? 0) && is_moveStateLock (moveState b)); [cbn; auto|].
  destruct (batch_deletes _ _ _ _ _ _) as [[taken batch] [e|]].
  - cbn. auto.
  - destruct (df_flush fl); cbn; auto.
Qed.

(** The value a batch of inserts leaves under one of its keys is the
    value of one of its entries, whatever the database held. *)
Lemma commit_value batch d k :
  Forall is_insert batch -> k ∈ batch.*1 ->
  exists v, (k, Some v) ∈ batch ∧ kv (commit batch d) !! k = Some v.
Proof.
  induction batch as [|[k' v'] batch IH] using rev_ind; intros Hb Hin; [inversion Hin|].
  apply Forall_app in Hb as [Hb He]. apply Forall_cons_1 in He as [[v Hv] _].
  cbn in Hv. subst v'. rewrite commit_snoc_insert.
  destruct (decide (k' = k)) as [->|Hne].
  - exists v. split; [apply elem_of_app; right; apply list_elem_of_here|].
    apply lookup_insert_eq.
  - rewrite fmap_app in Hin. apply elem_of_app in Hin as [Hin|Hin].
    + destruct (IH Hb Hin) as (v0 & Hv0 & Hl). exists v0.
      split; [apply elem_of_app; left; exact Hv0|].
      rewrite lookup_insert_ne by exact Hne. exact Hl.
    + apply list_elem_of_singleton in Hin. cbn in Hin. congruence.
Qed.

(** Every entry of the batch sets the bytes of a block under its key. *)
Lemma batch_of_block keys blks k v :
  (k, Some v) ∈ batch_of keys blks ->
  exists n blk, keys !! n = Some (Some k) ∧ blks !! n = Some blk ∧ v = blocks.RawData blk.
Proof.
  unfold batch_of. generalize 0%nat.
  revert blks. induction keys as [|ko keys IH]; intros blks i Hin.
  - cbn in Hin. inversion Hin.
  - destruct blks as [|blk' blks]; [destruct ko; cbn in Hin; inversion Hin|].
    destruct ko as [k'|]; cbn [batch_sets] in Hin.
    + destruct (batch_sets_acc (fun _ => None) (S i) keys blks
                  ([] ++ [(k', Some (blocks.RawData blk'))])) as [Heq _].
      rewrite Heq in Hin. apply elem_of_app in Hin as [Hin|Hin].
      * cbn in Hin. apply list_elem_of_singleton in Hin. injection Hin as -> ->.
        exists 0%nat, blk'. auto.
      * destruct (IH _ _ Hin) as (n & blk & H1 & H2 & H3). exists (S n), blk. auto.
    + destruct (IH _ _ Hin) as (n & blk & H1 & H2 & H3). exists (S n), blk. auto.
Qed.

(** A block of a successful batch whose key was absent is stored with the
    bytes of a block of the batch that has this key, the block itself
    when no two blocks of the batch share a key; the same bytes are under
    the key in any other database that takes the batch. *)
Lemma PutMany_stores fl b blks blk keys jrnl d2 :
  probe (pf_get fl) (db b) 0 (keys_of b blks) blks [] = inl (keys, jrnl) ->
  blk ∈ blks -> kv (db b) !! key_of b (blocks.Cid blk) = None ->
  exists blk', blk' ∈ blks ∧ key_of b (blocks.Cid blk') = key_of b (blocks.Cid blk) ∧
    kv (commit (batch_of keys blks) (db b)) !! key_of b (blocks.Cid blk)
    = Some (blocks.RawData blk') ∧
    kv (commit (batch_of keys blks) d2) !! key_of b (blocks.Cid blk)
    = Some (blocks.RawData blk') ∧
    (NoDup (keys_of b blks) -> blk' = blk).
Proof.
  intros Hp Hin Hnone.
  pose proof (probe_keys _ _ _ _ _ _ _ _ Hp (keys_of_length b blks)) as Hkeys.
  apply list_elem_of_lookup in Hin as [n Hn].
  pose proof (keys_of_lookup b blks n blk Hn) as Hkn.
  destruct (Forall2_lookup_l _ _ _ _ _ Hkeys Hkn) as (ko & Hko & [[_ [v0 Hsome]]|[-> _]]);
    [rewrite Hnone in Hsome; discriminate Hsome|].
  pose proof (batch_of_has keys blks n _ blk Hko Hn) as Hb.
  assert (Hk : key_of b (blocks.Cid blk) ∈ (batch_of keys blks).*1).
  { apply list_elem_of_fmap. eexists. split; [|exact Hb]. reflexivity. }
  destruct (commit_value _ (db b) _ (batch_of_inserts keys blks) Hk) as (v & Hv & Hl).
  destruct (batch_of_block _ _ _ _ Hv) as (n' & blk' & Hko' & Hn' & ->).
  pose proof (keys_of_lookup b blks n' blk' Hn') as Hkn'.
  assert (Hkey : key_of b (blocks.Cid blk') = key_of b (blocks.Cid blk)).
  { destruct (Forall2_lookup_l _ _ _ _ _ Hkeys Hkn') as (ko' & Hko'' & Hcase).
    rewrite Hko' in Hko''. injection Hko'' as <-.
    destruct Hcase as [[Hx _]|[Hx _]]; [discriminate Hx|]. congruence. }
  exists blk'. split; [apply list_elem_of_lookup; eauto|]. split; [exact Hkey|].
  split; [exact Hl|]. split.
  - rewrite (commit_agree _ d2 (db b) _ Hk). exact Hl.
  - intros Hnd. rewrite <- Hkey in Hkn.
    pose proof (NoDup_lookup _ _ _ _ Hnd Hkn Hkn') as ->. congruence.
Qed.

Lemma batch_deletes_batch del b i cids taken batch :
  exists m,
    (batch_deletes del b i cids taken batch).1.2
    = batch ++ map (fun c => (key_of b c, None)) (take m cids) ∧
    ((batch_deletes del b i cids taken batch).2 = None -> take m cids = cids) ∧
    ((forall n, del n = None) -> (batch_deletes del b i cids taken batch).2 = None).
Proof.
  revert i taken batch. induction cids as [|c cids IH]; intros i taken batch.
  - exists 0%nat. cbn. rewrite app_nil_r. auto.
  - cbn [batch_deletes]. destruct (del i) eqn:Hd.
    + exists 0%nat. cbn. rewrite app_nil_r. split; [reflexivity|].
      split; [discriminate|]. intros H. rewrite H in Hd. discriminate Hd.
    + destruct (IH (S i) (taken ++ [PooledStorageKey b c])
                  (batch ++ [((PooledStorageKey b c).1, None)])) as (m & Hb & Hm & Hn).
      exists (S m). rewrite Hb. cbn [take map]. rewrite <- app_assoc.
      split; [reflexivity|]. split; [|exact Hn].
      intros H. rewrite (Hm H). reflexivity.
Qed.

Lemma batch_deletes_same b b' del i cids taken batch :
  prefixing b' = prefixing b -> prefix b' = prefix b -> prefixLen b' = prefixLen b ->
  batch_deletes del b' i cids taken batch = batch_deletes del b i cids taken batch.
Proof.
  intros H1 H2 H3. revert i taken batch. induction cids as [|c cids IH]; intros; [reflexivity|].
  cbn [batch_deletes]. rewrite (PooledStorageKey_same b b' c H1 H2 H3).
  destruct (del i); [reflexivity|]. apply IH.
Qed.

(** What [DeleteMany] does to a store it can enter: it deletes the keys
    of some first cids of the list, all of them when it returns no
    error. *)
Lemma DeleteMany_run fl b cids :
  enterable b ->
  let r := DeleteMany fl b cids in
  frame b (r_store r) ∧
  exists m,
    db (r_store r) = commit (map (fun c => (key_of b c, None)) (take m cids)) (db b) ∧
    (r_out r = Returned None -> take m cids = cids) ∧
    ((forall n, df_delete fl n = None) -> df_flush fl = None -> r_out r = Returned None).
Proof.
  intros Ha r. subst r. unfold DeleteMany.
  rewrite access_open by apply Ha. rewrite lockDB_enterable by exact Ha.
  rewrite (batch_deletes_same b) by reflexivity.
  destruct (batch_deletes_batch (df_delete fl) b 0 cids [] []) as (m & Hb & Hm & Hn).
  destruct (batch_deletes (df_delete fl) b 0 cids [] []) as [[taken batch] err].
  cbn [fst snd app] in Hb, Hm, Hn. subst batch.
  assert (Hfr : forall d, frame b (leave (set_active d (mhJournal b)
             (set_rlock (rlock b + 1) (set_viewers (viewers b + 1) b))))).
  { intros d. unfold frame. cbn. repeat split; lia. }
  assert (Htake : forall n, take n (map (fun c => (key_of b c, @None (list Z))) (take m cids))
                  = map (fun c => (key_of b c, None)) (take (n `min` m) cids)).
  { intros n. rewrite <- fmap_take, take_take. reflexivity. }
  destruct err as [e|].
  - cbn [r_store r_out]. split; [apply Hfr|].
    exists (df_committed fl `min` m)%nat. split; [cbn; rewrite Htake; reflexivity|].
    split; [discriminate|]. intros H. specialize (Hn H). discriminate Hn.
  - destruct (df_flush fl) as [e|]; cbn [r_store r_out].
    + split; [apply Hfr|].
      exists (df_committed fl `min` m)%nat. split; [cbn; rewrite Htake; reflexivity|].
      split; [discriminate|]. intros _ H. discriminate H.
    + split; [apply Hfr|]. exists m. split; [reflexivity|]. split; [intros _; auto|reflexivity].
Qed.

Lemma DeleteMany_refused fl b cids :
  ~ enterable b ->
  db (r_store (DeleteMany fl b cids)) = db b ∧ r_out (DeleteMany fl b cids) <> Returned None.
Proof.
  intros Hn. unfold DeleteMany, access, enterable in *.
  destruct (state b) eqn:Hs; [|cbn; split; [reflexivity|discriminate]..].
  unfold lockDB. cbn.
  destruct ((rlock b =? 0) && is_moveStateLock (moveState b)) eqn:Hl.
  - cbn. split; [reflexivity|discriminate].
  - exfalso. apply Hn. auto.
Qed.

Lemma commit_deletes {A} (f : A -> list Z) (cs : list A) d k :
  kv (commit (map (fun c => (f c, None)) cs) d) !! k
  = if decide (k ∈ map f cs) then None else kv d !! k.
Proof.
  induction cs as [|c cs IH] using rev_ind.
  - rewrite commit_nil. destruct (decide _) as [H|]; [|reflexivity]. inversion H.
  - rewrite !map_app, commit_app.
    set (d' := commit (map (fun c => (f c, None)) cs) d) in *.
    change (kv (commit (map (fun c => (f c, None)) [c]) d')) with (delete (f c) (kv d')).
    change (map f [c]) with [f c].
    destruct (decide (f c = k)) as [<-|Hne].
    + rewrite lookup_delete_eq.
      rewrite decide_True by (apply elem_of_app; right; apply list_elem_of_here).
      reflexivity.
    + rewrite lookup_delete_ne by exact Hne. rewrite IH.
      destruct (decide (k ∈ map f cs)) as [Hin|Hnin].
      * rewrite decide_True by (apply elem_of_app; auto). reflexivity.
      * rewrite decide_False; [reflexivity|].
        intros Hin. apply elem_of_app in Hin as [Hin|Hin]; [contradiction|].
        apply list_elem_of_singleton in Hin. congruence.
Qed.

(** Claim C1, as the code has it. While a move is underway a successful
    [PutMany] applies one and the same write batch to the active and to
    the shadow database and appends one and the same journal buffer to
    both journals: every block of the batch whose key was not in the
    active store is afterwards in both databases, with the same bytes,
    those of a block of the batch (of the block itself when the keys of
    the batch are distinct), and both agree on every key the put wrote.
    [DeleteMany] deletes from the active database only: when it returns no
    error the keys of its cids are gone from the active database, and in
    every case the shadow database and both journals are as they were. *)
Theorem writes_during_move (fl : PutFaults) (dfl : DeleteFaults) (b : Blockstore)
    (blks : list blocks.Block) (cids : list cid.Cid) (dn : badgerDB) :
  dbNext b = Some dn ->
  (r_out (PutMany fl b blks) = Returned None ->
   let r := PutMany fl b blks in
   exists keys jrnl j jn,
     probe (pf_get fl) (db b) 0 (keys_of b blks) blks [] = inl (keys, jrnl) ∧
     mhJournal b = Some j ∧ mhJournalNext b = Some jn ∧
     db (r_store r) = commit (batch_of keys blks) (db b) ∧
     dbNext (r_store r) = Some (commit (batch_of keys blks) dn) ∧
     mhJournal (r_store r) = Some (fw_Write jrnl j) ∧
     mhJournalNext (r_store r) = Some (fw_Write jrnl jn) ∧
     (forall k, k ∈ (batch_of keys blks).*1 ->
        kv (commit (batch_of keys blks) dn) !! k = kv (db (r_store r)) !! k) ∧
     (forall blk, blk ∈ blks -> kv (db b) !! key_of b (blocks.Cid blk) = None ->
        exists blk', blk' ∈ blks ∧
          key_of b (blocks.Cid blk') = key_of b (blocks.Cid blk) ∧
          kv (db (r_store r)) !! key_of b (blocks.Cid blk) = Some (blocks.RawData blk') ∧
          kv (commit (batch_of keys blks) dn) !! key_of b (blocks.Cid blk)
          = Some (blocks.RawData blk') ∧
          (NoDup (keys_of b blks) -> blk' = blk))) ∧
  (dbNext (r_store (DeleteMany dfl b cids)) = dbNext b ∧
   mhJournalNext (r_store (DeleteMany dfl b cids)) = mhJournalNext b ∧
   mhJournal (r_store (DeleteMany dfl b cids)) = mhJournal b ∧
   (r_out (DeleteMany dfl b cids) = Returned None ->
    forall c, c ∈ cids ->
      kv (db (r_store (DeleteMany dfl b cids))) !! key_of b c = None ∧
      kv dn !! key_of b c = (dbNext (r_store (DeleteMany dfl b cids))
                             ≫= fun d => kv d !! key_of b c))).
Proof.
  intros Hn. split.
  - intros Hok r. subst r.
    destruct (PutMany_success fl b blks Hok)
      as (_ & keys & jrnl & j & Hp & Hj & Hd & Hj' & Hnext).
    rewrite Hn in Hnext. destruct Hnext as (jn & Hjn & Hdn & Hjn').
    exists keys, jrnl, j, jn. repeat (split; [assumption|]). split.
    + intros k Hk. rewrite Hd. apply commit_agree, Hk.
    + intros blk Hin Hnone. rewrite Hd. eapply PutMany_stores; eassumption.
  - destruct (DeleteMany_shadow dfl b cids) as (H1 & H2 & H3).
    split; [exact H1|]. split; [exact H2|]. split; [exact H3|].
    intros Hok c Hc. rewrite H1, Hn. split; [|reflexivity].
    destruct (enterable_dec b) as [Ha|Hna].
    2:{ destruct (DeleteMany_refused dfl b cids Hna) as [_ Hne]. contradiction. }
    destruct (DeleteMany_run dfl b cids Ha) as (_ & m & Hd & Hm & _).
    rewrite Hd, (Hm Hok), commit_deletes.
    rewrite decide_True; [reflexivity|]. apply list_elem_of_fmap. eauto.
Qed.

Lemma probe_one get d k blk :
  probe get d 0 [k] [blk] [] =
  match get 0%nat with
  | Some err => inr err
  | None =>
      match kv d !! k with
      | Some _ => inl ([None], [])
      | None =>
          match isMultihashSupported (cid.Hash (blocks.Cid blk)) with
          | inr err => inr (Wrap "unsupported multihash for cid" err)
          | inl smh =>
              inl ([Some k],
                   journalShortCode smh
                   :: drop (length (cid.Hash (blocks.Cid blk)) - supportedHashLen)
                        (cid.Hash (blocks.Cid blk)))
          end
      end
  end.
Proof.
  cbn [probe]. unfold badgerGet. destruct (get 0%nat); [reflexivity|].
  destruct (kv d !! k); [reflexivity|].
  destruct (isMultihashSupported _); reflexivity.
Qed.


(** Claim C4, as the code has it. Putting a block whose key is already
    in the store writes nothing at all: the entry keeps the bytes it had,
    no record is added to a journal, and the shadow store of a move is
    left alone as well; without I/O faults the put returns no error. *)
Theorem re_put_is_skipped (fl : PutFaults) (b : Blockstore) (blk : blocks.Block)
    (v0 : list Z) :
  enterable b ->
  kv (db b) !! key_of b (blocks.Cid blk) = Some v0 ->
  pf_get fl 0%nat = None ->
  let r := PutMany fl b [blk] in
  db (r_store r) = db b ∧
  option_map written (mhJournal (r_store r)) = option_map written (mhJournal b) ∧
  dbNext (r_store r) = dbNext b ∧
  option_map written (mhJournalNext (r_store r)) = option_map written (mhJournalNext b) ∧
  (bf_flush (pf_active fl) = None -> bf_write (pf_active fl) = None ->
   bf_flush (pf_shadow fl) = None -> bf_write (pf_shadow fl) = None ->
   is_Some (mhJournal b) -> (is_Some (dbNext b) -> is_Some (mhJournalNext b)) ->
   r_out r = Returned None).
Proof.
  intros Ha Hk Hget r. subst r.
  destruct (PutMany_run fl b [blk] Ha) as [_ Hrun]. cbv zeta in Hrun.
  unfold keys_of in Hrun. cbn [map] in Hrun.
  rewrite probe_one, Hget, Hk in Hrun.
  destruct Hrun as (Hd & Hj & Hrest). rewrite Hd, Hj. clear Hd Hj.
  unfold put in *. cbn [batch_sets] in *. rewrite take_nil in *.
  rewrite !commit_nil in *.
  assert (Hw : forall j : flushWriter, written (fw_Write [] j) = written j).
  { intros j. cbn. apply app_nil_r. }
  assert (Hwt : forall n (j : flushWriter), written (fw_Write (take n []) j) = written j).
  { intros n j. rewrite take_nil. apply Hw. }
  assert (Hsome : forall A, ~ @is_Some A None).
  { intros A [? Hx]. discriminate Hx. }
  destruct (bf_flush (pf_active fl)) as [e|] eqn:Hfa.
  { cbn [fst snd] in *. destruct (dbNext b); destruct Hrest as (-> & -> & _);
      do 4 (split; [reflexivity|]); intros Hx; discriminate Hx. }
  destruct (mhJournal b) as [j|] eqn:Hmj.
  2:{ cbn [fst snd] in *. destruct (dbNext b); destruct Hrest as (-> & -> & _);
      do 4 (split; [reflexivity|]); intros _ _ _ _ Hx; destruct (Hsome _ Hx). }
  destruct (bf_write (pf_active fl)) as [[n e]|] eqn:Hwa.
  { cbn [fst snd] in *. destruct (dbNext b); destruct Hrest as (-> & -> & _);
      cbn [option_map]; rewrite Hwt;
      do 4 (split; [reflexivity|]); intros _ Hx; discriminate Hx. }
  cbn [fst snd option_map] in *. rewrite Hw.
  destruct (dbNext b) as [dn|] eqn:Hn.
  2:{ destruct Hrest as (-> & -> & ->). do 4 (split; [reflexivity|]). reflexivity. }
  rewrite ?take_nil, ?commit_nil in Hrest.
  destruct (bf_flush (pf_shadow fl)) as [e|] eqn:Hfs.
  { cbn [fst snd] in *. destruct Hrest as (-> & -> & ->).
    do 4 (split; [reflexivity|]). intros _ _ Hx; discriminate Hx. }
  destruct (mhJournalNext b) as [jn|] eqn:Hmjn.
  2:{ cbn [fst snd] in *. destruct Hrest as (-> & -> & ->).
      do 4 (split; [reflexivity|]).
      intros _ _ _ _ _ Hx. destruct (Hsome _ (Hx (ltac:(eauto)))). }
  destruct (bf_write (pf_shadow fl)) as [[n e]|] eqn:Hws.
  { cbn [fst snd] in *. destruct Hrest as (-> & -> & ->).
    cbn [option_map]. rewrite Hwt.
    do 4 (split; [reflexivity|]). intros _ _ _ Hx; discriminate Hx. }
  cbn [fst snd] in *. destruct Hrest as (-> & -> & ->).
  cbn [option_map]. rewrite Hw. do 4 (split; [reflexivity|]). reflexivity.
Qed.

(** Claim C5, as the code has it. When a block of the batch whose key is
    not yet in the store has a multihash outside the digest policy (its
    prefix is not in the table, or the digest is not 32 bytes long), and
    the probe meets no I/O error, the whole batch fails with the
    unsupported-multihash error of one of its blocks and the store is
    exactly as before: no entry written, no journal record added. *)
Theorem unsupported_batch_rejected (fl : PutFaults) (b : Blockstore)
    (blks : list blocks.Block) (blk : blocks.Block) :
  enterable b -> (forall i, pf_get fl i = None) ->
  blk ∈ blks ->
  kv (db b) !! key_of b (blocks.Cid blk) = None ->
  ~ supported (cid.Hash (blocks.Cid blk)) ->
  let r := PutMany fl b blks in
  r_store r = b ∧
  exists blk' e, blk' ∈ blks ∧
    isMultihashSupported (cid.Hash (blocks.Cid blk')) = inr e ∧
    r_out r = Returned (Some (Wrap "unsupported multihash for cid" e)).
Proof.
  intros Ha Hget Hin Hnone Hns r. subst r.
  destruct (unsupported_rejected _ Hns) as [e He].
  apply list_elem_of_lookup in Hin as [n Hn].
  destruct (probe_rejects (pf_get fl) (db b) 0 (keys_of b blks) blks [] n _ blk e
              Hget (keys_of_length b blks) (keys_of_lookup b blks n blk Hn) Hn Hnone He)
    as (blk' & e' & Hin' & He' & Hp).
  destruct (PutMany_run fl b blks Ha) as [_ Hrun]. cbv zeta in Hrun.
  rewrite Hp in Hrun. destruct Hrun as [Hout Hst].
  split; [exact Hst|]. exists blk', e'. auto.
Qed.

(** *** The scenarios *)

(** Counterexample to claim C1 as stated: during a move, a successful
    [DeleteMany] removes the block from the active store and not from the
    shadow store. *)
Lemma delete_not_applied_to_shadow :
  let r := DeleteMany no_delete_faults moving_store [blake_cid] in
  r_out r = Returned None ∧
  kv (db (r_store r)) !! key_of moving_store blake_cid = None ∧
  dbNext (r_store r) ≫= (fun dn => kv dn !! key_of moving_store blake_cid) = Some hello.
Proof. vm_compute. repeat split. Qed.

Lemma writes_during_move_witness :
  dbNext moving_store = Some {| db_dir := shadow_dir; kv := kv (db hello_store) |} ∧
  r_out (PutMany no_put_faults moving_store [blocks.NewBlockWithCid HELLO sha2_cid])
  = Returned None ∧
  exists keys jrnl,
    probe (pf_get no_put_faults) (db moving_store) 0
      (keys_of moving_store [blocks.NewBlockWithCid HELLO sha2_cid])
      [blocks.NewBlockWithCid HELLO sha2_cid] [] = inl (keys, jrnl) ∧
    dbNext (r_store (PutMany no_put_faults moving_store
                       [blocks.NewBlockWithCid HELLO sha2_cid]))
    = Some (commit (batch_of keys [blocks.NewBlockWithCid HELLO sha2_cid])
              {| db_dir := shadow_dir; kv := kv (db hello_store) |}).
Proof.
  assert (Hok : r_out (PutMany no_put_faults moving_store
                         [blocks.NewBlockWithCid HELLO sha2_cid]) = Returned None)
    by (vm_compute; reflexivity).
  split; [reflexivity|]. split; [exact Hok|].
  destruct (writes_during_move no_put_faults no_delete_faults moving_store
              [blocks.NewBlockWithCid HELLO sha2_cid] [blake_cid]
              {| db_dir := shadow_dir; kv := kv (db hello_store) |} eq_refl)
    as [Hput _].
  destruct (Hput Hok) as (keys & jrnl & j & jn & Hp & _ & _ & _ & Hdn & _).
  exists keys, jrnl. split; [exact Hp|exact Hdn].
Defined.



(** Counterexample to claim C4 as stated: after "hello" was put under
    the cid, a put of "HELLO" under the same cid returns no error and the
    entry still holds "hello"; it was not overwritten. *)
Lemma re_put_keeps_old_bytes :
  let r1 := PutMany no_put_faults empty_store [blocks.NewBlockWithCid hello blake_cid] in
  let r2 := PutMany no_put_faults (r_store r1) [blocks.NewBlockWithCid HELLO blake_cid] in
  r_out r1 = Returned None ∧ r_out r2 = Returned None ∧
  kv (db (r_store r2)) !! key_of empty_store blake_cid = Some hello ∧
  kv (db (r_store r2)) !! key_of empty_store blake_cid <> Some HELLO.
Proof. vm_compute. repeat split. discriminate. Qed.

Lemma enterable_store_with pfx content : enterable (store_with pfx content).
Proof. split; reflexivity. Defined.

Lemma re_put_is_skipped_witness :
  enterable hello_store ∧
  kv (db hello_store) !! key_of hello_store blake_cid = Some hello ∧
  db (r_store (PutMany no_put_faults hello_store [blocks.NewBlockWithCid HELLO blake_cid]))
  = db hello_store.
Proof.
  assert (Hk : kv (db hello_store) !! key_of hello_store blake_cid = Some hello)
    by (vm_compute; reflexivity).
  split; [apply enterable_store_with|]. split; [exact Hk|].
  apply (re_put_is_skipped no_put_faults hello_store
           (blocks.NewBlockWithCid HELLO blake_cid) hello
           (enterable_store_with _ _) Hk eq_refl).
Defined.

(** Counterexample to claim C5 as stated: a store opened on a directory
    that already has an entry under the key of a cid whose multihash prefix
    is not in the table accepts a put of a block with that cid. *)
Lemma unsupported_block_accepted :
  Open foreign_dir cold_world (store_opts []) = (world0, inl foreign_store) ∧
  ~ supported (cid.Hash unknown_cid) ∧
  r_out (PutMany no_put_faults foreign_store [blocks.NewBlockWithCid HELLO unknown_cid])
  = Returned None.
Proof.
  split; [vm_compute; reflexivity|]. split; [|vm_compute; reflexivity].
  intros Hs. apply isMultihashSupported_complete in Hs as [smh Hs].
  vm_compute in Hs. discriminate Hs.
Qed.

Lemma unknown_not_supported : ~ supported (cid.Hash unknown_cid).
Proof.
  intros Hs. apply isMultihashSupported_complete in Hs as [smh Hs].
  vm_compute in Hs. discriminate Hs.
Defined.

Lemma unsupported_batch_rejected_witness :
  enterable empty_store ∧
  kv (db empty_store) !! key_of empty_store unknown_cid = None ∧
  ~ supported (cid.Hash unknown_cid) ∧
  r_store (PutMany no_put_faults empty_store [blocks.NewBlockWithCid HELLO unknown_cid])
  = empty_store.
Proof.
  split; [apply enterable_store_with|]. split; [reflexivity|].
  split; [exact unknown_not_supported|].
  apply (unsupported_batch_rejected no_put_faults empty_store
           [blocks.NewBlockWithCid HELLO unknown_cid]
           (blocks.NewBlockWithCid HELLO unknown_cid)
           (enterable_store_with _ _) (fun _ => eq_refl)
           (list_elem_of_here _ _) eq_refl unknown_not_supported).
Defined.

(** Scenarios S1 to S3 of the specification. *)
Example scenario_S1 :
  let r := PutMany no_put_faults empty_store [blocks.NewBlockWithCid hello blake_cid] in
  r_out (Get no_read_faults (r_store r) blake_cid)
  = Returned (Some (blocks.NewBlockWithCid hello blake_cid), None) ∧
  option_map written (mhJournal (r_store r)) = Some (1 :: replicate 32 17).
Proof. vm_compute. repeat split. Qed.

Example scenario_S2 :
  let r1 := PutMany no_put_faults empty_store [blocks.NewBlockWithCid hello blake_cid] in
  let r2 := PutMany no_put_faults (r_store r1) [blocks.NewBlockWithCid hello blake_cid] in
  r_out r2 = Returned None ∧
  option_map (fun j => length (written j)) (mhJournal (r_store r2)) = Some 33%nat.
Proof. vm_compute. repeat split. Qed.

Example scenario_S3 :
  let r := PutMany no_put_faults empty_store [blocks.NewBlockWithCid hello unknown_cid] in
  r_out r = Returned (Some (Wrap "unsupported multihash for cid"
                              (ErrHashPrefix [240; 1; 32]))) ∧
  r_store r = empty_store.
Proof. vm_compute. repeat split. Qed.

(** A put during a move: both stores get the block and both journals
    the same record. *)
Example scenario_dual_write :
  let r := PutMany no_put_faults moving_store [blocks.NewBlockWithCid HELLO sha2_cid] in
  r_out r = Returned None ∧
  kv (db (r_store r)) !! key_of moving_store sha2_cid = Some HELLO ∧
  dbNext (r_store r) ≫= (fun dn => kv dn !! key_of moving_store sha2_cid) = Some HELLO ∧
  option_map written (mhJournal (r_store r)) = Some (0 :: replicate 32 34) ∧
  option_map written (mhJournalNext (r_store r)) = Some (0 :: replicate 32 34).
Proof. vm_compute. repeat split. Qed.

End write_facts.

(** ** The lifecycle gate *)

Module gate_facts.
Import badgerbs spec scenarios store_facts.

Lemma Close_not_open fl w b : state (r_store (Close fl w b).2) <> stateOpen.
Proof.
  unfold Close. destruct (state b) eqn:Hs.
  - cbn [viewers set_state]. destruct (negb (viewers b =? 0)); [cbn; discriminate|].
    destruct (mhJournal _); [destruct (cf_mhJournal fl)|]; cbn; discriminate.
  - cbn. rewrite Hs. discriminate.
  - cbn. rewrite Hs. discriminate.
Qed.

Lemma Close_again fl w b : state b <> stateOpen -> r_out (Close fl w b).2 = Returned None.
Proof. intros Hs. unfold Close. destruct (state b); [contradiction|reflexivity..]. Qed.

(** Claim C7, as the code has it. Once [Close] has been called, whether
    it is still waiting for callers or done, every public operation
    returns the closed error, with one exception: [Get] of an undefined
    cid returns not-found, because it looks at the cid before it looks at
    the gate. Another [Close] returns no error. *)
Theorem after_close (cfl : CloseFaults) (w : Sys) (b : Blockstore) :
  let b' := r_store (Close cfl w b).2 in
  state b' <> stateOpen ∧
  (forall fl c, r_out (Has fl b' c) = Returned (false, Some ErrBlockstoreClosed)) ∧
  (forall fl c fn, r_out (View fl b' c fn) = Returned (Some ErrBlockstoreClosed)) ∧
  (forall fl c, r_out (Get fl b' c) =
     Returned (None, Some (if cid.Defined c then ErrBlockstoreClosed else ErrNotFound c))) ∧
  (forall fl c, r_out (GetSize fl b' c) = Returned (0, Some ErrBlockstoreClosed)) ∧
  (forall fl blks, r_out (PutMany fl b' blks) = Returned (Some ErrBlockstoreClosed)) ∧
  (forall fl cids, r_out (DeleteMany fl b' cids) = Returned (Some ErrBlockstoreClosed)) ∧
  (forall env f, r_out (ForEachKey env b' f) = Returned ([], Some ErrBlockstoreClosed)) ∧
  (forall env, r_out (AllKeysChan env b') = Returned (None, Some ErrBlockstoreClosed)) ∧
  (forall fl, r_out (Flush fl b') = Returned (Some ErrBlockstoreClosed)) ∧
  (forall env w' os,
     r_out (CollectGarbage env w' b' os).2 = Returned (Some ErrBlockstoreClosed)) ∧
  (forall env os, r_out (GCOnce env b' os) = Returned (Some ErrBlockstoreClosed)) ∧
  (forall fl w', r_out (Close fl w' b').2 = Returned None).
Proof.
  intros b'. pose proof (Close_not_open cfl w b) as Hs. fold b' in Hs.
  pose proof (access_closed b' Hs) as Ha.
  split; [exact Hs|].
  repeat split; intros.
  - unfold Has. rewrite Ha. reflexivity.
  - unfold View. rewrite Ha. reflexivity.
  - unfold Get. destruct (cid.Defined c); cbn [negb]; [rewrite Ha|]; reflexivity.
  - unfold GetSize. rewrite Ha. reflexivity.
  - unfold PutMany. rewrite Ha. reflexivity.
  - unfold DeleteMany. rewrite Ha. reflexivity.
  - unfold ForEachKey. rewrite Ha. reflexivity.
  - unfold AllKeysChan. rewrite Ha. reflexivity.
  - unfold Flush. rewrite Ha. reflexivity.
  - unfold CollectGarbage. rewrite Ha. reflexivity.
  - unfold GCOnce. rewrite Ha. reflexivity.
  - apply Close_again, Hs.
Qed.

(** Counterexample to claim C7 as stated: on a closed store, [Get] of
    the undefined cid returns not-found and not the closed error. *)
Lemma get_undefined_when_closed :
  let b := r_store (Close no_close_faults world0 empty_store).2 in
  state b = stateClosed ∧
  r_out (Get no_read_faults b cid.Undef) = Returned (None, Some (ErrNotFound cid.Undef)) ∧
  r_out (Get no_read_faults b cid.Undef) <> Returned (None, Some ErrBlockstoreClosed).
Proof. vm_compute. repeat split. discriminate. Qed.

End gate_facts.

(** ** Iteration *)

Module iteration_facts.
Import badgerbs spec scenarios store_facts.

Lemma closing_quiet i b : closing quiet i b = b.
Proof. reflexivity. Qed.

Lemma decoded_same b b' k :
  prefixing b' = prefixing b -> prefixLen b' = prefixLen b -> decoded b' k = decoded b k.
Proof. intros Hp Hl. unfold decoded, strip_prefix. rewrite Hp, Hl. reflexivity. Qed.

(** With nothing else going on, the channel delivers the cid of every
    key that decodes, in order, and the producer logs one warning for
    every key that does not. *)
Lemma AllKeysChan_loop_quiet i b ks :
  isOpen b = true ->
  AllKeysChan_loop quiet i b ks =
  (b, omap (decoded b) ks,
   map (fun _ => LogWarn warn_undecodable) (filter (fun k => decoded b k = None) ks)).
Proof.
  intros Ho. revert i. induction ks as [|k ks IH]; intros i; [reflexivity|].
  cbn [AllKeysChan_loop]. change (reached (ie_cancel_at quiet) i) with false.
  change (reached (ie_cancel_send quiet) i) with false. cbv iota.
  rewrite closing_quiet, Ho. cbn [negb]. rewrite IH.
  assert (Hdk : decoded b k = match base32.Decode (strip_prefix b k) with
                              | inl mh => Some (cid.NewCidV1 cid.Raw mh)
                              | inr _ => None
                              end) by reflexivity.
  cbn [omap list_omap].
  destruct (base32.Decode (strip_prefix b k)) as [mh|p]; rewrite Hdk.
  - rewrite filter_cons_False; [reflexivity|]. rewrite Hdk. discriminate.
  - rewrite filter_cons_True; [reflexivity|]. exact Hdk.
Qed.

(** [ForEachKey] stops at the first key that does not decode and
    returns the decoding error. *)
Lemma ForEachKey_loop_corrupt f i b ks1 k ks2 p :
  isOpen b = true ->
  Forall (fun k' => is_Some (decoded b k')) ks1 ->
  (forall c, c ∈ omap (decoded b) ks1 -> f c = None) ->
  base32.Decode (strip_prefix b k) = inr p ->
  ForEachKey_loop quiet f i b (ks1 ++ k :: ks2) =
  (b, omap (decoded b) ks1, Some (ErrCorruptInput p)).
Proof.
  intros Ho Hks Hf Hk. revert i. induction Hks as [|k1 ks1 [c Hc] _ IH]; intros i.
  - cbn [app ForEachKey_loop]. rewrite closing_quiet, Ho. cbn [negb]. rewrite Hk.
    reflexivity.
  - cbn [app ForEachKey_loop]. rewrite closing_quiet, Ho. cbn [negb].
    cbn [omap list_omap] in *. rewrite Hc in *.
    unfold decoded in Hc. destruct (base32.Decode (strip_prefix b k1)) as [mh|]; [|discriminate].
    injection Hc as <-.
    rewrite (Hf (cid.NewCidV1 cid.Raw mh)) by apply list_elem_of_here.
    rewrite IH; [reflexivity|].
    intros c' Hin. apply Hf. apply list_elem_of_further, Hin.
Qed.

Lemma filter_decodable b ks :
  Forall (fun k' => is_Some (decoded b k')) ks ->
  filter (fun k' => decoded b k' = None) ks = [].
Proof.
  induction 1 as [|k ks [c Hc] _ IH]; [reflexivity|].
  rewrite filter_cons_False; [exact IH|]. rewrite Hc. discriminate.
Qed.

(** Claim C10. When the iterator meets a key whose base32 text does not
    decode, [AllKeysChan] logs a warning, skips the key and goes on: the
    channel delivers the cids of all other keys that decode and the call
    reports no error. [ForEachKey] on the same store stops at that key and
    returns the decoding error to its caller. *)
Theorem undecodable_key_handling (b : Blockstore) (f : cid.Cid -> option Err)
    (ks1 ks2 : list (list Z)) (k : list Z) (p : base32.CorruptInputError) :
  enterable b ->
  iterator_keys b = ks1 ++ k :: ks2 ->
  Forall (fun k' => is_Some (decoded b k')) ks1 ->
  (forall c, c ∈ omap (decoded b) ks1 -> f c = None) ->
  base32.Decode (strip_prefix b k) = inr p ->
  r_out (AllKeysChan quiet b)
  = Returned (Some (omap (decoded b) ks1 ++ omap (decoded b) ks2), None) ∧
  r_trace (AllKeysChan quiet b)
  = LogWarn warn_undecodable
    :: map (fun _ => LogWarn warn_undecodable) (filter (fun k' => decoded b k' = None) ks2) ∧
  r_out (ForEachKey quiet b f)
  = Returned (omap (decoded b) ks1, Some (ErrCorruptInput p)).
Proof.
  intros Ha Hks H1 Hf Hk.
  assert (Ho : isOpen b = true) by (unfold isOpen; destruct Ha as [-> _]; reflexivity).
  assert (Hdk : decoded b k = None) by (unfold decoded; rewrite Hk; reflexivity).
  unfold AllKeysChan, ForEachKey.
  rewrite access_open by apply Ha. rewrite lockDB_enterable by exact Ha.
  set (b1 := set_rlock (rlock b + 1) (set_viewers (viewers b + 1) b)).
  change (iterator_keys b1) with (iterator_keys b). rewrite Hks.
  rewrite AllKeysChan_loop_quiet by exact Ho.
  rewrite (ForEachKey_loop_corrupt f 0 b1 ks1 k ks2 p Ho H1 Hf Hk).
  cbn [r_out r_trace].
  change (decoded (unlockDB b1)) with (decoded b).
  change (decoded b1) with (decoded b).
  rewrite omap_app. cbn [omap list_omap]. rewrite Hdk.
  rewrite filter_app, (filter_decodable _ _ H1), app_nil_l.
  rewrite filter_cons_True by exact Hdk.
  repeat split.
Qed.

Lemma undecodable_key_handling_witness :
  enterable corrupt_store ∧
  iterator_keys corrupt_store = [] ++ [33] :: [key_of corrupt_store blake_cid] ∧
  base32.Decode (strip_prefix corrupt_store [33]) = inr 0%nat ∧
  r_out (ForEachKey quiet corrupt_store (fun _ => None))
  = Returned (omap (decoded corrupt_store) [], Some (ErrCorruptInput 0%nat)).
Proof.
  assert (Hk : iterator_keys corrupt_store = [] ++ [33] :: [key_of corrupt_store blake_cid])
    by (vm_compute; reflexivity).
  assert (Hd : base32.Decode (strip_prefix corrupt_store [33]) = inr 0%nat)
    by (vm_compute; reflexivity).
  split; [split; reflexivity|]. split; [exact Hk|]. split; [exact Hd|].
  apply (undecodable_key_handling corrupt_store (fun _ => None) []
           [key_of corrupt_store blake_cid] [33] 0%nat
           (conj eq_refl eq_refl) Hk (Forall_nil_2 _) (fun _ _ => eq_refl) Hd).
Defined.

(** Scenario S6: with the prefix "ns/", the key the engine sees starts
    with the prefix and the iteration gives the cid of the block back. *)
Example scenario_S6 :
  let r := PutMany no_put_faults (store_with ns ∅) [blocks.NewBlockWithCid hello blake_cid] in
  iterator_keys (r_store r) = [ns ++ base32.Encode blake_mh] ∧
  r_out (ForEachKey quiet (r_store r) (fun _ => None)) = Returned ([blake_cid], None) ∧
  r_out (AllKeysChan quiet (r_store r)) = Returned (Some [blake_cid], None).
Proof. vm_compute. repeat split. Qed.

End iteration_facts.

(** ** The key buffer pool *)

Module pool_facts.
Import badgerbs spec scenarios store_facts.

Lemma outstanding_gets held ks tr :
  outstanding_from held (map KeyPoolGet ks ++ tr) = outstanding_from (held ++ ks) tr.
Proof.
  revert held. induction ks as [|k ks IH]; intros held; cbn.
  - rewrite app_nil_r. reflexivity.
  - rewrite IH. rewrite <- app_assoc. reflexivity.
Qed.

Lemma outstanding_puts ks : outstanding_from ks (map KeyPoolPut ks) = [].
Proof.
  induction ks as [|k ks IH]; [reflexivity|].
  cbn. rewrite bool_decide_eq_true_2 by reflexivity. exact IH.
Qed.

Lemma all_pooled {A} b (g : A -> cid.Cid) (l : list A) :
  map fst (filter (fun kp : list Z * bool => kp.2 = true)
             (map (fun x => PooledStorageKey b (g x)) l))
  = map fst (map (fun x => PooledStorageKey b (g x)) l).
Proof.
  f_equal. induction l as [|x l IH]; [reflexivity|].
  cbn [map]. rewrite filter_cons_True by apply PooledStorageKey_pooled.
  f_equal. exact IH.
Qed.

(** The reads return the key buffer they take, on every path. *)
Lemma reads_return_the_key fl b c fn :
  outstanding (r_trace (Has fl b c)) = [] ∧
  outstanding (r_trace (Get fl b c)) = [] ∧
  outstanding (r_trace (GetSize fl b c)) = [] ∧
  outstanding (r_trace (View fl b c fn)) = [].
Proof.
  assert (Hk : forall b' : Blockstore,
             outstanding (key_events (PooledStorageKey b' c).1 (PooledStorageKey b' c).2) = []).
  { intros b'. rewrite PooledStorageKey_pooled. unfold outstanding. cbn.
    rewrite bool_decide_eq_true_2 by reflexivity. reflexivity. }
  unfold Has, Get, GetSize, View.
  destruct (cid.Defined c); cbn [negb];
    destruct (access b) as [b1 [e|]]; cbn [r_trace];
    try (repeat split; reflexivity);
    destruct (lockDB b1) as [b2|]; cbn [r_trace];
    try (repeat split; reflexivity);
    specialize (Hk b2); destruct (PooledStorageKey b2 c) as [k pooled];
    cbn [fst snd] in Hk;
    destruct (badgerGet (rf_get fl) (db b2) k) as [val err];
    cbn [r_trace]; repeat split; exact Hk.
Qed.

(** [PutMany] returns the key buffers only when the store uses a prefix. *)
Lemma PutMany_pool fl b blks :
  enterable b ->
  outstanding (r_trace (PutMany fl b blks)) = if prefixing b then [] else keys_of b blks.
Proof.
  intros Ha. unfold PutMany.
  rewrite access_open by apply Ha. rewrite lockDB_enterable by exact Ha.
  cbv zeta. rewrite (all_pooled _ blocks.Cid). rewrite !keys_of_entered.
  set (b1 := set_rlock (rlock b + 1) (set_viewers (viewers b + 1) b)).
  assert (Htr : outstanding (map KeyPoolGet (keys_of b blks)
                  ++ [SlabGet (length blks * mhJournalRecordLen);
                      SlabPut (length blks * mhJournalRecordLen)]
                  ++ return_keys b1 (keys_of b blks))
                = if prefixing b then [] else keys_of b blks).
  { unfold outstanding. rewrite outstanding_gets. cbn [app outstanding_from].
    unfold return_keys. change (prefixing b1) with (prefixing b).
    destruct (prefixing b); [apply outstanding_puts|reflexivity]. }
  destruct (probe _ _ _ _ _ _) as [[keys jrnl]|err]; [|exact Htr].
  destruct (put (pf_active fl) _ _ _ _ _) as [[d j] out].
  destruct out as [[e|]| | |]; try exact Htr.
  destruct (dbNext _); [|exact Htr].
  destruct (put (pf_shadow fl) _ _ _ _ _) as [[dn' jn'] out']. exact Htr.
Qed.

(** Claim C9 does not hold of the code: a [PutMany] on a store without
    prefix succeeds and leaves the key buffer of its block outside the
    pool, although [PooledStorageKey] handed it out as pooled. *)
Theorem put_keeps_key_buffer_without_prefix :
  let r := PutMany no_put_faults empty_store [blocks.NewBlockWithCid hello blake_cid] in
  r_out r = Returned None ∧
  prefixing empty_store = false ∧
  (PooledStorageKey empty_store blake_cid).2 = true ∧
  outstanding (r_trace r) = [key_of empty_store blake_cid].
Proof. vm_compute. repeat split. Qed.

(** The same batch on a store with the prefix "ns/" returns the buffer,
    and so does not [DeleteMany] without prefix. *)
Example put_returns_key_buffer_with_prefix :
  outstanding (r_trace (PutMany no_put_faults (store_with ns ∅)
                          [blocks.NewBlockWithCid hello blake_cid])) = [].
Proof. vm_compute. reflexivity. Qed.

Example delete_keeps_key_buffer_without_prefix :
  outstanding (r_trace (DeleteMany no_delete_faults hello_store [blake_cid]))
  = [key_of hello_store blake_cid].
Proof. vm_compute. reflexivity. Qed.

End pool_facts.

(** ** The moving GC *)

Module move_facts.
Import badgerbs spec scenarios store_facts.

(** Claim C2 does not hold of the code: when the journal of the new
    directory cannot be opened, [movingGC] returns that error with the
    move state back at none and the canonical path untouched, but the
    badger database it had just opened in the new directory is neither
    closed nor deleted. *)
Theorem shadow_left_open_when_journal_fails :
  let r := movingGC journal_fails world0 hello_store in
  r_out r.2 = Returned (Some (ErrIO 13)) ∧
  moveState (r_store r.2) = moveStateNone ∧
  dbNext (r_store r.2) = None ∧
  fs r.1 !! store_dir = fs world0 !! store_dir ∧
  new_dir ∈ dbs r.1 ∧
  fs r.1 !! new_dir = Some DirNode ∧
  fs world0 !! new_dir = None.
Proof.
  vm_compute. repeat split.
Qed.

(** Scenario S5: the context is cancelled during the copy. The context
    error comes back, the store directory is as before, the shadow
    directory and its handles are gone, and another GC can start. *)
Example scenario_S5 :
  let r := movingGC cancelled_move world0 hello_store in
  r_out r.2 = Returned (Some (Wrap "error moving badger blockstore" ErrContext)) ∧
  moveState (r_store r.2) = moveStateNone ∧
  dbNext (r_store r.2) = None ∧ mhJournalNext (r_store r.2) = None ∧
  r.1 = world0 ∧
  r_out (movingGC (quiet_move (one_group hello_store)) r.1 (r_store r.2)).2 = Returned None.
Proof.
  vm_compute. repeat split.
Qed.

(** A move that meets no failure: the store directory becomes a link to
    the new directory, which holds the block and a journal record. *)
Example scenario_move :
  let r := movingGC (quiet_move (one_group hello_store)) world0 hello_store in
  r_out r.2 = Returned None ∧
  moveState (r_store r.2) = moveStateNone ∧
  fs r.1 !! store_dir = Some (LinkNode true ["bs.1000"]) ∧
  fs r.1 !! new_dir = Some DirNode ∧
  kv (db (r_store r.2)) !! key_of hello_store blake_cid = Some hello ∧
  option_map written (mhJournal (r_store r.2)) = Some (1 :: replicate 32 17).
Proof.
  cbv zeta. repeat split; vm_compute; reflexivity.
Qed.

(** A second moving GC while one is underway is turned away. *)
Lemma move_in_progress env w b :
  moveState b <> moveStateNone ->
  movingGC env w b = (w, mkResult b [] (Returned (Some ErrMoveInProgress))).
Proof.
  intros Hm. unfold movingGC. destruct (moveState b); [contradiction|reflexivity..].
Qed.

End move_facts.

(** * Further properties *)

(** ** The digest policy and the keys *)

Module digest_more.
Import badgerbs spec scenarios base32_facts codec_facts store_facts digest_facts.

Lemma blake_accepted d :
  length d = 32%nat ->
  isMultihashSupported ([160; 228; 2; 32] ++ d)
  = inl {| cidMaker := cid.NewPrefixV1 cid.Raw Blake2b256; journalShortCode := 1 |}.
Proof.
  intros Hd. do 32 (destruct d as [|? d]; [discriminate Hd|]).
  destruct d; [|discriminate Hd]. vm_compute. reflexivity.
Qed.

Lemma sha2_accepted d :
  length d = 32%nat ->
  isMultihashSupported ([18; 32] ++ d)
  = inl {| cidMaker := cid.NewPrefixV1 cid.Raw Sha2_256; journalShortCode := 0 |}.
Proof.
  intros Hd. do 32 (destruct d as [|? d]; [discriminate Hd|]).
  destruct d; [|discriminate Hd]. vm_compute. reflexivity.
Qed.

(** X1. [isMultihashSupported] accepts exactly the multihashes made of
    the BLAKE2b-256 header [A0 E4 02 20] or the SHA2-256 header [12 20]
    followed by 32 bytes, with journal code 1 for the first family and 0
    for the second; everything else it rejects. *)
Theorem digest_policy_exact (mh : list Z) :
  match isMultihashSupported mh with
  | inl smh =>
      exists d, length d = 32%nat ∧
        ((mh = [160; 228; 2; 32] ++ d ∧ journalShortCode smh = 1) ∨
         (mh = [18; 32] ++ d ∧ journalShortCode smh = 0))
  | inr _ =>
      forall d, length d = 32%nat -> mh <> [160; 228; 2; 32] ++ d ∧ mh <> [18; 32] ++ d
  end.
Proof.
  destruct (isMultihashSupported mh) as [smh|e] eqn:H.
  - destruct (isMultihashSupported_sound mh smh H) as (pfx & d & -> & Hp & Hd).
    exists d. split; [exact Hd|].
    destruct (table_prefixes pfx Hp) as [->| ->].
    + left. split; [reflexivity|]. rewrite blake_accepted in H by exact Hd.
      injection H as <-. reflexivity.
    + right. split; [reflexivity|]. rewrite sha2_accepted in H by exact Hd.
      injection H as <-. reflexivity.
  - intros d Hd. split; intros ->.
    + rewrite blake_accepted in H by exact Hd. discriminate H.
    + rewrite sha2_accepted in H by exact Hd. discriminate H.
Qed.

(** X2. Two cids have the same storage key exactly when they have the
    same multihash: the version and the codec of a cid play no part in
    the key. *)
Theorem storage_key_injective (b : Blockstore) (c1 c2 : cid.Cid) :
  codec_inv b -> bytes_ok (cid.Hash c1) -> bytes_ok (cid.Hash c2) ->
  (key_of b c1 = key_of b c2 <-> cid.Hash c1 = cid.Hash c2).
Proof.
  intros Hinv H1 H2. unfold key_of. rewrite !PooledStorageKey_eq by exact Hinv.
  cbn [fst]. split.
  - intros Heq. apply app_inv_head in Heq.
    assert (Hd : base32.Decode (base32.Encode (cid.Hash c1))
                 = base32.Decode (base32.Encode (cid.Hash c2))) by (rewrite Heq; reflexivity).
    rewrite !Decode_Encode in Hd by assumption. injection Hd as Hd. exact Hd.
  - intros ->. reflexivity.
Qed.

Lemma storage_key_injective_witness :
  codec_inv (store_with ns ∅) ∧
  (key_of (store_with ns ∅) (cid.CidV0 sha2_mh) = key_of (store_with ns ∅) sha2_cid
   <-> cid.Hash (cid.CidV0 sha2_mh) = cid.Hash sha2_cid).
Proof.
  assert (Hi : codec_inv (store_with ns ∅)) by (split; reflexivity).
  assert (Hb : bytes_ok sha2_mh) by (apply bytes_ok_forallb; reflexivity).
  split; [exact Hi|].
  apply (storage_key_injective (store_with ns ∅) (cid.CidV0 sha2_mh) sha2_cid Hi Hb Hb).
Defined.

End digest_more.

(** ** Reads and the two locks *)

Module read_more.
Import badgerbs spec scenarios store_facts.




Lemma leave_lockDB b1 b2 :
  lockDB b1 = Some b2 -> unlockDB b2 = b1.
Proof.
  unfold lockDB. destruct (_ && _); [discriminate|]. intros H. injection H as <-.
  destruct b1. unfold unlockDB, set_rlock. cbn. f_equal. lia.
Qed.

Lemma Done_access b b1 : access b = (b1, None) -> viewers_Done b1 = b.
Proof.
  unfold access. destruct (state b); [|discriminate..]. intros H. injection H as <-.
  destruct b. unfold viewers_Done, set_viewers. cbn. f_equal. lia.
Qed.

Lemma leave_after b b1 b2 :
  access b = (b1, None) -> lockDB b1 = Some b2 -> leave b2 = b.
Proof.
  intros Ha Hl. unfold leave. rewrite (leave_lockDB _ _ Hl). apply Done_access, Ha.
Qed.

Lemma access_refused b b1 e : access b = (b1, Some e) -> b1 = b.
Proof. unfold access. destruct (state b); [discriminate|..]; intros H; injection H as <- _; reflexivity. Qed.

(** X4. A read or a flush that returns, with or without an error and
    whatever the engine does, leaves the store exactly as it found it:
    no field changes, and the counter of callers inside and the count of
    shared lock holders are back at their values. *)
Theorem reads_leave_the_store (rfl : ReadFaults) (ffl : FlushFaults) (b : Blockstore)
    (c : cid.Cid) (fn : list Z -> option Err) :
  (r_out (Has rfl b c) <> Blocked -> r_store (Has rfl b c) = b) ∧
  (r_out (Get rfl b c) <> Blocked -> r_store (Get rfl b c) = b) ∧
  (r_out (GetSize rfl b c) <> Blocked -> r_store (GetSize rfl b c) = b) ∧
  (r_out (View rfl b c fn) <> Blocked -> r_store (View rfl b c fn) = b) ∧
  (r_out (Flush ffl b) <> Blocked -> r_store (Flush ffl b) = b).
Proof.
  unfold Has, Get, GetSize, View, Flush.
  destruct (access b) as [b1 [e|]] eqn:Ha.
  { apply access_refused in Ha. subst b1.
    destruct (cid.Defined c); cbn; repeat split; reflexivity. }
  destruct (lockDB b1) as [b2|] eqn:Hl.
  2:{ destruct (cid.Defined c); cbn; repeat split; intros H; try reflexivity;
        exfalso; apply H; reflexivity. }
  pose proof (leave_after _ _ _ Ha Hl) as Hleave.
  destruct (PooledStorageKey b2 c) as [k pooled].
  destruct (badgerGet (rf_get rfl) (db b2) k) as [val err].
  destruct (cid.Defined c); cbn [negb r_store r_out]; repeat split; intros _; exact Hleave.
Qed.

(** X5. While the exclusive move lock is held and no shared holder is
    inside, every operation on the key-value data waits: none of them
    returns, and none has touched a database or a journal. *)
Theorem exclusive_lock_keeps_out (b : Blockstore) (rfl : ReadFaults) (pfl : PutFaults)
    (dfl : DeleteFaults) (ffl : FlushFaults) (env : IterEnv) (c : cid.Cid)
    (fn : list Z -> option Err) (f : cid.Cid -> option Err)
    (blks : list blocks.Block) (cids : list cid.Cid) :
  fenced b -> cid.Defined c = true ->
  r_out (Has rfl b c) = Blocked ∧ r_out (Get rfl b c) = Blocked ∧
  r_out (GetSize rfl b c) = Blocked ∧ r_out (View rfl b c fn) = Blocked ∧
  r_out (Flush ffl b) = Blocked ∧
  r_out (ForEachKey env b f) = Blocked ∧ r_out (AllKeysChan env b) = Blocked ∧
  (r_out (PutMany pfl b blks) = Blocked ∧
   db (r_store (PutMany pfl b blks)) = db b ∧
   mhJournal (r_store (PutMany pfl b blks)) = mhJournal b ∧
   dbNext (r_store (PutMany pfl b blks)) = dbNext b ∧
   mhJournalNext (r_store (PutMany pfl b blks)) = mhJournalNext b) ∧
  (r_out (DeleteMany dfl b cids) = Blocked ∧
   db (r_store (DeleteMany dfl b cids)) = db b).
Proof.
  intros (Hs & Hr & Hm) Hd.
  assert (Ha : access b = (set_viewers (viewers b + 1) b, None)) by (apply access_open, Hs).
  assert (Hl : lockDB (set_viewers (viewers b + 1) b) = None).
  { unfold lockDB. cbn. rewrite Hr, Hm. reflexivity. }
  unfold Has, Get, GetSize, View, Flush, ForEachKey, AllKeysChan, PutMany, DeleteMany.
  rewrite Hd, Ha, Hl. cbn. repeat split.
Qed.

Lemma exclusive_lock_keeps_out_witness :
  fenced fenced_store ∧ cid.Defined blake_cid = true ∧
  r_out (Has no_read_faults fenced_store blake_cid) = Blocked.
Proof.
  assert (Hf : fenced fenced_store) by (repeat split).
  split; [exact Hf|]. split; [reflexivity|].
  apply (exclusive_lock_keeps_out fenced_store no_read_faults no_put_faults no_delete_faults
           {| ff_dbNext := None; ff_mhJournalNext := None; ff_mhJournal := None; ff_db := None |}
           quiet blake_cid (fun _ => None) (fun _ => None) [] [] Hf eq_refl).
Defined.

End read_more.

(** ** More on the write path *)

Module write_more.
Import badgerbs spec scenarios base32_facts codec_facts store_facts digest_facts write_facts.

Lemma journal_record_length mh smh :
  isMultihashSupported mh = inl smh -> length (journal_record mh) = 33%nat.
Proof.
  intros H. unfold journal_record. rewrite H.
  destruct (isMultihashSupported_sound mh smh H) as (pfx & d & -> & _ & Hd).
  cbn [length]. rewrite length_drop, length_app. unfold supportedHashLen in *. lia.
Qed.

(** The journal buffer of a probe: one record for every block whose key
    is not in the database, in the order of the batch. *)
Lemma probe_journal get d (kf : blocks.Block -> list Z) i blks j keys jrnl :
  probe get d i (map kf blks) blks j = inl (keys, jrnl) ->
  jrnl = j ++ concat (map (fun blk => journal_record (cid.Hash (blocks.Cid blk)))
                        (filter (fun blk => kv d !! kf blk = None) blks)) ∧
  Forall (fun blk => exists smh, isMultihashSupported (cid.Hash (blocks.Cid blk)) = inl smh)
         (filter (fun blk => kv d !! kf blk = None) blks).
Proof.
  revert i j keys jrnl. induction blks as [|blk blks IH]; intros i j keys jrnl H.
  - cbn in H. injection H as _ <-. cbn. rewrite app_nil_r. split; [reflexivity|constructor].
  - cbn [map probe] in H. unfold badgerGet in H.
    destruct (get i); [discriminate H|].
    destruct (kv d !! kf blk) as [v|] eqn:Hk.
    + destruct (probe get d (S i) (map kf blks) blks j) as [[keys' j']|] eqn:Hp; [|discriminate H].
      injection H as _ <-. rewrite filter_cons_False by (rewrite Hk; discriminate).
      eapply IH, Hp.
    + destruct (isMultihashSupported (cid.Hash (blocks.Cid blk))) as [smh|] eqn:Hs;
        [|discriminate H].
      destruct (probe get d (S i) (map kf blks) blks _) as [[keys' j']|] eqn:Hp; [|discriminate H].
      injection H as _ <-. rewrite filter_cons_True by exact Hk.
      destruct (IH _ _ _ _ Hp) as [-> Hall]. split.
      * cbn [map concat]. unfold journal_record at 2. rewrite Hs.
        rewrite <- app_assoc. reflexivity.
      * apply Forall_cons_2; [eauto|exact Hall].
Qed.

Lemma records_length (l : list blocks.Block) :
  Forall (fun blk => exists smh, isMultihashSupported (cid.Hash (blocks.Cid blk)) = inl smh) l ->
  length (concat (map (fun blk => journal_record (cid.Hash (blocks.Cid blk))) l))
  = (33 * length l)%nat.
Proof.
  induction 1 as [|blk l [smh Hs] _ IH]; [reflexivity|].
  cbn [map concat length]. rewrite length_app, IH, (journal_record_length _ _ Hs). lia.
Qed.

(** X6. A successful [PutMany] appends to the journal exactly one record
    of 33 bytes for every block of the batch whose key was not in the
    store, in the order of the batch: the short code of the multihash
    family followed by the 32 bytes of the digest. Blocks that were there
    add nothing. *)
Theorem journal_grows_by_records (fl : PutFaults) (b : Blockstore)
    (blks : list blocks.Block) :
  r_out (PutMany fl b blks) = Returned None ->
  exists j j',
    mhJournal b = Some j ∧ mhJournal (r_store (PutMany fl b blks)) = Some j' ∧
    written j' = written j ++
      concat (map (fun blk => journal_record (cid.Hash (blocks.Cid blk)))
                  (fresh_blocks b blks)) ∧
    length (written j') = (length (written j) + 33 * length (fresh_blocks b blks))%nat.
Proof.
  intros Hok.
  destruct (PutMany_success fl b blks Hok) as (_ & keys & jrnl & j & Hp & Hj & _ & Hj' & _).
  unfold keys_of in Hp.
  destruct (probe_journal _ _ (fun blk => key_of b (blocks.Cid blk)) _ _ _ _ _ Hp)
    as [Hjr Hall].
  cbn [app] in Hjr. fold (fresh_blocks b blks) in Hjr, Hall.
  exists j, (fw_Write jrnl j). split; [exact Hj|]. split; [exact Hj'|].
  cbn [written fw_Write]. rewrite Hjr. split; [reflexivity|].
  rewrite length_app, records_length by exact Hall. reflexivity.
Qed.

Lemma journal_grows_by_records_witness :
  r_out (PutMany no_put_faults hello_store
           [blocks.NewBlockWithCid hello blake_cid; blocks.NewBlockWithCid HELLO sha2_cid])
  = Returned None ∧
  exists j j',
    mhJournal hello_store = Some j ∧
    mhJournal (r_store (PutMany no_put_faults hello_store
        [blocks.NewBlockWithCid hello blake_cid; blocks.NewBlockWithCid HELLO sha2_cid]))
    = Some j' ∧
    written j' = written j ++
      concat (map (fun blk => journal_record (cid.Hash (blocks.Cid blk)))
                  (fresh_blocks hello_store
                     [blocks.NewBlockWithCid hello blake_cid;
                      blocks.NewBlockWithCid HELLO sha2_cid])) ∧
    length (written j')
    = (length (written j) + 33 * length (fresh_blocks hello_store
        [blocks.NewBlockWithCid hello blake_cid; blocks.NewBlockWithCid HELLO sha2_cid]))%nat.
Proof.
  assert (Hok : r_out (PutMany no_put_faults hello_store
           [blocks.NewBlockWithCid hello blake_cid; blocks.NewBlockWithCid HELLO sha2_cid])
          = Returned None) by (vm_compute; reflexivity).
  split; [exact Hok|].
  apply (journal_grows_by_records no_put_faults hello_store _ Hok).
Defined.

(** *** What a put may change *)

Lemma batch_sets_prefix set i keys blks acc :
  exists rest,
    (batch_sets (fun _ => None) i keys blks acc).1 = (batch_sets set i keys blks acc).1 ++ rest.
Proof.
  revert i blks acc. induction keys as [|[k|] keys IH]; intros i blks acc.
  - exists []. cbn. rewrite app_nil_r. reflexivity.
  - destruct blks as [|blk blks]; [exists []; cbn; rewrite app_nil_r; reflexivity|].
    cbn [batch_sets]. destruct (set i).
    + destruct (batch_sets_acc (fun _ => None) (S i) keys blks
                  (acc ++ [(k, Some (blocks.RawData blk))])) as [-> _].
      cbn [fst]. rewrite <- app_assoc. eauto.
    + apply IH.
  - destruct blks as [|blk blks]; [exists []; cbn; rewrite app_nil_r; reflexivity|].
    cbn [batch_sets]. apply IH.
Qed.

(** Whatever happens, the database after [put] is the database before
    with some first entries of the batch applied. *)
Lemma put_db bf keys blks jrnl d mhj :
  exists pre rest,
    batch_of keys blks = pre ++ rest ∧
    (put bf keys blks jrnl d mhj).1.1 = commit pre d.
Proof.
  unfold put.
  destruct (batch_sets_prefix (bf_set bf) 0 keys blks []) as [rest0 Hpre].
  fold (batch_of keys blks) in Hpre.
  destruct (batch_sets (bf_set bf) 0 keys blks []) as [batch [e|]] eqn:Hb; cbn [fst] in Hpre.
  - exists (take (bf_committed bf) batch), (drop (bf_committed bf) batch ++ rest0).
    split; [|reflexivity]. rewrite app_assoc, take_drop. exact Hpre.
  - destruct (bf_flush bf).
    + exists (take (bf_committed bf) batch), (drop (bf_committed bf) batch ++ rest0).
      split; [|reflexivity]. rewrite app_assoc, take_drop. exact Hpre.
    + exists batch, rest0. split; [exact Hpre|].
      destruct mhj as [j|]; [destruct (bf_write bf) as [[n e]|]|]; reflexivity.
Qed.

Lemma commit_other batch d k :
  k ∉ batch.*1 -> kv (commit batch d) !! k = kv d !! k.
Proof.
  induction batch as [|[k' v'] batch IH] using rev_ind; intros Hk.
  - rewrite commit_nil. reflexivity.
  - rewrite commit_app. rewrite fmap_app in Hk. cbn in Hk.
    assert (Hne : k' <> k).
    { intros ->. apply Hk, elem_of_app. right. apply list_elem_of_here. }
    assert (Hb : k ∉ batch.*1).
    { intros Hin. apply Hk, elem_of_app. left. exact Hin. }
    cbn. destruct v';
      [rewrite lookup_insert_ne by exact Hne|rewrite lookup_delete_ne by exact Hne];
      apply IH, Hb.
Qed.

(** The keys of the batch are keys of blocks of the batch that were not
    in the database. *)
Lemma batch_keys_fresh get d i ks blks j keys jrnl k :
  probe get d i ks blks j = inl (keys, jrnl) -> length ks = length blks ->
  k ∈ (batch_of keys blks).*1 -> k ∈ ks ∧ kv d !! k = None.
Proof.
  intros Hp Hlen Hin.
  pose proof (probe_keys _ _ _ _ _ _ _ _ Hp Hlen) as Hkeys.
  apply list_elem_of_fmap in Hin as [[k' v] [-> Hin]]. cbn [fst].
  apply batch_of_from in Hin. apply list_elem_of_lookup in Hin as [n Hn].
  destruct (Forall2_lookup_r _ _ _ _ _ Hkeys Hn) as (k0 & Hk0 & [[Hx _]|[Hx Hnone]]);
    [discriminate Hx|].
  injection Hx as ->. split; [|exact Hnone].
  apply list_elem_of_lookup. eauto.
Qed.

Lemma PutMany_db fl b blks :
  match probe (pf_get fl) (db b) 0 (keys_of b blks) blks [] with
  | inl (keys, jrnl) =>
      exists pre rest,
        batch_of keys blks = pre ++ rest ∧
        db (r_store (PutMany fl b blks)) = commit pre (db b)
  | inr _ => db (r_store (PutMany fl b blks)) = db b
  end ∨ db (r_store (PutMany fl b blks)) = db b.
Proof.
  destruct (enterable_dec b) as [Ha|Hn].
  2:{ right. apply (PutMany_refused fl b blks Hn). }
  left. destruct (PutMany_run fl b blks Ha) as [_ Hrun]. cbv zeta in Hrun.
  destruct (probe (pf_get fl) (db b) 0 (keys_of b blks) blks []) as [[keys jrnl]|err].
  - destruct Hrun as (Hd & _). rewrite Hd. apply put_db.
  - destruct Hrun as [_ ->]. reflexivity.
Qed.

Lemma PutMany_present fl b blks :
  r_out (PutMany fl b blks) = Returned None ->
  forall blk, blk ∈ blks ->
    is_Some (kv (db (r_store (PutMany fl b blks))) !! key_of b (blocks.Cid blk)).
Proof.
  intros Hok blk Hin.
  destruct (PutMany_success fl b blks Hok) as (_ & keys & jrnl & j & Hp & _ & Hd & _).
  rewrite Hd.
  pose proof (probe_keys _ _ _ _ _ _ _ _ Hp (keys_of_length b blks)) as Hkeys.
  apply list_elem_of_lookup in Hin as [n Hn].
  pose proof (keys_of_lookup b blks n blk Hn) as Hkn.
  destruct (Forall2_lookup_l _ _ _ _ _ Hkeys Hkn) as (ko & Hko & [[-> Hsome]|[-> _]]).
  - apply commit_keeps; [apply batch_of_inserts|exact Hsome].
  - eapply commit_has; [apply batch_of_inserts|]. eapply batch_of_has; eassumption.
Qed.

(** X7. [PutMany] only ever adds entries for the blocks of its batch.
    Whatever it returns and whatever the engine does, an entry that was
    in the store keeps its bytes and a key outside the batch is as it
    was; and when it returns no error, every block of the batch has an
    entry. *)
Theorem put_only_adds (fl : PutFaults) (b : Blockstore) (blks : list blocks.Block) :
  let b' := r_store (PutMany fl b blks) in
  (forall k v, kv (db b) !! k = Some v -> kv (db b') !! k = Some v) ∧
  (forall k, k ∉ keys_of b blks -> kv (db b') !! k = kv (db b) !! k) ∧
  (r_out (PutMany fl b blks) = Returned None ->
   forall blk, blk ∈ blks -> is_Some (kv (db b') !! key_of b (blocks.Cid blk))).
Proof.
  intros b'. subst b'.
  assert (Hsame : forall k, (forall keys jrnl,
            probe (pf_get fl) (db b) 0 (keys_of b blks) blks [] = inl (keys, jrnl) ->
            k ∉ (batch_of keys blks).*1) ->
          kv (db (r_store (PutMany fl b blks))) !! k = kv (db b) !! k).
  { intros k Hk. destruct (PutMany_db fl b blks) as [H| ->]; [|reflexivity].
    destruct (probe (pf_get fl) (db b) 0 (keys_of b blks) blks []) as [[keys jrnl]|err];
      [|rewrite H; reflexivity].
    destruct H as (pre & rest & Hb & ->). apply commit_other.
    intros Hin. apply (Hk keys jrnl eq_refl). rewrite Hb, fmap_app.
    apply elem_of_app. left. exact Hin. }
  split; [|split].
  - intros k v Hk. rewrite Hsame; [exact Hk|].
    intros keys jrnl Hp Hin.
    destruct (batch_keys_fresh _ _ _ _ _ _ _ _ k Hp (keys_of_length b blks) Hin) as [_ Hnone].
    rewrite Hnone in Hk. discriminate Hk.
  - intros k Hk. apply Hsame. intros keys jrnl Hp Hin.
    destruct (batch_keys_fresh _ _ _ _ _ _ _ _ k Hp (keys_of_length b blks) Hin) as [Hks _].
    contradiction.
  - apply PutMany_present.
Qed.

(** *** Putting the same batch again *)

Lemma probe_present get d i ks blks j :
  length ks = length blks -> Forall (fun k => is_Some (kv d !! k)) ks ->
  match probe get d i ks blks j with
  | inl (keys, jrnl) => keys = replicate (length ks) None ∧ jrnl = j
  | inr _ => exists n, get n <> None
  end.
Proof.
  intros Hlen Hall. revert i blks Hlen.
  induction Hall as [|k ks [v Hk] _ IH]; intros i blks Hlen.
  - destruct blks; cbn; auto.
  - destruct blks as [|blk blks]; [discriminate Hlen|]. injection Hlen as Hlen.
    cbn [probe]. unfold badgerGet. destruct (get i) eqn:Hg.
    + exists i. rewrite Hg. discriminate.
    + rewrite Hk. specialize (IH (S i) blks Hlen).
      destruct (probe get d (S i) ks blks j) as [[keys jrnl]|]; [|exact IH].
      destruct IH as [-> ->]. auto.
Qed.

Lemma batch_sets_none set i n blks acc :
  batch_sets set i (replicate n None) blks acc = (acc, None).
Proof.
  revert i blks. induction n as [|n IH]; intros i blks; [reflexivity|].
  destruct blks as [|blk blks]; [reflexivity|]. cbn. apply IH.
Qed.

(** A [put] with nothing to set leaves the database, and the bytes of
    the journal, as they were. *)
Lemma put_none bf n blks d mhj :
  (put bf (replicate n None) blks [] d mhj).1.1 = d ∧
  written <$> (put bf (replicate n None) blks [] d mhj).1.2 = written <$> mhj ∧
  (bf_flush bf = None -> bf_write bf = None -> is_Some mhj ->
   (put bf (replicate n None) blks [] d mhj).2 = Returned None).
Proof.
  unfold put. rewrite batch_sets_none. rewrite take_nil, commit_nil.
  destruct (bf_flush bf); [cbn; split; [|split]; [reflexivity..|discriminate]|].
  destruct mhj as [j|].
  - destruct (bf_write bf) as [[m e]|]; cbn; rewrite ?take_nil, app_nil_r;
      (split; [|split]; [reflexivity..|]); [discriminate|reflexivity].
  - cbn. split; [|split]; [reflexivity..|]. intros _ _ [? H]. discriminate H.
Qed.

(** X8. Putting a batch that has just been put with success changes
    nothing: the store and its shadow keep their entries and both
    journals their bytes, whatever the engine does the second time, and
    nothing is written to the journal for the blocks that are there. The
    second call returns no error when the reads and the two flushes and
    journal writes do not fail. *)
Theorem put_again_changes_nothing (fl1 fl2 : PutFaults) (b : Blockstore)
    (blks : list blocks.Block) :
  r_out (PutMany fl1 b blks) = Returned None ->
  let b1 := r_store (PutMany fl1 b blks) in
  let r2 := PutMany fl2 b1 blks in
  db (r_store r2) = db b1 ∧ dbNext (r_store r2) = dbNext b1 ∧
  written <$> mhJournal (r_store r2) = written <$> mhJournal b1 ∧
  written <$> mhJournalNext (r_store r2) = written <$> mhJournalNext b1 ∧
  ((forall i, pf_get fl2 i = None) ->
   bf_flush (pf_active fl2) = None -> bf_write (pf_active fl2) = None ->
   bf_flush (pf_shadow fl2) = None -> bf_write (pf_shadow fl2) = None ->
   r_out r2 = Returned None).
Proof.
  intros Hok b1 r2.
  pose proof (PutMany_success_enterable fl1 b blks Hok) as Ha.
  pose proof (PutMany_present fl1 b blks Hok) as Hpres. fold b1 in Hpres.
  destruct (PutMany_success fl1 b blks Hok)
    as (Hfr & keys1 & jrnl1 & j & _ & _ & _ & Hj1 & Hnext).
  fold b1 in Hfr, Hj1, Hnext.
  assert (Ha1 : enterable b1) by (eapply enterable_frame; eassumption).
  assert (Hks : keys_of b1 blks = keys_of b blks).
  { unfold keys_of. apply map_ext. intros blk. apply key_of_frame, Hfr. }
  assert (Hall : Forall (fun k => is_Some (kv (db b1) !! k)) (keys_of b1 blks)).
  { rewrite Hks. unfold keys_of. apply Forall_forall. intros k Hk.
    apply list_elem_of_fmap in Hk as (blk & -> & Hin). apply Hpres, Hin. }
  assert (Hjn : dbNext b1 <> None -> is_Some (mhJournalNext b1)).
  { destruct (dbNext b) as [dn|].
    - destruct Hnext as (jn & _ & _ & ->). eauto.
    - destruct Hnext as [-> _]. intros H. contradiction. }
  destruct (PutMany_run fl2 b1 blks Ha1) as [_ Hrun]. fold r2 in Hrun. cbv zeta in Hrun.
  pose proof (probe_present (pf_get fl2) (db b1) 0 (keys_of b1 blks) blks []
                (keys_of_length b1 blks) Hall) as Hp.
  destruct (probe (pf_get fl2) (db b1) 0 (keys_of b1 blks) blks []) as [[keys jrnl]|err].
  2:{ destruct Hrun as [_ ->]. repeat (split; [reflexivity|]).
      intros Hg. destruct Hp as [n Hn]. destruct (Hn (Hg n)). }
  destruct Hp as [-> ->]. destruct Hrun as (Hd & Hj & Hrest).
  set (n := length (keys_of b1 blks)) in *.
  destruct (put_none (pf_active fl2) n blks (db b1) (mhJournal b1)) as (Ed & Ej & Eo).
  rewrite Hd, Hj, Ed, Ej. split; [reflexivity|].
  destruct (dbNext b1) as [dn|] eqn:Hdn.
  - destruct (put_none (pf_shadow fl2) n blks dn (mhJournalNext b1)) as (Ed' & Ej' & Eo').
    destruct ((put (pf_active fl2) (replicate n None) blks [] (db b1) (mhJournal b1)).2)
      as [[e|]| | |] eqn:Hout.
    + destruct Hrest as (-> & -> & ->). repeat (split; [reflexivity|]).
      intros _ Hf Hw _ _. rewrite Hj1 in Eo. specialize (Eo Hf Hw (ltac:(eauto))).
      discriminate Eo.
    + destruct Hrest as (-> & -> & ->). rewrite Ed', Ej'. repeat (split; [reflexivity|]).
      intros _ _ _ Hf Hw. apply Eo'; [exact Hf|exact Hw|]. apply Hjn. discriminate.
    + destruct Hrest as (-> & -> & ->). repeat (split; [reflexivity|]).
      intros _ Hf Hw _ _. rewrite Hj1 in Eo. specialize (Eo Hf Hw (ltac:(eauto))).
      discriminate Eo.
    + destruct Hrest as (-> & -> & ->). repeat (split; [reflexivity|]).
      intros _ Hf Hw _ _. rewrite Hj1 in Eo. specialize (Eo Hf Hw (ltac:(eauto))).
      discriminate Eo.
    + destruct Hrest as (-> & -> & ->). repeat (split; [reflexivity|]).
      intros _ Hf Hw _ _. rewrite Hj1 in Eo. specialize (Eo Hf Hw (ltac:(eauto))).
      discriminate Eo.
  - assert (Hr : dbNext (r_store r2) = None ∧ mhJournalNext (r_store r2) = mhJournalNext b1 ∧
                 r_out r2 = (put (pf_active fl2) (replicate n None) blks [] (db b1)
                               (mhJournal b1)).2).
    { destruct ((put (pf_active fl2) (replicate n None) blks [] (db b1) (mhJournal b1)).2)
        as [[e|]| | |]; exact Hrest. }
    destruct Hr as (-> & -> & ->). repeat (split; [reflexivity|]).
    intros _ Hf Hw _ _. apply Eo; [exact Hf|exact Hw|]. rewrite Hj1. eauto.
Qed.

Lemma put_again_changes_nothing_witness :
  r_out (PutMany no_put_faults moving_store [blocks.NewBlockWithCid HELLO sha2_cid])
  = Returned None ∧
  db (r_store (PutMany no_put_faults
        (r_store (PutMany no_put_faults moving_store [blocks.NewBlockWithCid HELLO sha2_cid]))
        [blocks.NewBlockWithCid HELLO sha2_cid]))
  = db (r_store (PutMany no_put_faults moving_store [blocks.NewBlockWithCid HELLO sha2_cid])).
Proof.
  assert (Hok : r_out (PutMany no_put_faults moving_store
                         [blocks.NewBlockWithCid HELLO sha2_cid]) = Returned None)
    by (vm_compute; reflexivity).
  split; [exact Hok|].
  apply (put_again_changes_nothing no_put_faults no_put_faults moving_store _ Hok).
Defined.

(** *** Deletes *)

Lemma delete_keys fl b cids :
  (forall k v, kv (db (r_store (DeleteMany fl b cids))) !! k = Some v ->
               kv (db b) !! k = Some v) ∧
  prefix (r_store (DeleteMany fl b cids)) = prefix b.
Proof.
  destruct (enterable_dec b) as [Ha|Hna].
  - destruct (DeleteMany_run fl b cids Ha) as (Hfr & m & Hd & _). split; [|apply Hfr].
    intros k v. rewrite Hd, commit_deletes. destruct (decide _); [discriminate|auto].
  - split.
    + destruct (DeleteMany_refused fl b cids Hna) as [-> _]. auto.
    + unfold DeleteMany, access, enterable in *.
      destruct (state b); [|reflexivity..]. unfold lockDB. cbn.
      destruct ((rlock b =? 0) && is_moveStateLock (moveState b)); [reflexivity|].
      exfalso. apply Hna. auto.
Qed.

(** X9. [DeleteMany] only ever removes entries of the cids it is given.
    Whatever it returns and whatever the engine does, it adds no entry
    and changes none, a key that is not the key of one of the cids is as
    it was, and the journal and the shadow store of a move are not
    touched: the journal keeps the records of the deleted blocks. *)
Theorem delete_only_removes (fl : DeleteFaults) (b : Blockstore) (cids : list cid.Cid) :
  let b' := r_store (DeleteMany fl b cids) in
  (forall k v, kv (db b') !! k = Some v -> kv (db b) !! k = Some v) ∧
  (forall k, k ∉ map (key_of b) cids -> kv (db b') !! k = kv (db b) !! k) ∧
  mhJournal b' = mhJournal b ∧ dbNext b' = dbNext b ∧ mhJournalNext b' = mhJournalNext b.
Proof.
  intros b'. subst b'.
  destruct (DeleteMany_shadow fl b cids) as (Hn & Hjn & Hj).
  assert (Hdb : exists m, db (r_store (DeleteMany fl b cids))
                = commit (map (fun c => (key_of b c, None)) (take m cids)) (db b)).
  { destruct (enterable_dec b) as [Ha|Hna].
    - destruct (DeleteMany_run fl b cids Ha) as (_ & m & Hd & _). eauto.
    - exists 0%nat. rewrite take_0. cbn [map]. rewrite commit_nil.
      apply (DeleteMany_refused fl b cids Hna). }
  destruct Hdb as [m Hdb]. rewrite Hdb.
  split; [|split; [|auto]].
  - intros k v. rewrite commit_deletes. destruct (decide _); [discriminate|auto].
  - intros k Hk. rewrite commit_deletes. rewrite decide_False; [reflexivity|].
    intros Hin. apply Hk. apply list_elem_of_fmap in Hin as (c & -> & Hin).
    apply list_elem_of_fmap. exists c. split; [reflexivity|].
    apply (subseteq_take m cids), Hin.
Qed.



(** *** The keys of the store *)

Lemma commit_lookup_cases pre d k :
  is_Some (kv (commit pre d) !! k) -> is_Some (kv d !! k) ∨ k ∈ pre.*1.
Proof.
  intros H. destruct (decide (k ∈ pre.*1)) as [Hin|Hnin]; [auto|].
  rewrite commit_other in H by exact Hnin. auto.
Qed.

(** X11. The keys of the store stay well formed: when the codec
    invariant holds and every key is the prefix followed by the base32
    text of a multihash of the digest policy, the same is true after any
    [PutMany] and any [DeleteMany], whatever they return and whatever the
    engine does. *)
Theorem keys_stay_wellformed (pfl : PutFaults) (dfl : DeleteFaults) (b : Blockstore)
    (blks : list blocks.Block) (cids : list cid.Cid) :
  codec_inv b -> keys_wellformed b ->
  keys_wellformed (r_store (PutMany pfl b blks)) ∧
  keys_wellformed (r_store (DeleteMany dfl b cids)).
Proof.
  intros Hinv Hwf. split.
  - assert (Hpfx : prefix (r_store (PutMany pfl b blks)) = prefix b).
    { destruct (enterable_dec b) as [Ha|Hn].
      - destruct (PutMany_run pfl b blks Ha) as [Hfr _]. apply Hfr.
      - unfold PutMany, access, enterable in *.
        destruct (state b); [|reflexivity..]. unfold lockDB. cbn.
        destruct ((rlock b =? 0) && is_moveStateLock (moveState b)); [reflexivity|].
        exfalso. apply Hn. auto. }
    intros k Hk. rewrite Hpfx.
    destruct (PutMany_db pfl b blks) as [H|H]; [|rewrite H in Hk; apply Hwf, Hk].
    destruct (probe (pf_get pfl) (db b) 0 (keys_of b blks) blks []) as [[keys jrnl]|err] eqn:Hp;
      [|rewrite H in Hk; apply Hwf, Hk].
    destruct H as (pre & rest & Hb & Hd). rewrite Hd in Hk.
    apply commit_lookup_cases in Hk as [Hk|Hk]; [apply Hwf, Hk|].
    assert (Hin : k ∈ (batch_of keys blks).*1).
    { rewrite Hb, fmap_app. apply elem_of_app. auto. }
    destruct (batch_keys_fresh _ _ _ _ _ _ _ _ k Hp (keys_of_length b blks) Hin) as [Hks Hnone].
    unfold keys_of in Hks. apply list_elem_of_fmap in Hks as (blk & -> & Hblk).
    unfold keys_of in Hp.
    destruct (probe_journal _ _ (fun blk => key_of b (blocks.Cid blk)) _ _ _ _ _ Hp)
      as [_ Hall].
    rewrite Forall_forall in Hall.
    destruct (Hall blk) as [smh Hs].
    { apply list_elem_of_filter. split; [exact Hnone|exact Hblk]. }
    exists (cid.Hash (blocks.Cid blk)). split.
    + unfold key_of. rewrite (PooledStorageKey_eq b _ Hinv). reflexivity.
    + eapply isMultihashSupported_sound, Hs.
  - destruct (delete_keys dfl b cids) as [Hsub Hpfx].
    intros k [v Hk]. rewrite Hpfx. apply Hwf. exists v. apply Hsub, Hk.
Qed.

Lemma keys_wellformed_hello : keys_wellformed hello_store.
Proof.
  intros k [v Hk]. change (kv (db hello_store)) with
    ({[ key_of empty_store blake_cid := hello ]} : gmap (list Z) (list Z)) in Hk.
  apply lookup_singleton_Some in Hk as [<- _].
  exists blake_mh. split; [vm_compute; reflexivity|].
  exists [160; 228; 2; 32], (replicate 32 17). split; [reflexivity|].
  split; [vm_compute; eauto|reflexivity].
Defined.

Lemma keys_stay_wellformed_witness :
  codec_inv hello_store ∧ keys_wellformed hello_store ∧
  keys_wellformed (r_store (PutMany no_put_faults hello_store
                      [blocks.NewBlockWithCid HELLO sha2_cid])) ∧
  keys_wellformed (r_store (DeleteMany no_delete_faults hello_store [blake_cid])).
Proof.
  assert (Hi : codec_inv hello_store) by (split; reflexivity).
  split; [exact Hi|]. split; [exact keys_wellformed_hello|].
  apply (keys_stay_wellformed no_put_faults no_delete_faults hello_store
           [blocks.NewBlockWithCid HELLO sha2_cid] [blake_cid] Hi keys_wellformed_hello).
Defined.

End write_more.

(** ** More on the listings *)

Module iteration_more.
Import badgerbs spec scenarios base32_facts codec_facts store_facts write_facts iteration_facts.

Lemma isOpen_closing env i b : isOpen (closing env i b) = true -> closing env i b = b.
Proof.
  unfold closing. destruct (reached (ie_close_at env) i && isOpen b); [|reflexivity].
  cbn. discriminate.
Qed.

Lemma closing_cases env i b :
  closing env i b = b ∨
  (ie_close_at env <> None ∧ closing env i b = set_state stateClosing b).
Proof.
  unfold closing. destruct (ie_close_at env) as [n|]; [|left; reflexivity].
  destruct (reached (Some n) i && isOpen b); [right; split; [discriminate|reflexivity]|left; reflexivity].
Qed.

Lemma decoded_closing env i b k : decoded (closing env i b) k = decoded b k.
Proof. destruct (closing_cases env i b) as [->|[_ ->]]; reflexivity. Qed.

(** The loop of [ForEachKey] under any schedule and any callback. *)
Lemma ForEachKey_loop_run env f i b ks b' cs err :
  ForEachKey_loop env f i b ks = (b', cs, err) ->
  exists n,
    cs = omap (decoded b) (take n ks) ∧
    Forall (fun c => f c = None) (take (length cs - 1) cs) ∧
    (err = None ->
     take n ks = ks ∧ Forall (fun k => is_Some (decoded b k)) ks ∧
     Forall (fun c => f c = None) cs) ∧
    (b' = b ∨
     (ie_close_at env <> None ∧ b' = set_state stateClosing b ∧
      err = Some ErrBlockstoreClosed)).
Proof.
  revert i b' cs err. induction ks as [|k ks IH]; intros i b' cs err H.
  - cbn in H. injection H as <- <- <-. exists 0%nat. cbn.
    repeat split; auto.
  - cbn [ForEachKey_loop] in H.
    destruct (isOpen (closing env i b)) eqn:Ho; cbn [negb] in H.
    2:{ injection H as <- <- <-. exists 0%nat. cbn.
        split; [reflexivity|]. split; [constructor|]. split; [discriminate|].
        destruct (closing_cases env i b) as [->|[Hc ->]]; auto. }
    rewrite (isOpen_closing env i b Ho) in H.
    assert (Hdk : decoded b k = match base32.Decode (strip_prefix b k) with
                                | inl mh => Some (cid.NewCidV1 cid.Raw mh)
                                | inr _ => None
                                end) by reflexivity.
    destruct (base32.Decode (strip_prefix b k)) as [mh|p].
    2:{ injection H as <- <- <-. exists 0%nat. cbn.
        split; [reflexivity|]. split; [constructor|]. split; [discriminate|]. auto. }
    destruct (f (cid.NewCidV1 cid.Raw mh)) as [e|] eqn:Hf.
    { injection H as <- <- <-. exists 1%nat. cbn [take omap list_omap]. rewrite Hdk.
      rewrite take_0. cbn. split; [reflexivity|]. split; [constructor|].
      split; [discriminate|]. auto. }
    destruct (ForEachKey_loop env f (S i) b ks) as [[b1 cs1] err1] eqn:Hl.
    injection H as <- <- <-.
    destruct (IH _ _ _ _ Hl) as (n & Hcs & Hlast & Hnone & Hb).
    exists (S n). cbn [take omap list_omap]. rewrite Hdk, <- Hcs.
    split; [reflexivity|]. split; [|split; [|exact Hb]].
    + destruct cs1 as [|c1 cs1]; [constructor|].
      cbn [length] in *. replace (S (S (length cs1)) - 1)%nat with (S (length cs1)) by lia.
      replace (S (length cs1) - 1)%nat with (length cs1) in Hlast by lia.
      cbn [take]. apply Forall_cons_2; [exact Hf|exact Hlast].
    + intros He. destruct (Hnone He) as (Ht & Hall & Hfs).
      rewrite Ht. split; [reflexivity|]. split.
      * apply Forall_cons_2; [rewrite Hdk; eauto|exact Hall].
      * apply Forall_cons_2; [exact Hf|exact Hfs].
Qed.

(** The producer of [AllKeysChan] under any schedule. *)
Lemma AllKeysChan_loop_run env i b ks b' cs tr :
  AllKeysChan_loop env i b ks = (b', cs, tr) ->
  exists n,
    cs = omap (decoded b) (take n ks) ∧ tr = warnings b (take n ks) ∧
    (b' = b ∨ (ie_close_at env <> None ∧ b' = set_state stateClosing b)) ∧
    (isOpen b = true -> ie_close_at env = None -> ie_cancel_at env = None ->
     ie_cancel_send env = None -> take n ks = ks).
Proof.
  revert i b' cs tr. induction ks as [|k ks IH]; intros i b' cs tr H.
  - cbn in H. injection H as <- <- <-. exists 0%nat. cbn. repeat split; auto.
  - cbn [AllKeysChan_loop] in H.
    destruct (reached (ie_cancel_at env) i) eqn:Hc.
    { injection H as <- <- <-. exists 0%nat. cbn. repeat split; auto.
      intros _ _ Hn. rewrite Hn in Hc. discriminate Hc. }
    destruct (isOpen (closing env i b)) eqn:Ho; cbn [negb] in H.
    2:{ injection H as <- <- <-. exists 0%nat. cbn.
        split; [reflexivity|]. split; [reflexivity|]. split.
        - destruct (closing_cases env i b) as [->|[Hcl ->]]; auto.
        - intros Hopen Hn. unfold closing in Ho. rewrite Hn in Ho. cbn in Ho.
          rewrite Hopen in Ho. discriminate Ho. }
    rewrite (isOpen_closing env i b Ho) in H.
    assert (Hdk : decoded b k = match base32.Decode (strip_prefix b k) with
                                | inl mh => Some (cid.NewCidV1 cid.Raw mh)
                                | inr _ => None
                                end) by reflexivity.
    destruct (base32.Decode (strip_prefix b k)) as [mh|p].
    + destruct (reached (ie_cancel_send env) i) eqn:Hs.
      { injection H as <- <- <-. exists 0%nat. cbn. repeat split; auto.
        intros _ _ _ Hn. rewrite Hn in Hs. discriminate Hs. }
      destruct (AllKeysChan_loop env (S i) b ks) as [[b1 cs1] tr1] eqn:Hl.
      injection H as <- <- <-.
      destruct (IH _ _ _ _ Hl) as (n & -> & -> & Hb & Hq).
      exists (S n). cbn [take omap list_omap]. rewrite Hdk.
      split; [reflexivity|]. split; [|split; [exact Hb|]].
      * unfold warnings. rewrite filter_cons_False by (rewrite Hdk; discriminate).
        reflexivity.
      * intros H1 H2 H3 H4. rewrite (Hq H1 H2 H3 H4). reflexivity.
    + destruct (AllKeysChan_loop env (S i) b ks) as [[b1 cs1] tr1] eqn:Hl.
      injection H as <- <- <-.
      destruct (IH _ _ _ _ Hl) as (n & -> & -> & Hb & Hq).
      exists (S n). cbn [take omap list_omap]. rewrite Hdk.
      split; [reflexivity|]. split; [|split; [exact Hb|]].
      * unfold warnings. rewrite filter_cons_True by exact Hdk. reflexivity.
      * intros H1 H2 H3 H4. rewrite (Hq H1 H2 H3 H4). reflexivity.
Qed.

Lemma leave_closing b :
  leave (set_state stateClosing (set_rlock (rlock b + 1) (set_viewers (viewers b + 1) b)))
  = set_state stateClosing b.
Proof.
  unfold leave, viewers_Done, unlockDB, set_rlock, set_viewers, set_state. cbn.
  f_equal; lia.
Qed.

Lemma ForEachKey_run env b f :
  enterable b ->
  r_store (ForEachKey env b f) = b ∨
  (ie_close_at env <> None ∧ r_store (ForEachKey env b f) = set_state stateClosing b).
Proof.
  intros Ha. unfold ForEachKey.
  rewrite access_open by apply Ha. rewrite lockDB_enterable by exact Ha.
  set (b1 := set_rlock (rlock b + 1) (set_viewers (viewers b + 1) b)).
  destruct (ForEachKey_loop env f 0 b1 (iterator_keys b1)) as [[b' cs] err] eqn:Hl.
  destruct (ForEachKey_loop_run _ _ _ _ _ _ _ _ Hl) as (n & _ & _ & _ & Hb).
  cbn [r_store]. destruct Hb as [->|(Hc & -> & _)].
  - left. apply leave_entered_id.
  - right. split; [exact Hc|apply leave_closing].
Qed.

Lemma AllKeysChan_run env b :
  enterable b ->
  r_store (AllKeysChan env b) = b ∨
  (ie_close_at env <> None ∧ r_store (AllKeysChan env b) = set_state stateClosing b).
Proof.
  intros Ha. unfold AllKeysChan.
  rewrite access_open by apply Ha. rewrite lockDB_enterable by exact Ha.
  cbv zeta.
  set (b1 := unlockDB (set_rlock (rlock b + 1) (set_viewers (viewers b + 1) b))).
  destruct (AllKeysChan_loop env 0 b1 _) as [[b' cs] tr] eqn:Hl.
  destruct (AllKeysChan_loop_run _ _ _ _ _ _ _ Hl) as (n & _ & _ & Hb & _).
  cbn [r_store].
  assert (Hid : viewers_Done b1 = b) by apply leave_entered_id.
  destruct Hb as [->|(Hc & ->)]; [left; exact Hid|].
  right. split; [exact Hc|apply leave_closing].
Qed.

(** X12. [ForEachKey] calls its callback with the cids of some first
    keys of the iterator, in order, and never again after the callback
    has returned an error. It returns no error only when it has visited
    every key, every key decoded and every call of the callback
    succeeded. The store is left as it was, or in the closing state when
    a concurrent [Close] has stopped the loop with the closed-store
    error. *)
Theorem ForEachKey_stops_at_first_error (env : IterEnv) (b : Blockstore)
    (f : cid.Cid -> option Err) :
  enterable b ->
  exists cs err n,
    r_out (ForEachKey env b f) = Returned (cs, err) ∧
    cs = omap (decoded b) (take n (iterator_keys b)) ∧
    Forall (fun c => f c = None) (take (length cs - 1) cs) ∧
    (err = None ->
     cs = omap (decoded b) (iterator_keys b) ∧
     Forall (fun k => is_Some (decoded b k)) (iterator_keys b) ∧
     Forall (fun c => f c = None) cs) ∧
    (r_store (ForEachKey env b f) = b ∨
     (ie_close_at env <> None ∧ r_store (ForEachKey env b f) = set_state stateClosing b ∧
      err = Some ErrBlockstoreClosed)).
Proof.
  intros Ha. unfold ForEachKey.
  rewrite access_open by apply Ha. rewrite lockDB_enterable by exact Ha.
  set (b1 := set_rlock (rlock b + 1) (set_viewers (viewers b + 1) b)).
  change (iterator_keys b1) with (iterator_keys b).
  destruct (ForEachKey_loop env f 0 b1 (iterator_keys b)) as [[b' cs] err] eqn:Hl.
  destruct (ForEachKey_loop_run _ _ _ _ _ _ _ _ Hl) as (n & Hcs & Hlast & Hnone & Hb).
  change (decoded b1) with (decoded b) in *.
  exists cs, err, n. cbn [r_out r_store].
  split; [reflexivity|]. split; [exact Hcs|]. split; [exact Hlast|]. split.
  - intros He. destruct (Hnone He) as (Ht & Hall & Hfs). rewrite Ht in Hcs. auto.
  - destruct Hb as [->|(Hc & -> & ->)].
    + left. apply leave_entered_id.
    + right. split; [exact Hc|]. split; [apply leave_closing|reflexivity].
Qed.

Lemma ForEachKey_stops_at_first_error_witness :
  enterable hello_store ∧
  exists cs err n,
    r_out (ForEachKey quiet hello_store (fun _ => Some ErrBlockstoreClosed))
    = Returned (cs, err) ∧
    cs = omap (decoded hello_store) (take n (iterator_keys hello_store)).
Proof.
  split; [apply enterable_store_with|].
  destruct (ForEachKey_stops_at_first_error quiet hello_store
              (fun _ => Some ErrBlockstoreClosed) (enterable_store_with _ _))
    as (cs & err & n & H1 & H2 & _).
  exists cs, err, n. split; [exact H1|exact H2].
Defined.

(** X13. [AllKeysChan] reports no error once it has entered the store,
    whatever happens while the producer runs: the channel delivers the
    cids of the keys that decode among some first keys of the iterator,
    and one warning is logged for each of these keys that does not
    decode. A listing cut short by a cancelled context or a concurrent
    [Close] looks to the consumer like a complete one; it is complete
    when neither happens. *)
Theorem AllKeysChan_truncates_silently (env : IterEnv) (b : Blockstore) :
  enterable b ->
  exists cs n,
    r_out (AllKeysChan env b) = Returned (Some cs, None) ∧
    cs = omap (decoded b) (take n (iterator_keys b)) ∧
    r_trace (AllKeysChan env b) = warnings b (take n (iterator_keys b)) ∧
    (ie_close_at env = None -> ie_cancel_at env = None -> ie_cancel_send env = None ->
     take n (iterator_keys b) = iterator_keys b) ∧
    (r_store (AllKeysChan env b) = b ∨
     (ie_close_at env <> None ∧ r_store (AllKeysChan env b) = set_state stateClosing b)).
Proof.
  intros Ha. unfold AllKeysChan.
  rewrite access_open by apply Ha. rewrite lockDB_enterable by exact Ha.
  set (b1 := unlockDB (set_rlock (rlock b + 1) (set_viewers (viewers b + 1) b))).
  change (iterator_keys (set_rlock (rlock b + 1) (set_viewers (viewers b + 1) b)))
    with (iterator_keys b).
  cbv zeta. fold b1.
  destruct (AllKeysChan_loop env 0 b1 (iterator_keys b)) as [[b' cs] tr] eqn:Hl.
  destruct (AllKeysChan_loop_run _ _ _ _ _ _ _ Hl) as (n & Hcs & Htr & Hb & Hq).
  change (decoded b1) with (decoded b) in *.
  change (warnings b1) with (warnings b) in *.
  exists cs, n. cbn [r_out r_store r_trace].
  split; [reflexivity|]. split; [exact Hcs|]. split; [exact Htr|]. split.
  - apply Hq. unfold b1, isOpen. cbn. destruct Ha as [-> _]. reflexivity.
  - assert (Hid : viewers_Done b1 = b) by apply leave_entered_id.
    destruct Hb as [->|(Hc & ->)]; [left; exact Hid|].
    right. split; [exact Hc|]. apply leave_closing.
Qed.

Lemma AllKeysChan_truncates_silently_witness :
  enterable corrupt_store ∧
  exists cs n,
    r_out (AllKeysChan {| ie_close_at := None; ie_cancel_at := Some 1%nat;
                          ie_cancel_send := None |} corrupt_store)
    = Returned (Some cs, None) ∧
    cs = omap (decoded corrupt_store) (take n (iterator_keys corrupt_store)).
Proof.
  split; [apply enterable_store_with|].
  destruct (AllKeysChan_truncates_silently
              {| ie_close_at := None; ie_cancel_at := Some 1%nat; ie_cancel_send := None |}
              corrupt_store (enterable_store_with _ _))
    as (cs & n & H1 & H2 & _).
  exists cs, n. split; [exact H1|exact H2].
Defined.

(** *** A listing of a well-kept store *)

Lemma key_of_eq b c : codec_inv b -> key_of b c = prefix b ++ base32.Encode (cid.Hash c).
Proof. intros Hi. unfold key_of. rewrite (PooledStorageKey_eq b c Hi). reflexivity. Qed.

Lemma decoded_encoded b mh :
  codec_inv b -> bytes_ok mh ->
  decoded b (prefix b ++ base32.Encode mh) = Some (cid.NewCidV1 cid.Raw mh).
Proof.
  intros Hi Hmh. unfold decoded, strip_prefix.
  destruct (prefixing b) eqn:Hp.
  - destruct Hi as [-> _]. rewrite drop_app_length, Decode_Encode by exact Hmh. reflexivity.
  - destruct (codec_inv_no_prefix b Hi Hp) as [-> _]. cbn [app].
    rewrite Decode_Encode by exact Hmh. reflexivity.
Qed.

Lemma Encode_inj mh1 mh2 :
  bytes_ok mh1 -> bytes_ok mh2 -> base32.Encode mh1 = base32.Encode mh2 -> mh1 = mh2.
Proof.
  intros H1 H2 He. pose proof (Decode_Encode mh1 H1) as Hd.
  rewrite He, (Decode_Encode mh2 H2) in Hd. congruence.
Qed.

Lemma filter_all_true {A} (P : A -> Prop) `{forall x, Decision (P x)} (l : list A) :
  Forall P l -> filter P l = l.
Proof.
  induction 1 as [|a l Ha _ IH]; [reflexivity|].
  rewrite filter_cons_True by exact Ha. rewrite IH. reflexivity.
Qed.

Lemma stored_keys b k : k ∈ (map_to_list (kv (db b))).*1 <-> is_Some (kv (db b) !! k).
Proof.
  split.
  - intros H. apply list_elem_of_fmap in H as ([k' v] & -> & H).
    apply elem_of_map_to_list in H. eauto.
  - intros [v H]. apply list_elem_of_fmap. exists (k, v). split; [reflexivity|].
    apply elem_of_map_to_list, H.
Qed.

(** The iterator visits every key once when all keys carry the prefix. *)
Lemma iterator_keys_all b :
  codec_inv b -> keys_encoded b -> iterator_keys b ≡ₚ (map_to_list (kv (db b))).*1.
Proof.
  intros Hi He. unfold iterator_keys. cbv zeta.
  destruct (prefixing b); [|apply merge_sort_Permutation].
  rewrite filter_all_true; [apply merge_sort_Permutation|].
  apply Forall_forall. intros k Hk. rewrite merge_sort_Permutation in Hk.
  apply stored_keys in Hk. destruct (He k Hk) as (mh & -> & _).
  unfold has_prefix. apply bool_decide_eq_true. apply take_app_length.
Qed.

Lemma ForEachKey_loop_all i b ks :
  isOpen b = true -> Forall (fun k => is_Some (decoded b k)) ks ->
  ForEachKey_loop quiet (fun _ => None) i b ks = (b, omap (decoded b) ks, None).
Proof.
  intros Ho Hall. revert i. induction Hall as [|k ks [c Hc] _ IH]; intros i; [reflexivity|].
  cbn [ForEachKey_loop]. rewrite closing_quiet, Ho. cbn [negb].
  cbn [omap list_omap]. rewrite Hc. unfold decoded in Hc.
  destruct (base32.Decode (strip_prefix b k)) as [mh|p]; [|discriminate Hc].
  injection Hc as <-. rewrite IH. reflexivity.
Qed.

(** X14. On a store whose keys are all the prefix followed by the base32
    text of a string of bytes, a listing that nothing interrupts is the
    content of the store: [ForEachKey] returns no error, [AllKeysChan]
    delivers the same cids and logs no warning, the keys of the cids
    listed are the keys of the store, each once, and a cid is stored
    exactly when the raw version 1 cid of its multihash is listed. *)
Theorem listing_is_the_store (b : Blockstore) :
  enterable b -> codec_inv b -> keys_encoded b ->
  exists cs,
    r_out (ForEachKey quiet b (fun _ => None)) = Returned (cs, None) ∧
    r_out (AllKeysChan quiet b) = Returned (Some cs, None) ∧
    r_trace (AllKeysChan quiet b) = [] ∧
    map (key_of b) cs ≡ₚ (map_to_list (kv (db b))).*1 ∧
    (forall c, bytes_ok (cid.Hash c) ->
       cid.NewCidV1 cid.Raw (cid.Hash c) ∈ cs <-> is_Some (kv (db b) !! key_of b c)).
Proof.
  intros Ha Hi He.
  pose proof (iterator_keys_all b Hi He) as Hperm.
  assert (Henc : Forall (fun k => exists mh, k = prefix b ++ base32.Encode mh ∧ bytes_ok mh)
                        (iterator_keys b)).
  { apply Forall_forall. intros k Hk. rewrite Hperm in Hk. apply He, stored_keys, Hk. }
  assert (Hdec : Forall (fun k => is_Some (decoded b k)) (iterator_keys b)).
  { eapply Forall_impl; [exact Henc|]. intros k (mh & -> & Hmh).
    rewrite decoded_encoded by assumption. eauto. }
  assert (Hkeys : map (key_of b) (omap (decoded b) (iterator_keys b)) = iterator_keys b).
  { clear Hperm Hdec. induction Henc as [|k ks (mh & -> & Hmh) _ IH]; [reflexivity|].
    cbn [omap list_omap]. rewrite decoded_encoded by assumption.
    cbn [map]. rewrite key_of_eq by exact Hi. cbn [cid.Hash cid.NewCidV1].
    f_equal. exact IH. }
  set (b1 := set_rlock (rlock b + 1) (set_viewers (viewers b + 1) b)).
  assert (Ho : isOpen b1 = true).
  { unfold b1, isOpen. cbn. destruct Ha as [-> _]. reflexivity. }
  exists (omap (decoded b) (iterator_keys b)). split; [|split; [|split; [|split]]].
  - unfold ForEachKey. rewrite access_open by apply Ha. rewrite lockDB_enterable by exact Ha.
    fold b1. change (iterator_keys b1) with (iterator_keys b).
    rewrite (ForEachKey_loop_all 0 b1 (iterator_keys b) Ho Hdec). reflexivity.
  - unfold AllKeysChan. rewrite access_open by apply Ha. rewrite lockDB_enterable by exact Ha.
    fold b1. change (iterator_keys b1) with (iterator_keys b). cbv zeta.
    rewrite (AllKeysChan_loop_quiet 0 (unlockDB b1) (iterator_keys b) Ho). reflexivity.
  - unfold AllKeysChan. rewrite access_open by apply Ha. rewrite lockDB_enterable by exact Ha.
    fold b1. change (iterator_keys b1) with (iterator_keys b). cbv zeta.
    rewrite (AllKeysChan_loop_quiet 0 (unlockDB b1) (iterator_keys b) Ho).
    cbn [r_trace]. change (decoded (unlockDB b1)) with (decoded b).
    rewrite (filter_decodable b _ Hdec). reflexivity.
  - rewrite Hkeys. exact Hperm.
  - intros c Hc. rewrite <- stored_keys, <- Hperm. split.
    + intros Hin. rewrite <- Hkeys. apply list_elem_of_fmap.
      exists (cid.NewCidV1 cid.Raw (cid.Hash c)). split; [|exact Hin].
      rewrite !key_of_eq by exact Hi. reflexivity.
    + intros Hin. rewrite Forall_forall in Henc.
      destruct (Henc _ Hin) as (mh & Hk & Hmh).
      rewrite key_of_eq in Hk by exact Hi. apply app_inv_head in Hk.
      apply Encode_inj in Hk; [|assumption..]. subst mh.
      apply list_elem_of_omap. exists (key_of b c). split; [exact Hin|].
      rewrite key_of_eq by exact Hi. apply decoded_encoded; assumption.
Qed.

Lemma keys_encoded_hello : keys_encoded hello_store.
Proof.
  intros k [v Hk]. change (kv (db hello_store)) with
    ({[ key_of empty_store blake_cid := hello ]} : gmap (list Z) (list Z)) in Hk.
  apply lookup_singleton_Some in Hk as [<- _].
  exists blake_mh. split; [vm_compute; reflexivity|].
  apply bytes_ok_forallb. vm_compute. reflexivity.
Defined.

Lemma listing_is_the_store_witness :
  enterable hello_store ∧ codec_inv hello_store ∧ keys_encoded hello_store ∧
  exists cs,
    r_out (ForEachKey quiet hello_store (fun _ => None)) = Returned (cs, None) ∧
    r_out (AllKeysChan quiet hello_store) = Returned (Some cs, None).
Proof.
  assert (Hi : codec_inv hello_store) by (split; reflexivity).
  split; [apply enterable_store_with|]. split; [exact Hi|]. split; [exact keys_encoded_hello|].
  destruct (listing_is_the_store hello_store (enterable_store_with _ _) Hi keys_encoded_hello)
    as (cs & H1 & H2 & _).
  exists cs. split; [exact H1|exact H2].
Defined.

End iteration_more.

(** ** More on the copy and the move *)

Module move_more.
Import badgerbs spec scenarios base32_facts codec_facts store_facts digest_facts write_facts.
Import move_facts write_more.

(** *** The copy *)

Lemma key_record_length b key :
  is_Some (copied_mh b key) -> length (key_record b key) = 33%nat.
Proof.
  unfold key_record, copied_mh. intros [mh H].
  destruct (base32.Decode (drop (prefixLen b) key)) as [mh'|]; [|discriminate H].
  destruct (isMultihashSupported mh') as [smh|] eqn:Hs; [|discriminate H].
  unfold journal_record. rewrite Hs.
  destruct (isMultihashSupported_sound mh' smh Hs) as (pfx & d & -> & _ & Hd).
  cbn [length]. rewrite length_drop, length_app. unfold supportedHashLen in *. lia.
Qed.

Lemma copy_kvs_ok set b i kvs batch jrnl batch' jrnl' :
  copy_kvs set b i kvs batch jrnl = (batch', jrnl', Returned None) ->
  batch' = batch ++ inserts kvs ∧
  jrnl' = jrnl ++ concat (map (fun e => key_record b e.1) kvs) ∧
  Forall (fun e => is_Some (copied_mh b e.1)) kvs.
Proof.
  revert i batch jrnl. induction kvs as [|[key val] kvs IH]; intros i batch jrnl H.
  - cbn in H. injection H as <- <-. cbn. rewrite !app_nil_r. auto.
  - cbn [copy_kvs] in H.
    destruct (length key <? prefixLen b)%nat; [discriminate H|].
    destruct (base32.Decode (drop (prefixLen b) key)) as [mh|p] eqn:Hd; [|discriminate H].
    destruct (mhBufLen <? length mh)%nat; [discriminate H|].
    destruct (isMultihashSupported mh) as [smh|err] eqn:Hs; [|discriminate H].
    destruct (set i); [discriminate H|].
    destruct (IH _ _ _ H) as (-> & -> & Hall).
    assert (Hc : copied_mh b key = Some mh).
    { unfold copied_mh. rewrite Hd, Hs. reflexivity. }
    split; [|split].
    + cbn [inserts map fst snd]. rewrite <- app_assoc. reflexivity.
    + assert (Hr : key_record b key
                   = journalShortCode smh :: drop (length mh - supportedHashLen) mh).
      { unfold key_record. rewrite Hc. unfold journal_record. rewrite Hs. reflexivity. }
      cbn [map concat fst]. rewrite Hr, <- app_assoc. reflexivity.
    + apply Forall_cons_2; [cbn [fst]; rewrite Hc; eauto|exact Hall].
Qed.

Lemma copy_groups_ok env b g groups batch jf batch' jf' tr :
  copy_groups env b g groups batch jf = (batch', jf', tr, Returned None) ->
  batch' = batch ++ inserts (sent groups) ∧
  written jf' = written jf ++ concat (map (fun e => key_record b e.1) (sent groups)) ∧
  fw_dir jf' = fw_dir jf ∧
  Forall (fun e => is_Some (copied_mh b e.1)) (sent groups).
Proof.
  revert g batch jf batch' jf' tr.
  induction groups as [|kvl groups IH]; intros g batch jf batch' jf' tr H.
  - cbn in H. injection H as <- <- _. cbn. rewrite !app_nil_r. auto.
  - cbn [copy_groups] in H. unfold sent. cbn [map concat]. fold (sent groups).
    destruct (sendable kvl) as [|kv0 kvs] eqn:Hs.
    { cbn [app]. eapply IH, H. }
    destruct (ce_ctx env g); [discriminate H|].
    destruct (copy_kvs (ce_set env g) b 0 (kv0 :: kvs) batch []) as [[batch1 jrnl1] out1] eqn:Hk.
    destruct out1 as [[e|]| | |]; try discriminate H.
    destruct (ce_write env g) as [[n e]|]; [discriminate H|].
    destruct (copy_groups env b (S g) groups batch1 (fw_Write jrnl1 jf))
      as [[[batch2 jf2] tr2] out2] eqn:Hg.
    injection H as <- <- _ ->.
    destruct (copy_kvs_ok _ _ _ _ _ _ _ _ Hk) as (-> & -> & Hall1).
    destruct (IH _ _ _ _ _ _ Hg) as (-> & Hw & Hdir & Hall2).
    split; [|split; [|split]].
    + unfold inserts. rewrite map_app, app_assoc. reflexivity.
    + rewrite Hw. cbn [written fw_Write]. rewrite map_app, concat_app, app_nil_l.
      rewrite app_assoc. reflexivity.
    + rewrite Hdir. reflexivity.
    + apply Forall_app. auto.
Qed.

Lemma copy_kvs_same b b' set i kvs batch jrnl :
  prefixLen b' = prefixLen b ->
  copy_kvs set b' i kvs batch jrnl = copy_kvs set b i kvs batch jrnl.
Proof.
  intros Hl. revert i batch jrnl. induction kvs as [|[key val] kvs IH]; intros; [reflexivity|].
  cbn [copy_kvs]. rewrite Hl.
  destruct (length key <? prefixLen b)%nat; [reflexivity|].
  destruct (base32.Decode _); [|reflexivity].
  destruct (mhBufLen <? _)%nat; [reflexivity|].
  destruct (isMultihashSupported _); [|reflexivity].
  destruct (set i); [reflexivity|]. apply IH.
Qed.

Lemma copy_groups_same b b' env g groups batch jf :
  prefixLen b' = prefixLen b ->
  copy_groups env b' g groups batch jf = copy_groups env b g groups batch jf.
Proof.
  intros Hl. revert g batch jf. induction groups as [|kvl groups IH]; intros; [reflexivity|].
  cbn [copy_groups]. destruct (sendable kvl) as [|kv0 kvs]; [apply IH|].
  destruct (ce_ctx env g); [reflexivity|].
  rewrite (copy_kvs_same b b') by exact Hl.
  destruct (copy_kvs _ _ _ _ _ _) as [[batch1 jrnl1] [[e|]| | |]]; try reflexivity.
  destruct (ce_write env g) as [[n e]|]; [reflexivity|]. rewrite IH. reflexivity.
Qed.

Lemma doCopy_same b b' env to jf :
  prefixLen b' = prefixLen b -> doCopy env b' to jf = doCopy env b to jf.
Proof. intros Hl. unfold doCopy. rewrite (copy_groups_same b b') by exact Hl. reflexivity. Qed.

Lemma doCopy_ok env b to jf to' jf' tr :
  doCopy env b to jf = (to', jf', tr, Returned None) ->
  to' = commit (inserts (sent (ce_groups env))) to ∧
  written jf' = written jf
                ++ concat (map (fun e => key_record b e.1) (sent (ce_groups env))) ∧
  fw_dir jf' = fw_dir jf ∧
  Forall (fun e => is_Some (copied_mh b e.1)) (sent (ce_groups env)).
Proof.
  unfold doCopy.
  destruct (copy_groups env b 0 (ce_groups env) [] jf) as [[[batch jf1] tr1] out] eqn:Hg.
  destruct out as [[e|]| | |].
  - intros H. discriminate H.
  - destruct (ce_stream env); [intros H; discriminate H|].
    destruct (ce_flush env); [intros H; discriminate H|].
    intros H. injection H as <- <- _.
    destruct (copy_groups_ok _ _ _ _ _ _ _ _ _ Hg) as (-> & Hw & Hd & Hall). auto.
  - destruct (ce_flush env); intros H; discriminate H.
  - destruct (ce_flush env); intros H; discriminate H.
  - intros H. discriminate H.
Qed.

Lemma records_of_keys_length b (l : list (list Z * list Z)) :
  Forall (fun e => is_Some (copied_mh b e.1)) l ->
  length (concat (map (fun e => key_record b e.1) l)) = (33 * length l)%nat.
Proof.
  induction 1 as [|e l He _ IH]; [reflexivity|].
  cbn [map concat length]. rewrite length_app, IH, (key_record_length _ _ He). lia.
Qed.

(** X15. When [doCopy] returns no error, the target has taken, in the
    order of the stream, every entry of the source that has a key and a
    value, and nothing else; the journal has grown by one record of 33
    bytes for each of them; and each of their keys, after the prefix, is
    the base32 text of a multihash of the digest policy. So a source
    with one key that does not decode, or whose multihash is not
    supported, is never copied with success. *)
Theorem copy_is_exact (env : CopyEnv) (b : Blockstore) (to : badgerDB)
    (jf : flushWriter) (to' : badgerDB) (jf' : flushWriter) (tr : list Event) :
  doCopy env b to jf = (to', jf', tr, Returned None) ->
  to' = commit (inserts (sent (ce_groups env))) to ∧
  written jf' = written jf
                ++ concat (map (fun e => key_record b e.1) (sent (ce_groups env))) ∧
  length (written jf')
  = (length (written jf) + 33 * length (sent (ce_groups env)))%nat ∧
  (forall e, e ∈ sent (ce_groups env) ->
     exists mh, base32.Decode (drop (prefixLen b) e.1) = inl mh ∧ supported mh).
Proof.
  intros H. destruct (doCopy_ok _ _ _ _ _ _ _ H) as (Ht & Hw & _ & Hall).
  split; [exact Ht|]. split; [exact Hw|]. split.
  - rewrite Hw, length_app, records_of_keys_length by exact Hall. reflexivity.
  - intros e He. rewrite Forall_forall in Hall. destruct (Hall e He) as [mh Hmh].
    unfold copied_mh in Hmh.
    destruct (base32.Decode (drop (prefixLen b) e.1)) as [mh'|]; [|discriminate Hmh].
    destruct (isMultihashSupported mh') as [smh|] eqn:Hs; [|discriminate Hmh].
    exists mh'. split; [reflexivity|]. eapply isMultihashSupported_sound, Hs.
Qed.

Lemma copy_is_exact_witness :
  exists to' jf' tr,
    doCopy (no_copy_faults (one_group hello_store)) hello_store
      {| db_dir := shadow_dir; kv := ∅ |} {| fw_dir := shadow_dir; written := [] |}
    = (to', jf', tr, Returned None) ∧
    length (written jf') = (0 + 33 * length (sent (one_group hello_store)))%nat.
Proof.
  eexists _, _, _.
  assert (H : doCopy (no_copy_faults (one_group hello_store)) hello_store
      {| db_dir := shadow_dir; kv := ∅ |} {| fw_dir := shadow_dir; written := [] |}
    = (commit (inserts (sent (one_group hello_store))) {| db_dir := shadow_dir; kv := ∅ |},
       {| fw_dir := shadow_dir; written := 1 :: replicate 32 17 |},
       [SlabGet 33; SlabGet mhBufLen; SlabPut mhBufLen; SlabPut 33], Returned None))
    by (vm_compute; reflexivity).
  split; [exact H|].
  apply (copy_is_exact _ _ _ _ _ _ _ H).
Defined.

(** The copy returns, or the process dies in it at a key that is
    shorter than the prefix or decodes to more bytes than [mhBuf] has. *)
Lemma copy_kvs_ends set b i kvs batch jrnl :
  match (copy_kvs set b i kvs batch jrnl).2 with
  | Returned _ => True
  | Died _ => Exists (fun e => deadly b e.1) kvs
  | _ => False
  end.
Proof.
  revert i batch jrnl. induction kvs as [|[key val] kvs IH]; intros i batch jrnl;
    [exact I|].
  cbn [copy_kvs].
  destruct (Nat.ltb_spec (length key) (prefixLen b)) as [Hlt|_].
  { cbn. apply Exists_cons_hd. left. exact Hlt. }
  destruct (base32.Decode (drop (prefixLen b) key)) as [mh|p] eqn:Hd; [|exact I].
  destruct (Nat.ltb_spec mhBufLen (length mh)) as [Hlt|_].
  { cbn. apply Exists_cons_hd. right. exists mh. auto. }
  destruct (isMultihashSupported mh); [|exact I].
  destruct (set i); [exact I|].
  specialize (IH (S i) (batch ++ [(key, Some val)])
                (jrnl ++ journalShortCode s
                      :: drop (length mh - supportedHashLen) mh)).
  destruct (copy_kvs _ _ _ _ _ _) as [[b1 j1] [a|msg| |msg]]; cbn [snd] in *;
    [exact I|exact IH|exact IH|apply Exists_cons_tl, IH].
Qed.

Lemma copy_groups_ends env b g groups batch jf :
  match (copy_groups env b g groups batch jf).2 with
  | Returned _ => True
  | Died _ => Exists (fun e => deadly b e.1) (sent groups)
  | _ => False
  end.
Proof.
  revert g batch jf. induction groups as [|kvl groups IH]; intros g batch jf; [exact I|].
  cbn [copy_groups]. unfold sent. cbn [map concat]. fold (sent groups).
  destruct (sendable kvl) as [|kv0 kvs].
  { cbn [app]. apply IH. }
  destruct (ce_ctx env g); [exact I|].
  pose proof (copy_kvs_ends (ce_set env g) b 0 (kv0 :: kvs) batch []) as Hk.
  destruct (copy_kvs _ _ _ _ _ _) as [[b1 j1] [[e|]|msg| |msg]]; cbn [snd] in *;
    [exact I| |contradiction|contradiction|apply Exists_app; left; exact Hk].
  destruct (ce_write env g) as [[n e]|]; [exact I|].
  specialize (IH (S g) b1 (fw_Write j1 jf)).
  destruct (copy_groups _ _ _ _ _ _) as [[[b2 j2] t2] [a|msg| |msg]]; cbn [snd] in *;
    [exact I|exact IH|exact IH|apply Exists_app; right; exact IH].
Qed.

Lemma doCopy_ends env b to jf :
  match (doCopy env b to jf).2 with
  | Returned _ => True
  | Died _ => Exists (fun e => deadly b e.1) (sent (ce_groups env))
  | _ => False
  end.
Proof.
  unfold doCopy. pose proof (copy_groups_ends env b 0 (ce_groups env) [] jf) as Hg.
  destruct (copy_groups _ _ _ _ _ _) as [[[batch jf1] tr1] [[e|]|msg| |msg]];
    cbn [snd] in *; [exact I| |contradiction|contradiction|exact Hg].
  destruct (ce_stream env); [exact I|]. destruct (ce_flush env); exact I.
Qed.

(** *** The move *)

Lemma lockMove_free b : rlock b <= 0 -> lockMove b = Some (set_moveState moveStateLock b).
Proof.
  intros H. unfold lockMove. destruct (Z.ltb_spec 0 (rlock b)); [lia|reflexivity].
Qed.

(** [movingGC] between the first fence and the clean-up, on a store with
    no shared holder. *)
Lemma movingGC_body_run env w b w1 b1 tr np out :
  rlock b <= 0 ->
  movingGC_body env w b = (w1, b1, tr, np, out) ->
  out <> Blocked ∧ rlock b1 = rlock b ∧
  state b1 = state b ∧ viewers b1 = viewers b ∧ opts b1 = opts b ∧
  prefixing b1 = prefixing b ∧ prefix b1 = prefix b ∧ prefixLen b1 = prefixLen b ∧
  match out with
  | Returned None =>
      exists linkPath dn jn tr',
        EvalSymlinks (fs w) (Dir (opts b)) = inl linkPath ∧
        np = new_path (Dir (opts b)) linkPath (me_nanos env) ∧
        doCopy (me_copy env) b (opened (me_found env) np w)
          {| fw_dir := np; written := [] |} = (dn, jn, tr', Returned None) ∧
        db b1 = dn ∧ mhJournal b1 = Some jn ∧ dbNext b1 = None ∧ mhJournalNext b1 = None
  | Returned (Some _) => db b1 = db b ∧ mhJournal b1 = mhJournal b
  | Died _ =>
      Exists (fun e => deadly b e.1) (sent (ce_groups (me_copy env))) ∧
      moveState b1 = moveStateMoving ∧ is_Some (dbNext b1) ∧ db b1 = db b ∧
      exists linkPath,
        EvalSymlinks (fs w) (Dir (opts b)) = inl linkPath ∧
        np = new_path (Dir (opts b)) linkPath (me_nanos env) ∧
        is_Some (fs w1 !! np)
  | _ => True
  end.
Proof.
  intros Hr. unfold movingGC_body.
  destruct (EvalSymlinks (fs w) (Dir (opts b))) as [linkPath|err] eqn:He.
  2:{ intros H. injection H as <- <- <- <- <-. split; [discriminate|]. repeat split; auto. }
  cbv zeta. set (newPath := new_path (Dir (opts b)) linkPath (me_nanos env)).
  assert (Ho : badger_Open (me_open env) (me_found env) newPath w
               = match me_open env with
                 | Some err => (w, inr err)
                 | None => ((badger_Open None (me_found env) newPath w).1,
                            inl (opened (me_found env) newPath w))
                 end).
  { unfold badger_Open, opened. destruct (me_open env); [reflexivity|].
    destruct (fs w !! newPath); reflexivity. }
  rewrite Ho. clear Ho.
  destruct (me_open env) as [err|].
  { intros H. injection H as <- <- <- <- <-. split; [discriminate|]. repeat split; auto. }
  set (w0 := (badger_Open None (me_found env) newPath w).1).
  unfold openJournal. destruct (me_journal env) as [err|].
  { intros H. injection H as <- <- <- <- <-. split; [discriminate|]. repeat split; auto. }
  rewrite (lockMove_free b Hr).
  set (bm := unlockMove moveStateMoving _).
  rewrite (doCopy_same b bm) by reflexivity.
  destruct (doCopy (me_copy env) b (opened (me_found env) newPath w)
              {| fw_dir := newPath; written := [] |}) as [[[dn jn] tr'] out'] eqn:Hc.
  destruct out' as [[e|]| | |].
  - intros H. injection H as <- <- <- <- <-. split; [discriminate|]. repeat split; auto.
  - rewrite lockMove_free by exact Hr.
    set (bc := unlockMove moveStateCleanup _).
    set (w2 := close_db _ _).
    destruct (mhJournal _) as [j|].
    + destruct (Rename _ _ _ _) as [w3 [e|]].
      { intros H. injection H as <- <- <- <- <-. split; [discriminate|]. repeat split; auto. }
      destruct (symlink _ _ _ _) as [w4 [e|]].
      { intros H. injection H as <- <- <- <- <-. split; [discriminate|]. repeat split; auto. }
      destruct (deleteDB _ _ _) as [w5 tr5].
      intros H. injection H as <- <- <- <- <-. split; [discriminate|].
      do 7 (split; [auto|]). exists linkPath, dn, jn, tr'. repeat split; auto.
    + destruct (Rename _ _ _ _) as [w3 [e|]].
      { intros H. injection H as <- <- <- <- <-. split; [discriminate|]. repeat split; auto. }
      destruct (symlink _ _ _ _) as [w4 [e|]].
      { intros H. injection H as <- <- <- <- <-. split; [discriminate|]. repeat split; auto. }
      destruct (deleteDB _ _ _) as [w5 tr5].
      intros H. injection H as <- <- <- <- <-. split; [discriminate|].
      do 7 (split; [auto|]). exists linkPath, dn, jn, tr'. repeat split; auto.
  - intros H. injection H as <- <- <- <- <-. split; [discriminate|]. repeat split; auto.
  - exfalso.
    pose proof (doCopy_ends (me_copy env) b (opened (me_found env) newPath w)
                  {| fw_dir := newPath; written := [] |}) as Hends.
    rewrite Hc in Hends. exact Hends.
  - pose proof (doCopy_ends (me_copy env) b (opened (me_found env) newPath w)
                  {| fw_dir := newPath; written := [] |}) as Hends.
    rewrite Hc in Hends. cbn [snd] in Hends.
    intros H. injection H as <- <- <- <- <-. split; [discriminate|].
    do 7 (split; [reflexivity|]). split; [exact Hends|].
    split; [reflexivity|]. split; [cbn; eauto|]. split; [reflexivity|].
    exists linkPath. split; [reflexivity|]. split; [reflexivity|].
    unfold w0, badger_Open. destruct (fs w !! newPath) as [nd|] eqn:Hnp; cbn.
    + rewrite Hnp. eauto.
    + rewrite lookup_insert_eq. eauto.
Qed.

Lemma movingGC_cleanup_run env np w b :
  rlock b <= 0 ->
  exists w' b' tr,
    movingGC_cleanup env np w b = Some (w', b', tr) ∧
    moveState b' = moveStateNone ∧ dbNext b' = None ∧ mhJournalNext b' = None ∧
    db b' = db b ∧ mhJournal b' = mhJournal b ∧
    state b' = state b ∧ viewers b' = viewers b ∧ rlock b' = rlock b ∧ opts b' = opts b ∧
    prefixing b' = prefixing b ∧ prefix b' = prefix b ∧ prefixLen b' = prefixLen b.
Proof.
  intros Hr. unfold movingGC_cleanup. rewrite (lockMove_free b Hr).
  cbn [dbNext mhJournalNext set_moveState].
  destruct (dbNext b) as [dn|].
  - destruct (deleteDB _ _ _) as [w1 tr1]. rewrite lockMove_free by exact Hr.
    eexists _, _, _. split; [reflexivity|]. repeat split.
  - eexists _, _, _. split; [reflexivity|]. repeat split.
Qed.

Lemma movingGC_run env w b :
  moveState b = moveStateNone -> rlock b <= 0 ->
  exists w1 b1 tr np out w2 b2 tr2,
    movingGC_body env w (set_moveState moveStateMoving b) = (w1, b1, tr, np, out) ∧
    movingGC_cleanup env np w1 b1 = Some (w2, b2, tr2) ∧
    movingGC env w b = match out with
                       | Died msg => (dead w1, mkResult b1 tr (Died msg))
                       | _ => (w2, mkResult b2 (tr ++ tr2) out)
                       end.
Proof.
  intros Hm Hr. unfold movingGC. rewrite Hm. cbn [is_moveStateNone negb].
  cbn [rlock set_moveState]. destruct (Z.ltb_spec 0 (rlock b)); [lia|].
  change (set_moveState moveStateMoving (set_moveState moveStateLock b))
    with (set_moveState moveStateMoving b).
  destruct (movingGC_body env w (set_moveState moveStateMoving b))
    as [[[[w1 b1] tr] np] out] eqn:Hb.
  destruct (movingGC_body_run env w (set_moveState moveStateMoving b) _ _ _ _ _ Hr Hb)
    as (Hnb & Hr1 & _).
  destruct (movingGC_cleanup_run env np w1 b1) as (w2 & b2 & tr2 & Hc & _).
  { rewrite Hr1. exact Hr. }
  exists w1, b1, tr, np, out, w2, b2, tr2. rewrite Hc.
  split; [reflexivity|]. split; [reflexivity|].
  destruct out as [[e|]| | |]; [reflexivity..|contradiction|reflexivity].
Qed.

(** X16. On a store with no move in progress and no operation inside,
    [movingGC] never waits, and it cleans up after itself on every path on
    which the process lives: when it is done no move is in progress, the
    store has no shadow database and no shadow journal, and its state,
    counters, options and prefix are as before; when it returns an error
    the active database and journal are the ones the store had. The one
    other end is the death of the process in the copy, at a key of the
    source that is shorter than the prefix or decodes to more bytes than
    the buffer of the copy has: the callback of the copy runs on a
    goroutine of the stream, nothing recovers its panic, and no clean-up
    runs, so the new directory stays where it was made. *)
Theorem move_cleans_up_or_dies (env : MoveEnv) (w : Sys) (b : Blockstore) :
  moveState b = moveStateNone -> rlock b = 0 ->
  let r := (movingGC env w b).2 in
  r_out r <> Blocked ∧
  (alive (r_out r) ->
   moveState (r_store r) = moveStateNone ∧
   dbNext (r_store r) = None ∧ mhJournalNext (r_store r) = None ∧
   state (r_store r) = state b ∧ viewers (r_store r) = viewers b ∧
   rlock (r_store r) = rlock b ∧ opts (r_store r) = opts b ∧
   prefix (r_store r) = prefix b) ∧
  (forall e, r_out r = Returned (Some e) ->
     db (r_store r) = db b ∧ mhJournal (r_store r) = mhJournal b) ∧
  (forall msg, r_out r = Died msg ->
     Exists (fun e => deadly b e.1) (sent (ce_groups (me_copy env))) ∧
     moveState (r_store r) = moveStateMoving ∧ is_Some (dbNext (r_store r)) ∧
     db (r_store r) = db b ∧
     exists linkPath,
       EvalSymlinks (fs w) (Dir (opts b)) = inl linkPath ∧
       is_Some (fs (movingGC env w b).1
                  !! new_path (Dir (opts b)) linkPath (me_nanos env))).
Proof.
  intros Hm Hr r. subst r.
  assert (Hr' : rlock b <= 0) by lia.
  destruct (movingGC_run env w b Hm Hr')
    as (w1 & b1 & tr & np & out & w2 & b2 & tr2 & Hb & Hc & ->).
  destruct (movingGC_body_run env w (set_moveState moveStateMoving b) _ _ _ _ _ Hr' Hb)
    as (Hnb & Hr1 & Hs1 & Hv1 & Ho1 & _ & Hp1 & _ & Hout).
  destruct (movingGC_cleanup_run env np w1 b1) as (w2' & b2' & tr2' & Hc' & Hclean).
  { rewrite Hr1. exact Hr'. }
  rewrite Hc in Hc'. injection Hc' as <- <- <-.
  destruct Hclean as (Hm2 & Hn2 & Hjn2 & Hd2 & Hj2 & Hs2 & Hv2 & Hr2 & Ho2 & _ & Hp2 & _).
  assert (Hclean : moveState b2 = moveStateNone ∧ dbNext b2 = None ∧
                   mhJournalNext b2 = None ∧ state b2 = state b ∧ viewers b2 = viewers b ∧
                   rlock b2 = rlock b ∧ opts b2 = opts b ∧ prefix b2 = prefix b).
  { split; [exact Hm2|]. split; [exact Hn2|]. split; [exact Hjn2|].
    split; [rewrite Hs2, Hs1; reflexivity|]. split; [rewrite Hv2, Hv1; reflexivity|].
    split; [rewrite Hr2, Hr1; reflexivity|]. split; [rewrite Ho2, Ho1; reflexivity|].
    rewrite Hp2, Hp1. reflexivity. }
  destruct out as [[e|]|msg| |msg]; cbn [fst snd r_out r_store].
  - split; [discriminate|]. split; [intros _; exact Hclean|].
    split; [|intros msg H; discriminate H].
    intros e' _. destruct Hout as [Hd Hj]. rewrite Hd2, Hj2, Hd, Hj. auto.
  - split; [discriminate|]. split; [intros _; exact Hclean|].
    split; [intros e' H; discriminate H|intros msg H; discriminate H].
  - split; [discriminate|]. split; [intros _; exact Hclean|].
    split; [intros e' H; discriminate H|intros msg' H; discriminate H].
  - contradiction.
  - split; [discriminate|]. split; [intros Hal; destruct (Hal msg eq_refl)|].
    split; [intros e' H; discriminate H|]. intros msg' _.
    destruct Hout as (Hex & Hmv & Hdn & Hdb & linkPath & He & -> & Hfs).
    split; [exact Hex|]. split; [exact Hmv|]. split; [exact Hdn|]. split; [exact Hdb|].
    exists linkPath. split; [exact He|exact Hfs].
Qed.

Lemma move_cleans_up_or_dies_witness :
  moveState short_key_store = moveStateNone ∧ rlock short_key_store = 0 ∧
  r_out (movingGC (quiet_move (one_group short_key_store)) world0 short_key_store).2
  = Died "slice bounds out of range" ∧
  Exists (fun e => deadly short_key_store e.1)
    (sent (ce_groups (me_copy (quiet_move (one_group short_key_store))))) ∧
  moveState (r_store (movingGC (quiet_move (one_group short_key_store)) world0
                        short_key_store).2) = moveStateMoving.
Proof.
  assert (Hd : r_out (movingGC (quiet_move (one_group short_key_store)) world0
                        short_key_store).2 = Died "slice bounds out of range")
    by (vm_compute; reflexivity).
  split; [reflexivity|]. split; [reflexivity|]. split; [exact Hd|].
  pose proof (move_cleans_up_or_dies (quiet_move (one_group short_key_store)) world0
                short_key_store eq_refl eq_refl) as (_ & _ & _ & H).
  destruct (H _ Hd) as (H1 & H2 & _). split; [exact H1|exact H2].
Defined.

(** A move that is cancelled during the copy cleans up. *)
Example cancelled_move_cleans_up :
  let r := movingGC cancelled_move world0 hello_store in
  r_out r.2 = Returned (Some (Wrap "error moving badger blockstore" ErrContext)) ∧
  moveState (r_store r.2) = moveStateNone ∧ dbNext (r_store r.2) = None ∧
  fs r.1 !! new_dir = None.
Proof. cbv zeta. repeat split; vm_compute; reflexivity. Qed.

(** *** A move that succeeds *)

Lemma inserts_keys (l : list (list Z * list Z)) : (inserts l).*1 = l.*1.
Proof. unfold inserts. rewrite <- list_fmap_compose. reflexivity. Qed.

Lemma commit_inserts_lookup (l : list (list Z * list Z)) (d : badgerDB) k v :
  NoDup l.*1 -> (k, v) ∈ l -> kv (commit (inserts l) d) !! k = Some v.
Proof.
  induction l as [|[k' v'] l IH] using rev_ind; intros Hnd Hin; [inversion Hin|].
  unfold inserts. rewrite map_app, commit_app. fold (inserts l).
  rewrite fmap_app in Hnd. apply NoDup_app in Hnd as (Hnd & Hdisj & _).
  change (kv (commit (map (fun e : list Z * list Z => (e.1, Some e.2)) [(k', v')])
                (commit (inserts l) d)))
    with (<[k' := v']> (kv (commit (inserts l) d))).
  apply elem_of_app in Hin as [Hin|Hin].
  - assert (Hne : k' <> k).
    { intros ->. apply (Hdisj k); [|apply list_elem_of_here].
      apply list_elem_of_fmap. exists (k, v). auto. }
    rewrite lookup_insert_ne by exact Hne. apply IH; assumption.
  - apply list_elem_of_singleton in Hin. injection Hin as -> ->.
    apply lookup_insert_eq.
Qed.

(** Writing the entries of a map into an empty database gives the map. *)
Lemma commit_all (l : list (list Z * list Z)) (m : gmap (list Z) (list Z)) (d : badgerDB) :
  l ≡ₚ map_to_list m -> kv d = ∅ -> kv (commit (inserts l) d) = m.
Proof.
  intros Hp He. apply map_eq. intros k.
  assert (Hnd : NoDup l.*1) by (rewrite Hp; apply NoDup_fst_map_to_list).
  destruct (m !! k) as [v|] eqn:Hk.
  - apply commit_inserts_lookup; [exact Hnd|].
    rewrite Hp. apply elem_of_map_to_list, Hk.
  - rewrite commit_other, He; [apply lookup_empty|].
    rewrite inserts_keys. intros Hin. apply list_elem_of_fmap in Hin as ([k' v] & -> & Hin).
    rewrite Hp in Hin. apply elem_of_map_to_list in Hin. cbn in Hk. congruence.
Qed.

Lemma Get_out_same fl b b' c :
  state b' = state b -> rlock b' = rlock b -> moveState b' = moveState b ->
  prefixing b' = prefixing b -> prefix b' = prefix b -> prefixLen b' = prefixLen b ->
  kv (db b') !! key_of b c = kv (db b) !! key_of b c ->
  r_out (Get fl b' c) = r_out (Get fl b c) ∧ r_out (Has fl b' c) = r_out (Has fl b c).
Proof.
  intros Hs Hr Hm H1 H2 H3 Hkv. unfold Get, Has, access, lockDB.
  rewrite Hs. destruct (state b); [|destruct (negb (cid.Defined c)); split; reflexivity..].
  cbn [rlock moveState set_viewers].
  set (e' := set_rlock (rlock b' + 1) (set_viewers (viewers b' + 1) b')).
  set (e := set_rlock (rlock b + 1) (set_viewers (viewers b + 1) b)).
  rewrite Hr, Hm.
  destruct ((rlock b =? 0) && is_moveStateLock (moveState b));
    [destruct (negb (cid.Defined c)); split; reflexivity|].
  rewrite (PooledStorageKey_same b e' c H1 H2 H3).
  rewrite (PooledStorageKey_same b e c eq_refl eq_refl eq_refl).
  rewrite (PooledStorageKey_pair b c).
  unfold badgerGet. change (db e') with (db b'). change (db e) with (db b). rewrite Hkv.
  destruct (rf_get fl); destruct (kv (db b) !! key_of b c); destruct (negb (cid.Defined c));
    split; reflexivity.
Qed.

Lemma sent_concat (groups : list (list KV)) : sent groups = sendable (concat groups).
Proof.
  unfold sent, sendable. induction groups as [|g groups IH]; [reflexivity|].
  cbn [map concat]. rewrite omap_app, IH. reflexivity.
Qed.

(** Of the entries the stream hands out, the filter of [iterateBadger]
    lets those with bytes through. *)
Lemma sendable_streamed (l : list (list Z * list Z)) :
  sendable (map streamed l) = filter (fun e : list Z * list Z => e.2 ≠ []) l.
Proof.
  induction l as [|[k v] l IH]; [reflexivity|].
  unfold sendable in *. cbn [map omap list_omap streamed Key Value fst snd].
  rewrite IH. destruct (decide (v = [])) as [->|Hv].
  - rewrite bool_decide_eq_true_2 by reflexivity.
    rewrite filter_cons_False; [reflexivity|]. intros H. apply H. reflexivity.
  - rewrite bool_decide_eq_false_2 by exact Hv.
    rewrite filter_cons_True by exact Hv. reflexivity.
Qed.

Lemma with_bytes_lookup (m : gmap (list Z) (list Z)) k :
  with_bytes m !! k = match m !! k with
                      | Some v => if decide (v = []) then None else Some v
                      | None => None
                      end.
Proof.
  unfold with_bytes. destruct (m !! k) as [v|] eqn:Hk.
  - destruct (decide (v = [])) as [->|Hv].
    + apply map_lookup_filter_None. right. intros v Hk' H. apply H.
      cbn. congruence.
    + apply map_lookup_filter_Some. split; [exact Hk|exact Hv].
  - apply map_lookup_filter_None. left. exact Hk.
Qed.

(** What a stream over the store sends on to the copy: the entries that
    have bytes, each once. *)
Lemma streams_sent (groups : list (list KV)) (b : Blockstore) :
  streams groups b -> sent groups ≡ₚ map_to_list (with_bytes (kv (db b))).
Proof.
  intros Hs. rewrite sent_concat. unfold streams in Hs. unfold sendable at 1.
  rewrite Hs. fold (sendable (map streamed (map_to_list (kv (db b))))).
  rewrite sendable_streamed. apply NoDup_Permutation.
  - apply NoDup_filter, NoDup_map_to_list.
  - apply NoDup_map_to_list.
  - intros [k v]. rewrite list_elem_of_filter, !elem_of_map_to_list.
    unfold with_bytes. rewrite map_lookup_filter_Some. cbn [snd]. tauto.
Qed.

Lemma streams_one_group b : streams (one_group b) b.
Proof. unfold streams, one_group. cbn [concat]. rewrite app_nil_r. reflexivity. Qed.

(** X17. A move that returns no error keeps the blocks that have bytes,
    and loses the empty ones. The stream of the copy hands out every entry
    of the store once, in any order and any grouping, an entry without
    bytes with a nil value, and [iterateBadger] passes on the entries
    whose value is not nil. So, when the new directory was not there, the
    store now works on a database in another directory that holds exactly
    the entries that had bytes; its journal is a new one with one record
    of 33 bytes for each of them; no move is in progress; [Get] and [Has]
    answer as before for every cid that was not stored as an empty block;
    and a cid that was stored as an empty block is no longer in the store:
    [Has] said true before the move and says false after it. *)
Theorem move_keeps_what_has_bytes (env : MoveEnv) (w : Sys) (b : Blockstore) :
  r_out (movingGC env w b).2 = Returned None ->
  (forall linkPath, EvalSymlinks (fs w) (Dir (opts b)) = inl linkPath ->
     fs w !! new_path (Dir (opts b)) linkPath (me_nanos env) = None) ->
  streams (ce_groups (me_copy env)) b ->
  let b' := r_store (movingGC env w b).2 in
  kv (db b') = with_bytes (kv (db b)) ∧
  (exists linkPath, EvalSymlinks (fs w) (Dir (opts b)) = inl linkPath ∧
     db_dir (db b') = new_path (Dir (opts b)) linkPath (me_nanos env)) ∧
  (exists j, mhJournal b' = Some j ∧ fw_dir j = db_dir (db b') ∧
     length (written j) = (33 * size (with_bytes (kv (db b))))%nat) ∧
  moveState b' = moveStateNone ∧ dbNext b' = None ∧ mhJournalNext b' = None ∧
  opts b' = opts b ∧
  (forall fl c, kv (db b) !! key_of b c <> Some [] ->
     r_out (Get fl b' c) = r_out (Get fl b c) ∧
     r_out (Has fl b' c) = r_out (Has fl b c)) ∧
  (forall c, kv (db b) !! key_of b c = Some [] ->
     kv (db b') !! key_of b c = None ∧
     (state b = stateOpen ->
      r_out (Has no_read_faults b c) = Returned (true, None) ∧
      r_out (Has no_read_faults b' c) = Returned (false, None))).
Proof.
  intros Hok Hfresh Hstream b'. subst b'.
  assert (Hm : moveState b = moveStateNone).
  { destruct (moveState b) eqn:Hm; [reflexivity|..];
      rewrite move_in_progress in Hok by (rewrite Hm; discriminate); discriminate Hok. }
  assert (Hr : rlock b <= 0).
  { destruct (Z.ltb_spec 0 (rlock b)) as [Hlt|]; [|assumption].
    unfold movingGC in Hok. rewrite Hm in Hok. cbn [is_moveStateNone negb] in Hok.
    cbn [rlock set_moveState] in Hok.
    destruct (Z.ltb_spec 0 (rlock b)); [discriminate Hok|lia]. }
  destruct (movingGC_run env w b Hm Hr)
    as (w1 & b1 & tr & np & out & w2 & b2 & tr2 & Hb & Hc & Hrun).
  assert (Hout0 : out = Returned None).
  { rewrite Hrun in Hok. destruct out as [[e|]| | |]; cbn [snd r_out] in Hok;
      solve [exact Hok | discriminate Hok]. }
  subst out. rewrite Hrun. cbn [snd r_out r_store].
  destruct (movingGC_body_run env w (set_moveState moveStateMoving b) _ _ _ _ _ Hr Hb)
    as (_ & Hr1 & Hs1 & _ & Ho1 & Hpg1 & Hp1 & Hpl1 & Hout).
  destruct Hout as (linkPath & dn & jn & tr' & He & Hnp & Hcopy & Hd1 & Hj1 & _).
  destruct (movingGC_cleanup_run env np w1 b1) as (w2' & b2' & tr2' & Hc' & Hclean).
  { rewrite Hr1. exact Hr. }
  rewrite Hc in Hc'. injection Hc' as <- <- <-.
  destruct Hclean as (Hm2 & Hn2 & Hjn2 & Hd2 & Hj2 & Hs2 & _ & Hr2 & Ho2 & Hpg2 & Hp2 & Hpl2).
  cbn [opts set_moveState] in He, Hnp.
  rewrite (doCopy_same b (set_moveState moveStateMoving b)) in Hcopy by reflexivity.
  destruct (doCopy_ok _ _ _ _ _ _ _ Hcopy) as (Hdn & Hw & Hdir & Hall).
  pose proof (streams_sent _ _ Hstream) as Hsent.
  assert (Hkv : kv (db b2) = with_bytes (kv (db b))).
  { rewrite Hd2, Hd1, Hdn. apply commit_all; [exact Hsent|].
    unfold opened. cbn [kv]. rewrite Hnp, (Hfresh linkPath He). reflexivity. }
  assert (Hsame : forall c, key_of b2 c = key_of b c).
  { intros c. unfold key_of. rewrite (PooledStorageKey_same b b2 c); [reflexivity|..].
    - rewrite Hpg2. exact Hpg1.
    - rewrite Hp2. exact Hp1.
    - rewrite Hpl2. exact Hpl1. }
  split; [exact Hkv|]. split.
  { exists linkPath. split; [exact He|]. rewrite Hd2, Hd1, Hdn, <- Hnp. reflexivity. }
  split.
  { exists jn. split; [rewrite Hj2; exact Hj1|]. split.
    - rewrite Hdir, Hd2, Hd1, Hdn. reflexivity.
    - rewrite Hw, length_app, records_of_keys_length by exact Hall.
      rewrite Hsent, length_map_to_list. reflexivity. }
  split; [exact Hm2|]. split; [exact Hn2|]. split; [exact Hjn2|].
  split; [rewrite Ho2; exact Ho1|]. split.
  - intros fl c Hne. apply Get_out_same.
    + rewrite Hs2. exact Hs1.
    + rewrite Hr2. exact Hr1.
    + rewrite Hm2, Hm. reflexivity.
    + rewrite Hpg2. exact Hpg1.
    + rewrite Hp2. exact Hp1.
    + rewrite Hpl2. exact Hpl1.
    + rewrite Hkv, with_bytes_lookup.
      destruct (kv (db b) !! key_of b c) as [v|]; [|reflexivity].
      destruct (decide (v = [])) as [->|]; [|reflexivity]. contradiction Hne. reflexivity.
  - intros c Hc0.
    assert (Hgone : kv (db b2) !! key_of b c = None).
    { rewrite Hkv, with_bytes_lookup, Hc0. reflexivity. }
    split; [exact Hgone|]. intros Hopen.
    assert (Ha : enterable b).
    { split; [exact Hopen|]. rewrite Hm. apply andb_false_r. }
    assert (Ha2 : enterable b2).
    { split; [rewrite Hs2, Hs1; exact Hopen|]. rewrite Hm2. apply andb_false_r. }
    rewrite (Has_entered b c Ha), (Has_entered b2 c Ha2), Hsame, Hgone, Hc0.
    split; reflexivity.
Qed.

Lemma move_keeps_what_has_bytes_witness :
  r_out (movingGC (quiet_move (one_group hollow_store)) world0 hollow_store).2 = Returned None ∧
  kv (db hollow_store) !! key_of hollow_store sha2_cid = Some [] ∧
  kv (db (r_store (movingGC (quiet_move (one_group hollow_store)) world0 hollow_store).2))
  = with_bytes (kv (db hollow_store)) ∧
  r_out (Has no_read_faults
           (r_store (movingGC (quiet_move (one_group hollow_store)) world0 hollow_store).2)
           sha2_cid) = Returned (false, None).
Proof.
  assert (Hok : r_out (movingGC (quiet_move (one_group hollow_store)) world0 hollow_store).2
                = Returned None) by (vm_compute; reflexivity).
  assert (Hk : kv (db hollow_store) !! key_of hollow_store sha2_cid = Some [])
    by (vm_compute; reflexivity).
  split; [exact Hok|]. split; [exact Hk|].
  assert (Hfresh : forall linkPath,
             EvalSymlinks (fs world0) (Dir (opts hollow_store)) = inl linkPath ->
             fs world0 !! new_path (Dir (opts hollow_store)) linkPath
                             (me_nanos (quiet_move (one_group hollow_store))) = None).
  { intros linkPath He.
    assert (H : EvalSymlinks (fs world0) (Dir (opts hollow_store)) = inl store_dir)
      by (vm_compute; reflexivity).
    rewrite H in He. injection He as <-. vm_compute. reflexivity. }
  pose proof (move_keeps_what_has_bytes (quiet_move (one_group hollow_store)) world0
                hollow_store Hok Hfresh (streams_one_group hollow_store))
    as (H1 & _ & _ & _ & _ & _ & _ & _ & H2).
  split; [exact H1|]. exact (proj2 (proj2 (H2 sha2_cid Hk) eq_refl)).
Defined.

(** *** A move that has to wait *)

(** X21. The exclusive lock of the move does not keep operations out
    while others are inside. A moving GC that finds a shared holder
    waits with the move state set to locked; on the store it waits on,
    operations still enter and are served, so the move can wait for as
    long as callers keep coming; and a second moving GC is turned away. *)
Theorem waiting_move_lets_operations_in (env env' : MoveEnv) (w : Sys) (b : Blockstore)
    (c : cid.Cid) :
  state b = stateOpen -> moveState b = moveStateNone -> 0 < rlock b ->
  let r := movingGC env w b in
  r.1 = w ∧ r_out r.2 = Blocked ∧ r_store r.2 = set_moveState moveStateLock b ∧
  enterable (r_store r.2) ∧
  r_out (Has no_read_faults (r_store r.2) c)
  = Returned (bool_decide (is_Some (kv (db b) !! key_of b c)), None) ∧
  r_out (movingGC env' w (r_store r.2)).2 = Returned (Some ErrMoveInProgress).
Proof.
  intros Hs Hm Hr r. subst r.
  assert (Hrun : movingGC env w b
                 = (w, mkResult (set_moveState moveStateLock b) [] Blocked)).
  { unfold movingGC. rewrite Hm. cbn [is_moveStateNone negb rlock set_moveState].
    destruct (Z.ltb_spec 0 (rlock b)); [reflexivity|lia]. }
  rewrite Hrun. cbn [fst snd r_out r_store].
  assert (Ha : enterable (set_moveState moveStateLock b)).
  { split; [exact Hs|]. cbn [rlock set_moveState moveState].
    destruct (Z.eqb_spec (rlock b) 0); [lia|reflexivity]. }
  split; [reflexivity|]. split; [reflexivity|]. split; [reflexivity|].
  split; [exact Ha|]. split.
  - rewrite (Has_entered _ c Ha). reflexivity.
  - rewrite move_in_progress; [reflexivity|]. cbn. discriminate.
Qed.

Lemma waiting_move_lets_operations_in_witness :
  state busy_store = stateOpen ∧ moveState busy_store = moveStateNone ∧
  0 < rlock busy_store ∧
  r_out (movingGC (quiet_move (one_group hello_store)) world0 busy_store).2 = Blocked ∧
  enterable (r_store (movingGC (quiet_move (one_group hello_store)) world0 busy_store).2).
Proof.
  split; [reflexivity|]. split; [reflexivity|]. split; [reflexivity|].
  pose proof (waiting_move_lets_operations_in (quiet_move (one_group hello_store))
                (quiet_move (one_group hello_store)) world0 busy_store blake_cid
                eq_refl eq_refl eq_refl) as (_ & H1 & _ & H2 & _).
  split; [exact H1|exact H2].
Defined.

End move_more.

(** ** Opening, closing and flushing *)

Module lifecycle_more.
Import badgerbs spec scenarios codec_facts store_facts write_facts write_more.

(** What [Open] hands out when it returns a store. *)
Lemma Open_ok env w o w1 b :
  Open env w o = (w1, inl b) ->
  oe_badger env = None ∧
  state b = stateOpen ∧ viewers b = 0 ∧ rlock b = 0 ∧ moveState b = moveStateNone ∧
  dbNext b = None ∧ mhJournalNext b = None ∧ opts b = o ∧
  db b = opened (oe_found env) (Dir o) w ∧
  fs w1 = fs (badger_Open None (oe_found env) (Dir o) w).1 ∧
  dbs w1 = {[Dir o]} ∪ dbs w ∧
  (if ReadOnly o then mhJournal b = None ∧ journals w1 = journals w
   else mhJournal b = Some {| fw_dir := Dir o; written := [] |} ∧
        journals w1 = {[Dir o]} ∪ journals w).
Proof.
  unfold Open, badger_Open, opened. destruct (oe_badger env); [discriminate|].
  destruct (fs w !! Dir o) eqn:Hd.
  - destruct (ReadOnly o).
    + intros H. injection H as <- <-. repeat split.
    + unfold openJournal. destruct (oe_journal env); [discriminate|].
      intros H. injection H as <- <-. repeat split.
  - destruct (ReadOnly o).
    + intros H. injection H as <- <-. repeat split.
    + unfold openJournal. destruct (oe_journal env); [discriminate|].
      intros H. injection H as <- <-. repeat split.
Qed.

Lemma handle_given_back (dir : path) (X Y : gset path) :
  dir ∉ X -> Y = {[dir]} ∪ X -> Y ∖ {[dir]} = X.
Proof.
  intros Hn ->. apply set_eq. intros p.
  rewrite elem_of_difference, elem_of_union, elem_of_singleton. split.
  - intros [[->|Hp] Hne]; [contradiction|exact Hp].
  - intros Hp. split; [auto|]. intros ->. contradiction.
Qed.

(** X18. [Open] followed by [Close] gives back every handle it took:
    when no handle was open on the directory before, none is open on it
    after, whatever the two closes return. The store ends closed, and
    [Close] reports the error of the database before the error of the
    journal, which a read-only store does not have. *)
Theorem open_close_round_trip (env : OpenEnv) (fl : CloseFaults) (w w1 : Sys)
    (o : Options) (b : Blockstore) :
  Open env w o = (w1, inl b) ->
  Dir o ∉ dbs w -> Dir o ∉ journals w ->
  let r := Close fl w1 b in
  dbs r.1 = dbs w ∧ journals r.1 = journals w ∧ fs r.1 = fs w1 ∧
  state (r_store r.2) = stateClosed ∧
  r_out r.2 = Returned
    match cf_db fl with
    | Some e => Some (Wrap "failure closing the badger blockstore" e)
    | None =>
        if ReadOnly o then None
        else option_map (Wrap "failure closing the multihash journal") (cf_mhJournal fl)
    end.
Proof.
  intros Hopen Hd Hj r. subst r.
  destruct (Open_ok _ _ _ _ _ Hopen)
    as (_ & Hs & Hv & _ & _ & _ & _ & _ & Hdb & _ & Hdbs & Hro).
  unfold Close. rewrite Hs. cbn [viewers set_state]. rewrite Hv. cbn [Z.eqb negb].
  cbn [db mhJournal set_state]. rewrite Hdb. cbn [db_dir opened].
  pose proof (handle_given_back _ _ _ Hd Hdbs) as Hback.
  destruct (ReadOnly o).
  - destruct Hro as [-> Hjs]. cbn [fst snd r_out r_store state set_state].
    unfold close_db. cbn [dbs journals fs set_dbs].
    change (db_dir (opened (oe_found env) (Dir o) w)) with (Dir o).
    rewrite Hback, Hjs.
    destruct (cf_db fl); repeat split.
  - destruct Hro as [-> Hjs].
    pose proof (handle_given_back _ _ _ Hj Hjs) as Hjback.
    destruct (cf_mhJournal fl); cbn [fst snd r_out r_store state set_state];
      unfold close_journal, close_db; cbn [dbs journals fs set_dbs set_journals fw_dir];
      change (db_dir (opened (oe_found env) (Dir o) w)) with (Dir o);
      rewrite Hback, Hjback; destruct (cf_db fl); repeat split.
Qed.

Lemma open_close_round_trip_witness :
  Open hello_dir cold_world (store_opts []) =
    ((Open hello_dir cold_world (store_opts [])).1, inl hello_store) ∧
  (Dir (store_opts []) ∉ dbs cold_world) ∧ (Dir (store_opts []) ∉ journals cold_world) ∧
  dbs (Close no_close_faults (Open hello_dir cold_world (store_opts [])).1 hello_store).1
  = dbs cold_world.
Proof.
  assert (Ho : Open hello_dir cold_world (store_opts []) =
               ((Open hello_dir cold_world (store_opts [])).1, inl hello_store))
    by (vm_compute; reflexivity).
  assert (Hd : Dir (store_opts []) ∉ dbs cold_world) by (apply not_elem_of_empty).
  assert (Hj : Dir (store_opts []) ∉ journals cold_world) by (apply not_elem_of_empty).
  split; [exact Ho|]. split; [exact Hd|]. split; [exact Hj|].
  apply (open_close_round_trip hello_dir no_close_faults cold_world _ _ _ Ho Hd Hj).
Defined.

(** X19. When the journal file cannot be opened, [Open] returns that
    error and no store, and the badger database it has just opened stays
    open: nothing the caller holds can close it. *)
Theorem Open_keeps_database_when_journal_fails (env : OpenEnv) (w : Sys) (o : Options)
    (e : Err) :
  oe_badger env = None -> ReadOnly o = false -> oe_journal env = Some e ->
  (Open env w o).2 = inr e ∧
  Dir o ∈ dbs (Open env w o).1 ∧
  journals (Open env w o).1 = journals w.
Proof.
  intros Hb Hro Hj. unfold Open, badger_Open, openJournal. rewrite Hb, Hro, Hj.
  destruct (fs w !! Dir o); cbn; (split; [reflexivity|]); (split; [|reflexivity]);
    apply elem_of_union; left; apply elem_of_singleton; reflexivity.
Qed.

Lemma Open_keeps_database_when_journal_fails_witness :
  (Open journal_denied cold_world (store_opts [])).2 = inr (ErrIO 13) ∧
  Dir (store_opts []) ∈ dbs (Open journal_denied cold_world (store_opts [])).1.
Proof.
  pose proof (Open_keeps_database_when_journal_fails journal_denied cold_world
                (store_opts []) (ErrIO 13) eq_refl eq_refl eq_refl) as (H1 & H2 & _).
  split; [exact H1|exact H2].
Defined.

Lemma put_no_journal bf n blks d :
  bf_flush bf = None ->
  (put bf (replicate n None) blks [] d None).2
  = Panicked "invalid memory address or nil pointer dereference".
Proof. intros Hf. unfold put. rewrite batch_sets_none, Hf. reflexivity. Qed.

(** X20. A store opened read-only takes no put. It has no journal, so
    [PutMany] never returns without an error; and when the engine itself
    has nothing to refuse, because every block of the batch is in the
    store or the batch is empty, the call ends in a nil dereference at
    the journal write instead of an error. *)
Theorem read_only_store_takes_no_put (env : OpenEnv) (w w1 : Sys) (o : Options)
    (b : Blockstore) :
  Open env w o = (w1, inl b) -> ReadOnly o = true ->
  (forall fl blks, r_out (PutMany fl b blks) <> Returned None) ∧
  (forall fl blks,
     (forall i, pf_get fl i = None) -> bf_flush (pf_active fl) = None ->
     Forall (fun blk => is_Some (kv (db b) !! key_of b (blocks.Cid blk))) blks ->
     r_out (PutMany fl b blks)
     = Panicked "invalid memory address or nil pointer dereference").
Proof.
  intros Hopen Hro.
  destruct (Open_ok _ _ _ _ _ Hopen) as (_ & Hs & _ & Hr & Hm & _ & _ & _ & _ & _ & _ & Hj).
  rewrite Hro in Hj. destruct Hj as [Hj _].
  assert (Ha : enterable b).
  { split; [exact Hs|]. rewrite Hr, Hm. reflexivity. }
  split.
  - intros fl blks Hok.
    destruct (PutMany_success fl b blks Hok) as (_ & keys & jrnl & j & _ & Hj' & _).
    rewrite Hj in Hj'. discriminate Hj'.
  - intros fl blks Hg Hf Hall.
    destruct (PutMany_run fl b blks Ha) as [_ Hrun]. cbv zeta in Hrun.
    assert (Hks : Forall (fun k => is_Some (kv (db b) !! k)) (keys_of b blks)).
    { unfold keys_of. apply Forall_fmap. exact Hall. }
    pose proof (probe_present (pf_get fl) (db b) 0 (keys_of b blks) blks []
                  (keys_of_length b blks) Hks) as Hp.
    destruct (probe (pf_get fl) (db b) 0 (keys_of b blks) blks []) as [[keys jrnl]|err].
    2:{ destruct Hp as [n Hn]. destruct (Hn (Hg n)). }
    destruct Hp as [-> ->]. destruct Hrun as (_ & _ & Hrest).
    rewrite Hj, (put_no_journal _ _ _ _ Hf) in Hrest.
    destruct Hrest as (_ & _ & ->). reflexivity.
Qed.

Lemma read_only_store_takes_no_put_witness :
  Open hello_dir cold_world read_only_opts
  = ((Open hello_dir cold_world read_only_opts).1, inl read_only_store) ∧
  ReadOnly read_only_opts = true ∧
  r_out (PutMany no_put_faults read_only_store [blocks.NewBlockWithCid hello blake_cid])
  = Panicked "invalid memory address or nil pointer dereference".
Proof.
  assert (Ho : Open hello_dir cold_world read_only_opts
               = ((Open hello_dir cold_world read_only_opts).1, inl read_only_store))
    by (vm_compute; reflexivity).
  split; [exact Ho|]. split; [reflexivity|].
  apply (read_only_store_takes_no_put hello_dir cold_world _ read_only_opts _ Ho eq_refl).
  - reflexivity.
  - reflexivity.
  - apply Forall_cons_2; [|apply Forall_nil_2]. vm_compute. eauto.
Defined.

End lifecycle_more.

(** ** Flush, the worker counts and the size *)

Module misc_more.
Import badgerbs spec scenarios store_facts write_facts.

(** X22. [Flush] reports every sync that fails. On a store that can be
    entered it returns no error exactly when the sync of the database
    succeeds, and that of the journal when the store has one, and those
    of the shadow database and its journal when a move is in progress;
    the syncs of what the store does not have do not count. The store is
    left as it was. *)
Theorem Flush_reports_every_sync (fl : FlushFaults) (b : Blockstore) :
  enterable b ->
  r_store (Flush fl b) = b ∧
  (r_out (Flush fl b) = Returned None <->
   ff_db fl = None ∧
   (is_Some (mhJournal b) -> ff_mhJournal fl = None) ∧
   (is_Some (dbNext b) -> ff_dbNext fl = None ∧ ff_mhJournalNext fl = None)).
Proof.
  intros Ha. unfold Flush.
  rewrite access_open by apply Ha. rewrite lockDB_enterable by exact Ha.
  cbn [r_store r_out]. split; [apply leave_entered_id|].
  cbn [dbNext mhJournal set_rlock set_viewers].
  destruct (dbNext b) as [dn|], (mhJournal b) as [j|];
    destruct (ff_dbNext fl), (ff_mhJournalNext fl), (ff_mhJournal fl), (ff_db fl);
    cbn; split;
    try (intros H; discriminate H);
    try (intros (H1 & H2 & H3); first
           [ discriminate H1
           | discriminate (H2 (ltac:(eauto)))
           | destruct (H3 (ltac:(eauto))) as [H4 H5]; first [discriminate H4|discriminate H5]
           | reflexivity ]);
    try (intros _; split; [reflexivity|]; split; intros [? H]; first [discriminate H|auto]).
Qed.

Lemma Flush_reports_every_sync_witness :
  enterable hello_store ∧ r_store (Flush journal_sync_fails hello_store) = hello_store.
Proof.
  split; [apply enterable_store_with|].
  apply (Flush_reports_every_sync journal_sync_fails hello_store (enterable_store_with _ _)).
Defined.

(** X23. The two worker counts are clamps. [between] gives a value of
    the range when the range is not empty, and the value itself when it
    is in the range; the loop of [onlineGC] computes the same clamp as
    [between 2 7]; a copy runs with 2 to 8 workers unless the variable
    is set, and then with the number set, whatever it is. *)
Theorem worker_counts (min max val NumCPU workers : Z) :
  (min <= max -> min <= between min max val <= max) ∧
  (min <= val <= max -> between min max val = val) ∧
  flatten_workers NumCPU = between 2 7 (Z.quot NumCPU 2) ∧
  2 <= flatten_workers NumCPU <= 7 ∧
  2 <= iterate_workers 0 NumCPU <= 8 ∧
  (workers <> 0 -> iterate_workers workers NumCPU = workers).
Proof.
  unfold flatten_workers, iterate_workers, between. cbv zeta.
  set (q := Z.quot NumCPU 2).
  split; [|split; [|split; [|split; [|split]]]].
  - intros H. destruct (Z.ltb_spec max val).
    + destruct (Z.ltb_spec max min); lia.
    + destruct (Z.ltb_spec val min); lia.
  - intros H. destruct (Z.ltb_spec max val); [lia|].
    destruct (Z.ltb_spec val min); lia.
  - destruct (Z.ltb_spec q 2), (Z.ltb_spec 7 q);
      try destruct (Z.ltb_spec 7 2); try destruct (Z.ltb_spec q 2); lia.
  - destruct (Z.ltb_spec q 2); [destruct (Z.ltb_spec 7 2)|destruct (Z.ltb_spec 7 q)]; lia.
  - cbn [Z.eqb]. destruct (Z.ltb_spec 8 q); [destruct (Z.ltb_spec 8 2)|destruct (Z.ltb_spec q 2)];
      lia.
  - intros H. destruct (Z.eqb_spec workers 0); [contradiction|reflexivity].
Qed.

Lemma wrap64_small x : 0 <= x < 2 ^ 63 -> wrap64 x = x.
Proof. intros H. unfold wrap64. rewrite Z.mod_small by lia. lia. Qed.

Lemma total_size_nonneg stat dir entries :
  Forall (fun e => exists n, stat (filepath_Join dir e) = Some n ∧ 0 <= n) entries ->
  0 <= total_size stat dir entries.
Proof.
  unfold total_size. induction 1 as [|e l (n & Hn & Hpos) _ IH]; cbn [foldr]; [lia|].
  rewrite Hn. change (default 0 (Some n)) with n. lia.
Qed.

Lemma Size_loop_sum stat dir entries acc :
  Forall (fun e => exists n, stat (filepath_Join dir e) = Some n ∧ 0 <= n) entries ->
  0 <= acc -> acc + total_size stat dir entries < 2 ^ 63 ->
  Size_loop stat dir entries acc = Returned (acc + total_size stat dir entries).
Proof.
  intros Hall. revert acc. induction Hall as [|e l (n & Hn & Hpos) Hl IH]; intros acc Ha Hlt.
  - cbn. f_equal. lia.
  - pose proof (total_size_nonneg stat dir l Hl) as Hnn.
    assert (Ht : total_size stat dir (e :: l) = n + total_size stat dir l).
    { unfold total_size. cbn [foldr]. rewrite Hn. reflexivity. }
    rewrite Ht in *. cbn [Size_loop]. rewrite Hn.
    rewrite wrap64_small by lia. rewrite IH by lia. f_equal. lia.
Qed.

Lemma Size_loop_gone stat dir entries acc e :
  e ∈ entries -> stat (filepath_Join dir e) = None ->
  Size_loop stat dir entries acc
  = Panicked "invalid memory address or nil pointer dereference".
Proof.
  intros Hin He. revert acc. induction entries as [|e' l IH]; intros acc; [inversion Hin|].
  cbn [Size_loop]. apply elem_of_cons in Hin as [<-|Hin].
  - rewrite He. reflexivity.
  - destruct (stat (filepath_Join dir e')); [apply IH, Hin|reflexivity].
Qed.

(** X24. [Size] is the sum of the sizes of the entries of the store
    directory, when every entry is still there and the sum fits in 63
    bits. It drops the error of [os.Stat], so when one entry is gone by
    the time it is looked at, as a table file may be during a
    compaction, the call does not return a size: it ends in a nil
    dereference. *)
Theorem Size_sums_or_panics (env : SizeEnv) (b : Blockstore) (entries : list string) :
  se_ReadDir env (Dir (opts b)) = inl entries ->
  (Forall (fun e => exists n, se_Stat env (filepath_Join (Dir (opts b)) e) = Some n ∧ 0 <= n)
          entries ->
   total_size (se_Stat env) (Dir (opts b)) entries < 2 ^ 63 ->
   Size env b = Returned (total_size (se_Stat env) (Dir (opts b)) entries, None)) ∧
  (forall e, e ∈ entries -> se_Stat env (filepath_Join (Dir (opts b)) e) = None ->
   Size env b = Panicked "invalid memory address or nil pointer dereference").
Proof.
  intros Hr. unfold Size. rewrite Hr. split.
  - intros Hall Hlt. rewrite (Size_loop_sum _ _ _ 0 Hall) by lia. reflexivity.
  - intros e Hin He. rewrite (Size_loop_gone _ _ _ 0 e Hin He). reflexivity.
Qed.

Lemma Size_sums_or_panics_witness :
  se_ReadDir three_files (Dir (opts hello_store))
  = inl ["000001.sst"; "MANIFEST"; "MultiHashes.bin"] ∧
  Size three_files hello_store = Returned (4157, None) ∧
  Size table_gone hello_store
  = Panicked "invalid memory address or nil pointer dereference".
Proof.
  split; [reflexivity|].
  pose proof (Size_sums_or_panics three_files hello_store _ eq_refl) as [H _].
  pose proof (Size_sums_or_panics table_gone hello_store _ eq_refl) as [_ H'].
  split.
  - apply H; [|vm_compute; reflexivity].
    repeat (apply Forall_cons_2; [eexists; split; [vm_compute; reflexivity|lia]|]).
    apply Forall_nil_2.
  - apply (H' "000001.sst"); [apply list_elem_of_here|vm_compute; reflexivity].
Defined.

End misc_more.

(** ** The gate stays balanced *)

Module gate_more.
Import badgerbs spec scenarios store_facts write_facts move_facts.
Import read_more write_more iteration_more move_more.

Lemma gate_cases b :
  access b = (b, Some ErrBlockstoreClosed) ∨
  (access b = (set_viewers (viewers b + 1) b, None) ∧
   lockDB (set_viewers (viewers b + 1) b) = None) ∨
  enterable b.
Proof.
  unfold access, enterable, lockDB. destruct (state b); [|auto..].
  cbn [rlock moveState set_viewers].
  destruct ((rlock b =? 0) && is_moveStateLock (moveState b)); auto.
Qed.

Lemma frame_balanced b b' : frame b b' -> balanced b b'.
Proof. intros (_ & Hv & Hr & _). split; assumption. Qed.

Lemma balanced_refl b : balanced b b.
Proof. split; reflexivity. Qed.

Lemma movingGC_balanced env w b :
  r_out (movingGC env w b).2 <> Blocked -> balanced b (r_store (movingGC env w b).2).
Proof.
  intros Hnb. destruct (moveState b) eqn:Hm.
  2-4: rewrite move_in_progress by (rewrite Hm; discriminate); apply balanced_refl.
  destruct (Z.ltb_spec 0 (rlock b)) as [Hlt|Hr].
  { exfalso. apply Hnb. unfold movingGC. rewrite Hm. cbn [is_moveStateNone negb].
    cbn [rlock set_moveState]. destruct (Z.ltb_spec 0 (rlock b)); [reflexivity|lia]. }
  destruct (movingGC_run env w b Hm Hr)
    as (w1 & b1 & tr & np & out & w2 & b2 & tr2 & Hb & Hc & ->).
  destruct (movingGC_body_run env w (set_moveState moveStateMoving b) _ _ _ _ _ Hr Hb)
    as (_ & Hr1 & _ & Hv1 & _).
  destruct (movingGC_cleanup_run env np w1 b1) as (w2' & b2' & tr2' & Hc' & Hclean).
  { rewrite Hr1. exact Hr. }
  rewrite Hc in Hc'. injection Hc' as <- <- <-.
  destruct Hclean as (_ & _ & _ & _ & _ & _ & Hv2 & Hr2 & _).
  destruct out as [[e|]| | |]; split; cbn [snd r_store];
    solve [rewrite Hv2; exact Hv1 | rewrite Hr2; exact Hr1 | exact Hv1 | exact Hr1].
Qed.

(** X25. Every operation that comes to an end leaves the gate as it
    found it: after [PutMany], [DeleteMany], [ForEachKey], [AllKeysChan],
    [CollectGarbage] and [GCOnce], whatever they return, error and panic
    included, the wait group and the shared lock count of the store are
    what they were. So on a store that nothing else uses, a [Close] that
    follows any of them does not wait. A [CollectGarbage] during which
    the process dies in the copy of a full GC has not come to an end, and
    nothing follows it. *)
Theorem operations_leave_the_gate_balanced (b : Blockstore)
    (pfl : PutFaults) (blks : list blocks.Block)
    (dfl : DeleteFaults) (cids : list cid.Cid)
    (ienv : IterEnv) (f : cid.Cid -> option Err)
    (genv : GCEnv) (w : Sys) (os : list BlockstoreGCOption) :
  gate_kept b (PutMany pfl b blks) ∧ gate_kept b (DeleteMany dfl b cids) ∧
  gate_kept b (ForEachKey ienv b f) ∧ gate_kept b (AllKeysChan ienv b) ∧
  (alive (r_out (CollectGarbage genv w b os).2) ->
   gate_kept b (CollectGarbage genv w b os).2) ∧
  gate_kept b (GCOnce genv b os).
Proof.
  assert (Hclose : forall b', balanced b b' -> viewers b = 0 ->
            forall cfl w', r_out (Close cfl w' b').2 <> Blocked).
  { intros b' [Hv _] H0 cfl w'. unfold Close. destruct (state b'); [|discriminate..].
    cbn [viewers set_state]. rewrite Hv, H0. cbn [Z.eqb negb].
    destruct (mhJournal _); [destruct (cf_mhJournal cfl)|]; discriminate. }
  assert (Hdone : forall A (r : Result A), (r_out r <> Blocked -> balanced b (r_store r)) ->
            gate_kept b r).
  { intros A r H Hnb. split; [exact (H Hnb)|]. intros H0. apply Hclose; [exact (H Hnb)|exact H0]. }
  split; [|split; [|split; [|split; [|split; [intros Hal|]]]]]; apply Hdone; intros Hnb.
  - destruct (enterable_dec b) as [Ha|Hn].
    + apply frame_balanced. apply (PutMany_run pfl b blks Ha).
    + revert Hnb. unfold PutMany.
      destruct (gate_cases b) as [->|[[-> ->]|Ha]]; [intros; apply balanced_refl| |contradiction].
      cbn. contradiction.
  - destruct (enterable_dec b) as [Ha|Hn].
    + apply frame_balanced. apply (DeleteMany_run dfl b cids Ha).
    + revert Hnb. unfold DeleteMany.
      destruct (gate_cases b) as [->|[[-> ->]|Ha]]; [intros; apply balanced_refl| |contradiction].
      cbn. contradiction.
  - destruct (enterable_dec b) as [Ha|Hn].
    + destruct (ForEachKey_run ienv b f Ha) as [->|[_ ->]]; split; reflexivity.
    + revert Hnb. unfold ForEachKey.
      destruct (gate_cases b) as [->|[[-> ->]|Ha]]; [intros; apply balanced_refl| |contradiction].
      cbn. contradiction.
  - destruct (enterable_dec b) as [Ha|Hn].
    + destruct (AllKeysChan_run ienv b Ha) as [->|[_ ->]]; split; reflexivity.
    + revert Hnb. unfold AllKeysChan.
      destruct (gate_cases b) as [->|[[-> ->]|Ha]]; [intros; apply balanced_refl| |contradiction].
      cbn. contradiction.
  - revert Hal Hnb. unfold CollectGarbage, access.
    destruct (state b); [|intros; apply balanced_refl..].
    destruct (apply_options os no_options) as [options [e|]].
    { intros _ _. split; cbn; lia. }
    destruct (FullGC options).
    + set (b1 := set_viewers (viewers b + 1) b).
      pose proof (movingGC_balanced (ge_move genv) w b1) as Hm.
      destruct (movingGC (ge_move genv) w b1) as [w2 r]. cbn [snd r_out r_store] in Hm.
      destruct (r_out r) as [[e|]| | |msg] eqn:Hout; cbn [snd r_out r_store];
        intros Hal Hnb;
        try (destruct Hm as [Hv Hr]; [discriminate|];
             split; cbn; [rewrite Hv|rewrite Hr]; cbn; lia).
      * contradiction.
      * destruct (Hal msg). exact Hout.
    + unfold onlineGC, lockDB. cbn [rlock moveState set_viewers].
      destruct ((rlock b =? 0) && is_moveStateLock (moveState b)).
      * cbn. intros _ H. contradiction.
      * destruct (ge_flatten genv); intros _ _; split; cbn; lia.
  - revert Hnb. unfold GCOnce, access.
    destruct (state b); [|intros; apply balanced_refl..].
    destruct (apply_options os no_options) as [options [e|]].
    { intros _. split; cbn; lia. }
    destruct (FullGC options); [intros _; split; cbn; lia|].
    unfold lockDB. cbn [rlock moveState set_viewers].
    destruct ((rlock b =? 0) && is_moveStateLock (moveState b)).
    + cbn. contradiction.
    + intros _. split; cbn; lia.
Qed.

(** X26. The garbage collections that do not move the store never
    change it. [GCOnce], and [CollectGarbage] when the options do not ask
    for a full GC or one of them fails, leave the store exactly as they
    found it whenever they return, whatever the engine reports and
    whatever the check function does; [CollectGarbage] then touches no
    file and no handle. [GCOnce] refuses the full GC option with an error
    before it takes the lock. *)
Theorem online_gc_keeps_the_store (env : GCEnv) (w : Sys) (b : Blockstore)
    (os : list BlockstoreGCOption) :
  (r_out (GCOnce env b os) <> Blocked -> r_store (GCOnce env b os) = b) ∧
  (FullGC (apply_options os no_options).1 = false ∨ (apply_options os no_options).2 <> None ->
   (CollectGarbage env w b os).1 = w ∧
   (r_out (CollectGarbage env w b os).2 <> Blocked ->
    r_store (CollectGarbage env w b os).2 = b)) ∧
  (state b = stateOpen -> (apply_options os no_options).2 = None ->
   FullGC (apply_options os no_options).1 = true ->
   r_out (GCOnce env b os) = Returned (Some ErrFullGCOnce)).
Proof.
  split; [|split].
  - unfold GCOnce. destruct (access b) as [b1 [e|]] eqn:Ha.
    { intros _. apply (access_refused _ _ _ Ha). }
    destruct (apply_options os no_options) as [options [e|]].
    { intros _. apply (Done_access _ _ Ha). }
    destruct (FullGC options); [intros _; apply (Done_access _ _ Ha)|].
    destruct (lockDB b1) as [b2|] eqn:Hl; [|intros H; contradiction].
    intros _. apply (leave_after _ _ _ Ha Hl).
  - intros Hopt. unfold CollectGarbage. destruct (access b) as [b1 [e|]] eqn:Ha.
    { split; [reflexivity|]. intros _. apply (access_refused _ _ _ Ha). }
    destruct (apply_options os no_options) as [options [e|]]; cbn [fst snd] in Hopt.
    { split; [reflexivity|]. intros _. apply (Done_access _ _ Ha). }
    destruct Hopt as [Hf|Hne]; [|contradiction]. rewrite Hf.
    unfold onlineGC. destruct (lockDB b1) as [b2|] eqn:Hl.
    + destruct (ge_flatten env); (split; [reflexivity|]); intros _;
        apply (leave_after _ _ _ Ha Hl).
    + split; [reflexivity|]. intros H. contradiction.
  - intros Hs Hopt Hf. unfold GCOnce. rewrite access_open by exact Hs.
    destruct (apply_options os no_options) as [options [e|]]; cbn [fst snd] in *;
      [discriminate Hopt|].
    rewrite Hf. reflexivity.
Qed.

End gate_more.
